(** * Papertrail MCP server: admission control and resilient API client

    A shallow embedding of
    - [src/middleware/rateLimiter.js]  (class [RateLimiter], [createRateLimitMiddleware]),
    - [src/papertrailClient.js]        (class [PapertrailClient], ESM and CommonJS variants),
    - [src/middleware/errorHandler.js] ([ErrorHandler]),
    - [src/tools/searchLogs.js]        ([executeSearchLogs]),
    followed by the properties established about them.

    Conventions.  JavaScript numbers that occur on the paths studied are
    millisecond/second timestamps, counters and limits: they are modelled
    as mathematical integers [Z] (plus [NaN] where [parseInt] can produce
    it).  [Math.floor (a / b)] for a positive [b] is [Z.div].  [Date.now()]
    is a clock carried by the state. *)

From Stdlib Require Import ZArith Lia DecimalString Sorted.
From stdpp Require Import base gmap strings list fin_maps.

#[local] Set Warnings "-register-all".
#[local] Open Scope string_scope.
#[local] Open Scope Z_scope.

(* ===================================================================== *)
(** ** rateLimiter.js *)
(* ===================================================================== *)

Module RateLimiter.

(** [clientId -> { requests: [], burstTokens: number }] *)
Record Client := mkClient {
  requests : list Z;
  burstTokens : Z
}.

(** Instants and delays of a decision: [Math.min()] of an empty array is
    [Infinity], and so is what is computed from it. *)
Inductive xnum :=
| Fin (z : Z)
| Infinity.

(** The object [checkLimit] returns.  [reason] and [retryAfter] are
    absent ([None]) on the allowed branch. *)
Record AdmissionDecision := mkDecision {
  allowed : bool;
  reason : option string;
  remaining : Z;
  resetTime : xnum;
  retryAfter : option xnum
}.

(** Fields of a [RateLimiter] instance. *)
Record t := mk {
  requestsPerMinute : Z;
  burst : Z;
  clients : gmap string Client
}.

(** [a || b] on numbers: [0] is falsy, an absent option is [undefined]. *)
Definition or_default (o : option Z) (d : Z) : Z :=
  match o with
  | Some v => if decide (v = 0) then d else v
  | None => d
  end.

(** [constructor(options = {})], with the two [config.rateLimit] values. *)
Definition new (opt_rpm opt_burst : option Z) (cfg_rpm cfg_burst : Z) : t :=
  {| requestsPerMinute := or_default opt_rpm cfg_rpm;
     burst := or_default opt_burst cfg_burst;
     clients := ∅ |}.

Definition set_clients (rl : t) (m : gmap string Client) : t :=
  {| requestsPerMinute := requestsPerMinute rl; burst := burst rl; clients := m |}.

(** [Math.max(...xs)] and [Math.min(...xs)] of a non-empty array [x :: xs]. *)
Definition Math_max (x : Z) (xs : list Z) : Z := foldr Z.max x xs.
Definition Math_min (x : Z) (xs : list Z) : Z := foldr Z.min x xs.

(** [Math.ceil (a / 1000)]. *)
Definition ceil_div (a b : Z) : Z := - ((- a) `div` b).

Definition tokenRestoreInterval : Z := 10000.

(** Arithmetic that [Infinity] absorbs. *)
Definition xmap (f : Z → Z) (x : xnum) : xnum :=
  match x with
  | Fin z => Fin (f z)
  | Infinity => Infinity
  end.

(** The record found or created at the top of [checkLimit]. *)
Definition get_or_create (clientId : string) (rl : t) : Client :=
  match clients rl !! clientId with
  | Some c => c
  | None => {| requests := []; burstTokens := burst rl |}
  end.

(** [client.requests = client.requests.filter(timestamp => timestamp > windowStart)] *)
Definition trim (windowStart : Z) (rs : list Z) : list Z :=
  filter (λ timestamp, windowStart < timestamp) rs.

(** [tokensSinceLastRequest] *)
Definition tokensSinceLastRequest (now : Z) (rl : t) (rs : list Z) : Z :=
  match rs with
  | [] => burst rl
  | r :: rs' => (now - Math_max r rs') `div` tokenRestoreInterval
  end.

(** The client record once the window is trimmed and the burst tokens are
    restored: the state of [client] when [checkLimit] reaches its first
    [if]. *)
Definition refill (now : Z) (clientId : string) (rl : t) : Client :=
  let windowStart := now - 60000 in
  let client := get_or_create clientId rl in
  let rs := trim windowStart (requests client) in
  {| requests := rs;
     burstTokens := Z.min (burst rl) (burstTokens client + tokensSinceLastRequest now rl rs) |}.

(** [checkLimit(clientId)], with [now] the value [Date.now()] returns. *)
Definition checkLimit (now : Z) (clientId : string) (rl : t) : AdmissionDecision * t :=
  let windowStart := now - 60000 in
  let client := refill now clientId rl in
  if decide (burstTokens client ≤ 0) then
    ({| allowed := false;
        reason := Some "burst_limit_exceeded";
        remaining := 0;
        resetTime := Fin (now + tokenRestoreInterval);
        retryAfter := Some (Fin (tokenRestoreInterval `div` 1000)) |},
     set_clients rl (<[clientId := client]> (clients rl)))
  else if decide (requestsPerMinute rl ≤ Z.of_nat (length (requests client))) then
    let oldestRequest :=
      match requests client with
      | [] => Infinity
      | r :: rs' => Fin (Math_min r rs')
      end in
    let resetTime := xmap (λ oldest, oldest + 60000) oldestRequest in
    ({| allowed := false;
        reason := Some "rate_limit_exceeded";
        remaining := 0;
        resetTime := resetTime;
        retryAfter := Some (xmap (λ reset, ceil_div (reset - now) 1000) resetTime) |},
     set_clients rl (<[clientId := client]> (clients rl)))
  else
    let client' := {| requests := requests client ++ [now];
                      burstTokens := burstTokens client - 1 |} in
    ({| allowed := true;
        reason := None;
        remaining := Z.min (requestsPerMinute rl - Z.of_nat (length (requests client')))
                           (burstTokens client');
        resetTime := Fin (windowStart + 60000);
        retryAfter := None |},
     set_clients rl (<[clientId := client']> (clients rl))).

(** [client.requests.some(timestamp => timestamp > cutoff)] *)
Definition hasRecentRequests (cutoff : Z) (client : Client) : Prop :=
  Exists (λ timestamp, cutoff < timestamp) (requests client).

#[global] Instance hasRecentRequests_dec cutoff client :
  Decision (hasRecentRequests cutoff client).
Proof. unfold hasRecentRequests. apply _. Defined.

(** [cleanup()]: every record without a request after [now - 300000] is
    deleted from the map. *)
Definition cleanup (now : Z) (rl : t) : t :=
  let cutoff := now - 300000 in
  set_clients rl (filter (λ kv, hasRecentRequests cutoff kv.2) (clients rl)).

(** [resetClient(clientId)] *)
Definition resetClient (clientId : string) (rl : t) : bool * t :=
  match clients rl !! clientId with
  | Some _ => (true, set_clients rl (delete clientId (clients rl)))
  | None => (false, rl)
  end.

(** The operations that change a limiter, as a script. *)
Inductive op :=
| OpCheck (now : Z) (clientId : string)
| OpCleanup (now : Z)
| OpReset (clientId : string).

Definition step (o : op) (rl : t) : t :=
  match o with
  | OpCheck now c => (checkLimit now c rl).2
  | OpCleanup now => cleanup now rl
  | OpReset c => (resetClient c rl).2
  end.

(** [run ops rl]: the limiter after the operations [ops], first one first. *)
Definition run (ops : list op) (rl : t) : t := foldl (λ s o, step o s) rl ops.

(** The clock never runs backwards along a script: every [Date.now()] read
    is at least the previous one, starting from [t0]. *)
Fixpoint monotone_from (t0 : Z) (ops : list op) : Prop :=
  match ops with
  | [] => True
  | OpCheck now _ :: ops' => t0 ≤ now ∧ monotone_from now ops'
  | OpCleanup now :: ops' => t0 ≤ now ∧ monotone_from now ops'
  | OpReset _ :: ops' => monotone_from t0 ops'
  end.

(** The instants at which [checkLimit] is called for [c], in order. *)
Fixpoint check_times (c : string) (ops : list op) : list Z :=
  match ops with
  | [] => []
  | OpCheck now c' :: ops' =>
      if decide (c' = c) then now :: check_times c ops' else check_times c ops'
  | _ :: ops' => check_times c ops'
  end.

(** Consecutive instants are at least [gap] apart. *)
Fixpoint spaced (gap : Z) (ts : list Z) : Prop :=
  match ts with
  | t1 :: ((t2 :: _) as rest) => t1 + gap ≤ t2 ∧ spaced gap rest
  | _ => True
  end.

(** *** Invariants *)

(** Every tracked record has its tokens in [[0, burst]] and no timestamp
    later than [t]. *)
Definition well_formed (t : Z) (rl : RateLimiter.t) : Prop :=
  ∀ c cl, clients rl !! c = Some cl →
    0 ≤ burstTokens cl ≤ burst rl ∧ Forall (λ ts, ts ≤ t) (requests cl).

(** The record of a caller whose checks are ten seconds apart: at most one
    token below capacity, and nothing recorded after the last check. *)
Definition rested (c : string) (ops : list op) (rl : RateLimiter.t) : Prop :=
  ∀ cl, clients rl !! c = Some cl →
    burst rl - 1 ≤ burstTokens cl ≤ burst rl
    ∧ ∃ lst, last (check_times c ops) = Some lst ∧ Forall (λ ts, ts ≤ lst) (requests cl).

End RateLimiter.

(* ===================================================================== *)
(** ** JavaScript values, exceptions and the effects of the client *)
(* ===================================================================== *)

Module JS.

(** Numbers: the integers and [NaN]. *)
Inductive num :=
| NaN
| Int (z : Z).

(** Values as [JSON.parse] and object literals build them, with
    [undefined]. *)
Inductive value :=
| VUndef
| VNull
| VBool (b : bool)
| VNum (n : num)
| VStr (s : string)
| VArr (elems : list value)
| VObj (fields : list (string * value)).

(** An [Error] object with the own properties the code reads or sets. *)
Record Error := mkError {
  message : string;
  code : option string;
  retryAfter : option RateLimiter.xnum;
  resetTime : option RateLimiter.xnum;
  remaining : option Z;
  validationErrors : option (list string)
}.

(** [new Error(msg)] *)
Definition new_Error (msg : string) : Error :=
  {| message := msg; code := None; retryAfter := None; resetTime := None;
     remaining := None; validationErrors := None |}.

(** The [TypeError] of a property read on [undefined], and the one of a
    read on [null]. *)
Definition TypeError_read (k : string) : Error :=
  new_Error ("Cannot read properties of undefined (reading '" ++ k ++ "')").
Definition TypeError_read_null (k : string) : Error :=
  new_Error ("Cannot read properties of null (reading '" ++ k ++ "')").

(** How an evaluation ends: with a value or with a thrown error. *)
Inductive completion (A : Type) :=
| Normal (a : A)
| Throw (e : Error).
Arguments Normal {A} a.
Arguments Throw {A} e.

(** [String(n)] for a number. *)
Definition show_Z (z : Z) : string := NilZero.string_of_int (Z.to_int z).

Definition show_num (n : num) : string :=
  match n with
  | NaN => "NaN"
  | Int z => show_Z z
  end.

(** [ToBoolean] *)
Definition truthy (v : value) : bool :=
  match v with
  | VUndef | VNull => false
  | VBool b => b
  | VNum NaN => false
  | VNum (Int z) => negb (z =? 0)
  | VStr s => negb (String.eqb s EmptyString)
  | VArr _ | VObj _ => true
  end.

(** [a || b] when [b] has no effect. *)
Definition or (a b : value) : value := if truthy a then a else b.

(** Own property of an object; of duplicate keys the last one counts. *)
Fixpoint lookup_field (k : string) (fields : list (string * value)) : option value :=
  match fields with
  | [] => None
  | (k', v) :: rest =>
      match lookup_field k rest with
      | Some v' => Some v'
      | None => if String.eqb k k' then Some v else None
      end
  end.

(** [v.k] for the named keys the code reads ([length] of strings and
    arrays included; array indices and prototype methods are not values
    of this model). *)
Definition get_prop (v : value) (k : string) : completion value :=
  match v with
  | VUndef => Throw (TypeError_read k)
  | VNull => Throw (TypeError_read_null k)
  | VObj fields => Normal (default VUndef (lookup_field k fields))
  | VStr s => Normal (if String.eqb k "length" then VNum (Int (Z.of_nat (String.length s))) else VUndef)
  | VArr l => Normal (if String.eqb k "length" then VNum (Int (Z.of_nat (length l))) else VUndef)
  | VBool _ | VNum _ => Normal VUndef
  end.

(** [v?.k] *)
Definition opt_prop (v : value) (k : string) : completion value :=
  match v with
  | VUndef | VNull => Normal VUndef
  | _ => get_prop v k
  end.

(** [typeof v], after the [Array.isArray] test of [validateArgs]. *)
Definition actualType (v : value) : string :=
  match v with
  | VUndef => "undefined"
  | VNull => "object"
  | VBool _ => "boolean"
  | VNum _ => "number"
  | VStr _ => "string"
  | VArr _ => "array"
  | VObj _ => "object"
  end.

(** Built-ins of the language and of the presentation layer that are
    taken as given: string-to-number conversions ([ToNumber] and
    [parseInt] on strings, arrays and objects, and on numbers printed in
    exponent notation), [new Date(v).getTime()], [String.prototype.trim]
    and the locale-dependent rendering [formatSearchResults]. *)
Record Builtins (SearchResult : Type) := mkBuiltins {
  ToNumber_other : value → num;
  parseInt_other : value → num;
  Date_getTime : value → num;
  String_trim : string → string;
  formatSearchResults : SearchResult → value → completion string
}.
Arguments ToNumber_other {_} _ _.
Arguments parseInt_other {_} _ _.
Arguments Date_getTime {_} _ _.
Arguments String_trim {_} _ _.
Arguments formatSearchResults {_} _ _ _.

End JS.

(* ===================================================================== *)
(** ** papertrailClient.js *)
(* ===================================================================== *)

Module PapertrailClient.
Import JS.

(** [`/events/search.json?${params}`]: the path and the entries given to
    [URLSearchParams], before they are printed. *)
Record Endpoint := mkEndpoint {
  path : string;
  params : list (string * value)
}.

(** What one [fetch] does: it rejects (transport failure, time-out), or
    it resolves to a response with a status, a body text and what
    [response.json()] makes of the body ([None]: the body is not JSON and
    [json()] rejects). *)
Inductive FetchOutcome :=
| Rejected (msg : string)
| Responded (status : Z) (text : string) (json : option value).

Inductive Event :=
| EvFetch (e : Endpoint)
| EvSleep (ms : Z).

(** The world the code runs in: the clock [Date.now()] reads, the global
    rate limiter, the remote side as a script (the [n]-th [fetch] of the
    run takes [fst] milliseconds and ends as [snd]), and the log of the
    fetches and sleeps performed so far. *)
Record World := mkWorld {
  clock : Z;
  limiter : RateLimiter.t;
  network : nat → Z * FetchOutcome;
  fetched : nat;
  trace : list Event
}.

(** The world once the global limiter has moved to [rl]. *)
Definition set_limiter (w : World) (rl : RateLimiter.t) : World :=
  {| clock := clock w; limiter := rl; network := network w;
     fetched := fetched w; trace := trace w |}.

(** State and exception monad of the asynchronous code, [await]s
    sequenced. *)
Definition M (A : Type) : Type := World → completion A * World.

Definition ret {A} (a : A) : M A := λ w, (Normal a, w).
Definition throw {A} (e : Error) : M A := λ w, (Throw e, w).
Definition bind {A B} (m : M A) (k : A → M B) : M B :=
  λ w, match m w with
       | (Normal a, w') => k a w'
       | (Throw e, w') => (Throw e, w')
       end.
(** [try { m } catch (error) { h error }] *)
Definition catch {A} (m : M A) (h : Error → M A) : M A :=
  λ w, match m w with
       | (Normal a, w') => (Normal a, w')
       | (Throw e, w') => h e w'
       end.
Definition lift {A} (c : completion A) : M A := λ w, (c, w).

Notation "'let*' x ':=' m 'in' k" := (bind m (λ x, k))
  (at level 10, x name, m at level 100, k at level 200, only parsing).
Notation "'do' m 'then' k" := (bind m (λ _, k))
  (at level 10, m at level 100, k at level 200, only parsing).

(** [Date.now()].  The clock of a world moves while the code awaits a
    [fetch] or a [sleep], and only then: two reads with no [await] between
    them give the same instant. *)
Definition Date_now : M Z := λ w, (Normal (clock w), w).

(** [this.sleep(ms)] *)
Definition sleep (ms : Z) : M unit :=
  λ w, (Normal tt,
        {| clock := clock w + ms; limiter := limiter w; network := network w;
           fetched := fetched w; trace := trace w ++ [EvSleep ms] |}).

(** [await fetch(url, requestOptions)] *)
Definition fetch (e : Endpoint) : M (Z * string * option value) :=
  λ w, let '(latency, outcome) := network w (fetched w) in
       let w' := {| clock := clock w + latency; limiter := limiter w;
                    network := network w; fetched := S (fetched w);
                    trace := trace w ++ [EvFetch e] |} in
       match outcome with
       | Rejected msg => (Throw (new_Error msg), w')
       | Responded status text json => (Normal (status, text, json), w')
       end.

(** [response.ok] *)
Definition ok (status : Z) : bool := (200 <=? status) && (status <=? 299).

(** The error of a [response.json()] that rejects.  The library's message
    begins with these words and goes on with the URL and the parser's
    reason, which are left out. *)
Definition invalid_json : Error := new_Error "invalid json response body".

(** Fields of a client instance. *)
Record t := mk {
  apiToken : string;
  baseUrl : string;
  timeout : Z;
  maxRetries : Z
}.

(** The body of the [try] in [makeRequest]'s loop. *)
Definition attempt_once (e : Endpoint) : M value :=
  let* response := fetch e in
  let '(status, errorText, json) := response in
  if ok status then
    match json with
    | Some v => ret v
    | None => throw invalid_json
    end
  else
    throw (new_Error ("Papertrail API error (" ++ show_Z status ++ "): " ++ errorText)).

(** [throw new Error(`Failed after ${this.maxRetries} attempts: ${lastError.message}`)];
    with [lastError] still [undefined] the read of [.message] throws
    instead. *)
Definition exhausted (self : t) (lastError : option Error) : Error :=
  match lastError with
  | Some err =>
      new_Error ("Failed after " ++ show_Z (maxRetries self) ++ " attempts: " ++ message err)
  | None => TypeError_read "message"
  end.

(** The [for] loop of [makeRequest] with [n] iterations left, and the
    [throw] after it. *)
Fixpoint makeRequest_loop (self : t) (e : Endpoint) (n : nat) (attempt : Z)
    (lastError : option Error) : M value :=
  match n with
  | O => throw (exhausted self lastError)
  | S n' =>
      catch (attempt_once e)
        (λ error,
           do (if decide (attempt < maxRetries self)
               then sleep (2 ^ (attempt - 1) * 1000)
               else ret tt)
           then makeRequest_loop self e n' (attempt + 1) (Some error))
  end.

(** [makeRequest(endpoint)]: [attempt] runs from [1] to [maxRetries]. *)
Definition makeRequest (self : t) (e : Endpoint) : M value :=
  makeRequest_loop self e (Z.to_nat (maxRetries self)) 1 None.

(** [getDefaultMinTime()] and [getDefaultMaxTime()] *)
Definition getDefaultMinTime : M value :=
  let* now := Date_now in ret (VNum (Int ((now - 60 * 60 * 1000) `div` 1000))).
Definition getDefaultMaxTime : M value :=
  let* now := Date_now in ret (VNum (Int (now `div` 1000))).

(** [v || m] where the right operand reads the clock. *)
Definition or_else (v : value) (m : M value) : M value :=
  if truthy v then ret v else m.

(** The object [searchLogs] returns; the fields absent from the failure
    object are [None]. *)
Record SearchResult := mkSearchResult {
  success : bool;
  error : option string;
  events : value;
  total : value;
  query : value;
  timeRange : option (value * value);
  metadata : option (Z * value)
}.

(** [...(x && { k: x })] *)
Definition spread_if (k : string) (x : value) : list (string * value) :=
  if truthy x then [(k, x)] else [].

(** The entries of [new URLSearchParams({...})] in [searchLogs]. *)
Definition search_params (query options : value) : M (list (string * value)) :=
  let* minTime := lift (get_prop options "minTime") in
  let* min_time := or_else minTime getDefaultMinTime in
  let* maxTime := lift (get_prop options "maxTime") in
  let* max_time := or_else maxTime getDefaultMaxTime in
  let* limit := lift (get_prop options "limit") in
  let* system_id := lift (get_prop options "system_id") in
  let* group_id := lift (get_prop options "group_id") in
  ret ([("q", query); ("min_time", min_time); ("max_time", max_time);
        ("limit", or limit (VNum (Int 100)))]
       ++ spread_if "system_id" system_id ++ spread_if "group_id" group_id)%list.

(** [timeRange] and [metadata] of the success object. *)
Definition result_tail (options : value) : M ((value * value) * (Z * value)) :=
  let* minTime := lift (get_prop options "minTime") in
  let* minT := or_else minTime getDefaultMinTime in
  let* maxTime := lift (get_prop options "maxTime") in
  let* maxT := or_else maxTime getDefaultMaxTime in
  let* searchTime := Date_now in
  let* limit := lift (get_prop options "limit") in
  ret ((minT, maxT), (searchTime, or limit (VNum (Int 100)))).

(** The object of the [catch] branch. *)
Definition failure (query : value) (err : Error) : SearchResult :=
  {| success := false; error := Some (message err); events := VArr [];
     total := VNum (Int 0); query := query; timeRange := None; metadata := None |}.

(** [options = {}] *)
Definition default_options (options : value) : value :=
  match options with
  | VUndef => VObj []
  | _ => options
  end.

(** [total: result.events?.length || 0] (ES module) *)
Definition total_esm (result : value) : M value :=
  let* ev := lift (get_prop result "events") in
  let* len := lift (opt_prop ev "length") in
  ret (or len (VNum (Int 0))).

(** [total: result.total_events || result.events?.length || 0] (CommonJS) *)
Definition total_cjs (result : value) : M value :=
  let* total_events := lift (get_prop result "total_events") in
  if truthy total_events then ret total_events else total_esm result.

(** [searchLogs(query, options = {})], over the expression that computes
    [total]. *)
Definition searchLogs_with (total_of : value → M value)
    (self : t) (query options : value) : M SearchResult :=
  let options := default_options options in
  catch
    (let* ps := search_params query options in
     let endpoint := {| path := "/events/search.json"; params := ps |} in
     let* result := makeRequest self endpoint in
     let* ev := lift (get_prop result "events") in
     let* tot := total_of result in
     let* tail := result_tail options in
     ret {| success := true; error := None;
            events := or ev (VArr []);
            total := tot;
            query := query;
            timeRange := Some tail.1;
            metadata := Some tail.2 |})
    (λ error, ret (failure query error)).

(** The ES module ([import]ed by [tools/searchLogs.js]) and the CommonJS
    file differ in [total] only. *)
Definition searchLogs := searchLogs_with total_esm.
Definition searchLogs_cjs := searchLogs_with total_cjs.

(** *** Vocabulary for the statements about runs *)

(** An attempt fails when [fetch] rejects or the status is not 2xx. *)
Definition attempt_fails (o : FetchOutcome) : Prop :=
  match o with
  | Rejected _ => True
  | Responded status _ _ => ok status = false
  end.

(** The error such an attempt leaves in [lastError]. *)
Definition failure_of (o : FetchOutcome) : Error :=
  match o with
  | Rejected msg => new_Error msg
  | Responded status errorText _ =>
      new_Error ("Papertrail API error (" ++ show_Z status ++ "): " ++ errorText)
  end.

(** The requests sent and the delays slept, read off a log. *)
Definition fetches (tr : list Event) : list Endpoint :=
  omap (λ ev, match ev with EvFetch e => Some e | EvSleep _ => None end) tr.

Definition sleeps (tr : list Event) : list Z :=
  omap (λ ev, match ev with EvSleep ms => Some ms | EvFetch _ => None end) tr.

(** The log of [n] failed attempts numbered from [attempt]: a request,
    then the back-off unless the attempt was the last one. *)
Fixpoint retry_events (maxRetries : Z) (e : Endpoint) (n : nat) (attempt : Z) : list Event :=
  match n with
  | O => []
  | S n' =>
      (EvFetch e :: if decide (attempt < maxRetries)
                    then [EvSleep (2 ^ (attempt - 1) * 1000)] else [])
      ++ retry_events maxRetries e n' (attempt + 1)
  end%list.

(** The world after one [fetch]. *)
Definition fetched_once (e : Endpoint) (w : World) : World :=
  {| clock := clock w + (network w (fetched w)).1; limiter := limiter w;
     network := network w; fetched := S (fetched w);
     trace := (trace w ++ [EvFetch e])%list |}.

(** Computations that read the world without changing it, and end
    normally. *)
Definition quiet {A} (m : M A) : Prop := ∀ w, ∃ a, m w = (Normal a, w).

(** Computations that leave the world as it is, however they end. *)
Definition silent {A} (m : M A) : Prop := ∀ w, (m w).2 = w.

(** Computations that only add to the log, every request they send
    satisfying [P], and that leave the script of the remote side alone. *)
Definition sends {A} (P : Endpoint → Prop) (m : M A) : Prop :=
  ∀ w, ∃ tr, trace (m w).2 = (trace w ++ tr)%list ∧ Forall P (fetches tr).

(** A world at rest: nothing fetched, nothing logged. *)
Definition initial_world (now : Z) (rl : RateLimiter.t) (net : nat → Z * FetchOutcome) : World :=
  {| clock := now; limiter := rl; network := net; fetched := 0; trace := [] |}.

(** A remote side that answers every request the same way. *)
Definition always (latency : Z) (o : FetchOutcome) : nat → Z * FetchOutcome :=
  λ _, (latency, o).

(** The [n]-th outcome the script holds in store for a world. *)
Definition upcoming (w : World) (n : nat) : FetchOutcome := (network w (fetched w + n)%nat).2.

(** [lastError] after [n] more failed attempts. *)
Definition final_error (w : World) (n : nat) (lastError : option Error) : option Error :=
  match n with
  | O => lastError
  | S m => Some (failure_of (upcoming w m))
  end.

(** A search entry point returns normally in every world, and its
    failure object has a message, no events and a zero total. *)
Definition reports_failure_cleanly
    (search : t → value → value → M SearchResult) : Prop :=
  ∀ self query options w,
    ∃ r w', search self query options w = (Normal r, w')
            ∧ (success r = false →
               (∃ msg, error r = Some msg)
               ∧ events r = VArr [] ∧ total r = VNum (Int 0)
               ∧ timeRange r = None ∧ metadata r = None).

(** ... and it fails whenever every attempt of its request fails. *)
Definition fails_when_exhausted
    (search : t → value → value → M SearchResult) : Prop :=
  ∀ self query options w,
    (∀ k, (k < Z.to_nat (maxRetries self))%nat → attempt_fails (upcoming w k)) →
    ∃ err w', search self query options w = (Normal (failure query err), w').

End PapertrailClient.

(* ===================================================================== *)
(** ** errorHandler.js *)
(* ===================================================================== *)

Module ErrorHandler.
Import JS PapertrailClient.

Module ERROR_CODES.
Definition RATE_LIMIT_EXCEEDED := "RATE_LIMIT_EXCEEDED".
Definition INVALID_ARGUMENTS := "INVALID_ARGUMENTS".
Definition API_CONNECTION_ERROR := "API_CONNECTION_ERROR".
Definition AUTHENTICATION_ERROR := "AUTHENTICATION_ERROR".
Definition TOOL_EXECUTION_ERROR := "TOOL_EXECUTION_ERROR".
Definition CONFIGURATION_ERROR := "CONFIGURATION_ERROR".
Definition INTERNAL_ERROR := "INTERNAL_ERROR".
End ERROR_CODES.

(** [createError(code, message, additionalProperties)]; of the additional
    properties only [validationErrors] is read back. *)
Definition createError (code : string) (msg : string)
    (validationErrors : option (list string)) : Error :=
  {| message := msg; JS.code := Some code; retryAfter := None; resetTime := None;
     remaining := None; JS.validationErrors := validationErrors |}.

(** One entry of [schema.properties]. *)
Record Constraints := mkConstraints {
  type : string;
  minimum : option Z;
  maximum : option Z;
  minLength : option Z;
  maxLength : option Z
}.

Record Schema := mkSchema {
  properties : list (string * Constraints);
  required : list string
}.

Section WithBuiltins.
Context {SR : Type} (B : Builtins SR).

(** [ToNumber], the conversion behind [<] and [>] against a number. *)
Definition ToNumber (v : value) : num :=
  match v with
  | VUndef => NaN
  | VNull => Int 0
  | VBool b => Int (if b then 1 else 0)
  | VNum n => n
  | VStr _ | VArr _ | VObj _ => ToNumber_other B v
  end.

Definition js_lt (v : value) (n : Z) : bool :=
  match ToNumber v with
  | NaN => false
  | Int z => z <? n
  end.

Definition js_gt (v : value) (n : Z) : bool :=
  match ToNumber v with
  | NaN => false
  | Int z => n <? z
  end.

(** The messages one required field adds to [errors]. *)
Definition required_errors (args : value) (field : string) : completion (list string) :=
  match get_prop args field with
  | Throw e => Throw e
  | Normal v =>
      Normal (match v with
              | VUndef | VNull => ["Required field '" ++ field ++ "' is missing"]
              | _ => []
              end)
  end.

Definition type_errors (field : string) (c : Constraints) (v : value) : list string :=
  if String.eqb (type c) EmptyString then []
  else if String.eqb (actualType v) (type c) then []
  else ["Field '" ++ field ++ "' must be of type " ++ type c ++ ", got " ++ actualType v].

Definition range_errors (field : string) (c : Constraints) (v : value) : list string :=
  if String.eqb (type c) "integer" || String.eqb (type c) "number" then
    app
      match minimum c with
      | Some m => if js_lt v m then ["Field '" ++ field ++ "' must be at least " ++ show_Z m] else []
      | None => []
      end
      match maximum c with
      | Some m => if js_gt v m then ["Field '" ++ field ++ "' must be at most " ++ show_Z m] else []
      | None => []
      end
  else [].

(** One bound of the string length checks: [value.length] is read only
    when the bound is defined. *)
Definition length_error (cmp : value → Z → bool) (bound : option Z)
    (msg : Z → string) (v : value) : completion (list string) :=
  match bound with
  | None => Normal []
  | Some n =>
      match get_prop v "length" with
      | Throw e => Throw e
      | Normal len => Normal (if cmp len n then [msg n] else [])
      end
  end.

Definition length_errors (field : string) (c : Constraints) (v : value)
    : completion (list string) :=
  if String.eqb (type c) "string" then
    match length_error js_lt (minLength c)
            (λ n, "Field '" ++ field ++ "' must be at least " ++ show_Z n ++ " characters") v with
    | Throw e => Throw e
    | Normal e1 =>
        match length_error js_gt (maxLength c)
                (λ n, "Field '" ++ field ++ "' must be at most " ++ show_Z n ++ " characters") v with
        | Throw e => Throw e
        | Normal e2 => Normal (e1 ++ e2)%list
        end
    end
  else Normal [].

(** The messages one entry of [schema.properties] adds to [errors]. *)
Definition property_errors (args : value) (fc : string * Constraints)
    : completion (list string) :=
  let '(field, c) := fc in
  match get_prop args field with
  | Throw e => Throw e
  | Normal VUndef => Normal []
  | Normal v =>
      match length_errors field c v with
      | Throw e => Throw e
      | Normal e3 => Normal (type_errors field c v ++ range_errors field c v ++ e3)%list
      end
  end.

(** The loops of [validateArgs]: messages accumulate in order, a throw
    ends the loop. *)
Fixpoint collect {A} (f : A → completion (list string)) (xs : list A)
    : completion (list string) :=
  match xs with
  | [] => Normal []
  | x :: xs' =>
      match f x with
      | Throw e => Throw e
      | Normal e1 =>
          match collect f xs' with
          | Throw e => Throw e
          | Normal e2 => Normal (e1 ++ e2)%list
          end
      end
  end.

(** [errors.join(', ')] *)
Fixpoint join (sep : string) (xs : list string) : string :=
  match xs with
  | [] => EmptyString
  | [x] => x
  | x :: xs' => x ++ sep ++ join sep xs'
  end.

(** [validateArgs(args, schema)] *)
Definition validateArgs (args : value) (schema : Schema) : completion unit :=
  match collect (required_errors args) (required schema) with
  | Throw e => Throw e
  | Normal e1 =>
      match collect (property_errors args) (properties schema) with
      | Throw e => Throw e
      | Normal e2 =>
          let errors := (e1 ++ e2)%list in
          match errors with
          | [] => Normal tt
          | _ => Throw (createError ERROR_CODES.INVALID_ARGUMENTS
                          ("Validation failed: " ++ join ", " errors) (Some errors))
          end
      end
  end.

End WithBuiltins.

(** The response object of the tool, on success and from
    [formatMcpError]. *)
Record McpResponse := mkMcpResponse {
  success : bool;
  error : option string;
  code : option string;
  text : string;
  r_retryAfter : option RateLimiter.xnum;
  r_resetTime : option RateLimiter.xnum;
  r_remaining : option Z;
  r_validationErrors : option (list string)
}.

Definition show_opt (o : option RateLimiter.xnum) : string :=
  match o with
  | Some (RateLimiter.Fin z) => show_Z z
  | Some RateLimiter.Infinity => "Infinity"
  | None => "undefined"
  end.

(** [getErrorMessage(error)] *)
Definition getErrorMessage (e : Error) : string :=
  let c := default EmptyString (JS.code e) in
  if String.eqb c ERROR_CODES.RATE_LIMIT_EXCEEDED then
    "🚀 Rate limit exceeded. Please wait " ++ show_opt (retryAfter e) ++ " seconds before trying again."
  else if String.eqb c ERROR_CODES.INVALID_ARGUMENTS then
    "⚠️ Invalid arguments provided. Please check the tool documentation and try again."
  else if String.eqb c ERROR_CODES.API_CONNECTION_ERROR then
    "🔌 Unable to connect to Papertrail API. Please check your network connection and API credentials."
  else if String.eqb c ERROR_CODES.AUTHENTICATION_ERROR then
    "🔒 Authentication failed. Please verify your Papertrail API token is correct and has necessary permissions."
  else if String.eqb c ERROR_CODES.TOOL_EXECUTION_ERROR then
    "⚙️ Tool execution failed: " ++ message e
  else if String.eqb c ERROR_CODES.CONFIGURATION_ERROR then
    "⚙️ Server configuration error. Please contact your administrator."
  else
    "❌ An unexpected error occurred: " ++ message e.

(** [a || b] on an optional string: [undefined] and [''] are falsy. *)
Definition or_string (o : option string) (d : string) : string :=
  match o with
  | Some s => if String.eqb s EmptyString then d else s
  | None => d
  end.

(** [formatMcpError(error, context)] *)
Definition formatMcpError (e : Error) : McpResponse :=
  let c := default EmptyString (JS.code e) in
  let rate := String.eqb c ERROR_CODES.RATE_LIMIT_EXCEEDED in
  let inval := String.eqb c ERROR_CODES.INVALID_ARGUMENTS in
  {| success := false;
     error := Some (or_string (Some (message e)) "Unknown error occurred");
     code := Some (or_string (JS.code e) ERROR_CODES.INTERNAL_ERROR);
     text := getErrorMessage e;
     r_retryAfter := if rate then retryAfter e else None;
     r_resetTime := if rate then resetTime e else None;
     r_remaining := if rate then remaining e else None;
     r_validationErrors := if inval then JS.validationErrors e else None |}.

End ErrorHandler.

(* ===================================================================== *)
(** ** tools/searchLogs.js *)
(* ===================================================================== *)

Module Tool.
Import JS PapertrailClient ErrorHandler.

(** [searchLogsTool.inputSchema] *)
Definition string_field : Constraints :=
  {| type := "string"; minimum := None; maximum := None; minLength := None; maxLength := None |}.
Definition integer_field (lo hi : option Z) : Constraints :=
  {| type := "integer"; minimum := lo; maximum := hi; minLength := None; maxLength := None |}.

Definition inputSchema : Schema :=
  {| properties :=
       [("query", string_field);
        ("minTime", string_field);
        ("maxTime", string_field);
        ("limit", integer_field (Some 1) (Some 1000));
        ("systemId", integer_field None None);
        ("groupId", integer_field None None)];
     required := ["query"] |}.

(** [rateLimitMiddleware(clientId)] of [createRateLimitMiddleware()], on
    the global limiter. *)
Definition rateLimitMiddleware (clientId : string) : M RateLimiter.AdmissionDecision :=
  λ w,
    let '(result, rl) := RateLimiter.checkLimit (clock w) clientId (limiter w) in
    let w' := set_limiter w rl in
    if RateLimiter.allowed result then (Normal result, w')
    else
      (Throw {| message := "Rate limit exceeded: " ++ default "undefined" (RateLimiter.reason result);
                JS.code := Some ERROR_CODES.RATE_LIMIT_EXCEEDED;
                retryAfter := RateLimiter.retryAfter result;
                resetTime := Some (RateLimiter.resetTime result);
                remaining := Some (RateLimiter.remaining result);
                validationErrors := None |}, w').

(** [new PapertrailClient()] with the values of [config.papertrail]. *)
Definition new_client (apiToken baseUrl : string) : PapertrailClient.t :=
  {| apiToken := apiToken; baseUrl := baseUrl; timeout := 30000; maxRetries := 3 |}.

Section WithBuiltins.
Context (B : Builtins SearchResult).

(** [parseInt(v)] *)
Definition parseInt (v : value) : num :=
  match v with
  | VUndef | VNull | VBool _ | VNum NaN => NaN
  | VNum (Int z) => if decide (Z.abs z < 10 ^ 21) then Int z else parseInt_other B v
  | VStr _ | VArr _ | VObj _ => parseInt_other B v
  end.

(** [n || 100] on numbers *)
Definition num_or (n : num) (d : Z) : Z :=
  match n with
  | NaN => d
  | Int z => if decide (z = 0) then d else z
  end.

(** [Math.min(parseInt(args.limit) || 100, 1000)] *)
Definition limit_option (limit : value) : value :=
  VNum (Int (Z.min (num_or (parseInt limit) 100) 1000)).

(** [...(x && { k: parseInt(x) })] *)
Definition spread_parsed (k : string) (x : value) : list (string * value) :=
  if truthy x then [(k, VNum (parseInt x))] else [].

(** The two [if (args.minTime) { ... }] blocks: the entry added to
    [options], or the error thrown. *)
Definition time_option (k : string) (example : string) (x : value)
    : completion (list (string * value)) :=
  if truthy x then
    match Date_getTime B x with
    | NaN =>
        Throw (createError ERROR_CODES.INVALID_ARGUMENTS
                 ("Invalid " ++ k ++ " format. Use ISO 8601 format (e.g., " ++ example ++ ")")
                 None)
    | Int ms => Normal [(k, VNum (Int (ms `div` 1000)))]
    end
  else Normal [].

(** [!args.query || args.query.trim() === ''] *)
Definition query_is_empty (q : value) : completion bool :=
  if negb (truthy q) then Normal true
  else
    match q with
    | VStr s => Normal (String.eqb (String_trim B s) EmptyString)
    | _ => Throw (new_Error "args.query.trim is not a function")
    end.

(** The [try] block of [executeSearchLogs]. *)
Definition executeSearchLogs_body (apiToken baseUrl : string) (args : value)
    (clientId : string) : M McpResponse :=
  do rateLimitMiddleware clientId then
  let* q := lift (get_prop args "query") in
  let* empty := lift (query_is_empty q) in
  if (empty : bool) then
    throw (createError ERROR_CODES.INVALID_ARGUMENTS
             "Query parameter is required and cannot be empty. Please provide search terms extracted from the user message."
             None)
  else
  do lift (validateArgs B args inputSchema) then
  let client := new_client apiToken baseUrl in
  let* limit := lift (get_prop args "limit") in
  let* systemId := lift (get_prop args "systemId") in
  let* groupId := lift (get_prop args "groupId") in
  let options0 :=
    ([("limit", limit_option limit)] ++ spread_parsed "system_id" systemId
       ++ spread_parsed "group_id" groupId)%list in
  let* minTime := lift (get_prop args "minTime") in
  let* o1 := lift (time_option "minTime" "2023-12-01T10:00:00Z" minTime) in
  let* maxTime := lift (get_prop args "maxTime") in
  let* o2 := lift (time_option "maxTime" "2023-12-01T11:00:00Z" maxTime) in
  let options := VObj (options0 ++ o1 ++ o2)%list in
  let* query := lift (get_prop args "query") in
  let* result := searchLogs client query options in
  if negb (PapertrailClient.success result) then
    throw (createError ERROR_CODES.API_CONNECTION_ERROR
             ("Papertrail API request failed: " ++ default "undefined" (PapertrailClient.error result))
             None)
  else
  let* formattedResult := lift (formatSearchResults B result query) in
  ret {| ErrorHandler.success := true; ErrorHandler.error := None; code := None;
         text := formattedResult;
         r_retryAfter := None; r_resetTime := None; r_remaining := None;
         r_validationErrors := None |}.

(** [executeSearchLogs(args, clientId = 'default')]: the [catch] branch
    reads [args.query] for the context before it formats the error. *)
Definition executeSearchLogs (apiToken baseUrl : string) (args : value)
    (clientId : string) : M McpResponse :=
  catch (executeSearchLogs_body apiToken baseUrl args clientId)
    (λ error,
       do lift (get_prop args "query") then
       ret (formatMcpError error)).

End WithBuiltins.

(** *** Vocabulary for the statements about runs *)

(** The [limit] entry of every request sent. *)
Definition sent_limits (tr : list Event) : list value :=
  map (λ e, default VUndef (lookup_field "limit" (params e))) (fetches tr).

(** [args.query] is missing or the empty string. *)
Definition query_missing_or_empty (args : value) : Prop :=
  get_prop args "query" = Normal VUndef ∨ get_prop args "query" = Normal (VStr EmptyString).

(** Built-ins to evaluate concrete runs with: [trim] strips ASCII white
    space; the conversions answer [NaN], which is what they do on the
    strings of those runs that reach them; the rendering is empty. *)
Definition is_space (a : Ascii.ascii) : bool :=
  let n := Ascii.nat_of_ascii a in
  ((9 <=? n) && (n <=? 13))%nat || (n =? 32)%nat.

Fixpoint trim_start (s : string) : string :=
  match s with
  | EmptyString => EmptyString
  | String a s' => if is_space a then trim_start s' else s
  end.

Fixpoint trim_end (s : string) : string :=
  match s with
  | EmptyString => EmptyString
  | String a s' =>
      let r := trim_end s' in
      if is_space a && String.eqb r EmptyString then EmptyString else String a r
  end.

Definition sample_builtins : Builtins SearchResult :=
  {| ToNumber_other := λ _, NaN;
     parseInt_other := λ _, NaN;
     Date_getTime := λ _, NaN;
     String_trim := λ s, trim_end (trim_start s);
     formatSearchResults := λ _ _, Normal EmptyString |}.

End Tool.

(* ===================================================================== *)
(** ** rateLimiter.js: the read-only operations *)
(* ===================================================================== *)

Module RateLimiterStats.
Import RateLimiter.

(** The object [getStatus] returns; [limits] is absent for a caller the
    limiter does not track. *)
Record Status := mkStatus {
  requestsInWindow : nat;
  burstTokens : Z;
  windowStart : Z;
  limits : option (Z * Z)
}.

(** [getStatus(clientId)] *)
Definition getStatus (now : Z) (clientId : string) (rl : RateLimiter.t) : Status :=
  match clients rl !! clientId with
  | None =>
      {| requestsInWindow := 0;
         burstTokens := burst rl;
         windowStart := now - 60000;
         limits := None |}
  | Some client =>
      let windowStart := now - 60000 in
      let requestsInWindow := trim windowStart (requests client) in
      {| requestsInWindow := length requestsInWindow;
         burstTokens := RateLimiter.burstTokens client;
         windowStart := windowStart;
         limits := Some (requestsPerMinute rl, burst rl) |}
  end.

(** The object [getGlobalStats] returns. *)
Record GlobalStats := mkGlobalStats {
  activeClients : nat;
  totalRequestsInWindow : nat;
  totalTrackedClients : nat;
  g_windowStart : Z;
  g_limits : Z * Z
}.

(** One turn of the loop of [getGlobalStats] over the entries. *)
Definition count_entry (windowStart : Z) (acc : nat * nat) (kv : string * Client) : nat * nat :=
  let requestsInWindow := trim windowStart (requests kv.2) in
  if decide (0 < length requestsInWindow)%nat
  then (S acc.1, acc.2 + length requestsInWindow)%nat
  else acc.

(** [getGlobalStats()] *)
Definition getGlobalStats (now : Z) (rl : RateLimiter.t) : GlobalStats :=
  let windowStart := now - 60000 in
  let totals := foldl (count_entry windowStart) (0, 0)%nat (map_to_list (clients rl)) in
  {| activeClients := totals.1;
     totalRequestsInWindow := totals.2;
     totalTrackedClients := size (clients rl);
     g_windowStart := windowStart;
     g_limits := (requestsPerMinute rl, burst rl) |}.

(** [checkLimit] called for one caller at the instants [ts], in order:
    the decisions and the limiter left behind. *)
Fixpoint check_all (clientId : string) (ts : list Z) (rl : RateLimiter.t)
    : list AdmissionDecision * RateLimiter.t :=
  match ts with
  | [] => ([], rl)
  | now :: ts' =>
      let '(d, rl1) := checkLimit now clientId rl in
      let '(ds, rl2) := check_all clientId ts' rl1 in
      (d :: ds, rl2)
  end.

(** Two instants in call order less than ten seconds apart. *)
Definition in_burst (a b : Z) : Prop := a ≤ b < a + 10000.

(** The caller's record during a burst: absent before the first call,
    afterwards the admitted instants and one token less for each. *)
Definition in_burst_state (c : string) (prev : list Z) (rl : RateLimiter.t) : Prop :=
  (prev = [] ∧ clients rl !! c = None)
  ∨ clients rl !! c
    = Some {| requests := prev;
              RateLimiter.burstTokens := burst rl - Z.of_nat (length prev) |}.

End RateLimiterStats.

(* ===================================================================== *)
(** ** rateLimiter.js: the requests a script gets admitted *)
(* ===================================================================== *)

Module RateLimiterLog.
Import RateLimiter.

(** What one operation adds to the admitted requests of [c]: the instant of
    a [checkLimit(c)] that answers [allowed: true]. *)
Definition admitted_by (c : string) (o : op) (rl : RateLimiter.t) : list Z :=
  match o with
  | OpCheck now c' =>
      if decide (c' = c) then
        if allowed (checkLimit now c' rl).1 then [now] else []
      else []
  | _ => []
  end.

(** The instants at which the checks of [c] were admitted along a script
    that starts in [rl], in order. *)
Fixpoint admitted (c : string) (ops : list op) (rl : RateLimiter.t) : list Z :=
  match ops with
  | [] => []
  | o :: ops' => admitted_by c o rl ++ admitted c ops' (step o rl)
  end.

(** The script never calls [resetClient(c)]. *)
Definition never_reset (c : string) (ops : list op) : Prop :=
  Forall (λ o, o ≠ OpReset c) ops.

(** The instants of [ts] in the 60 seconds that follow [x]. *)
Definition window_after (x : Z) (ts : list Z) : list Z :=
  filter (λ ts, x < ts ≤ x + 60000) ts.

(** The record of [c] tracks the admitted instants [h] at time [t]: none
    is later than [t], the record and [h] agree on every window that a
    later check can look at, and no 60 seconds of [h] hold more than
    [requestsPerMinute] instants. *)
Definition tracks (c : string) (t : Z) (rl : RateLimiter.t) (h : list Z) : Prop :=
  Forall (λ ts, ts ≤ t) h
  ∧ (∀ y, t - 60000 ≤ y → trim y (requests (get_or_create c rl)) = trim y h)
  ∧ (∀ x, Z.of_nat (length (window_after x h)) ≤ requestsPerMinute rl).

End RateLimiterLog.

(* ===================================================================== *)
(** ** papertrailClient.js: the other requests *)
(* ===================================================================== *)

Module PapertrailClientOps.
Import JS PapertrailClient.

(** The objects [getSystems] and [getGroups] return, [items] standing for
    [systems] or [groups]. *)
Record ListResult := mkListResult {
  l_success : bool;
  l_error : option string;
  items : value
}.

(** The body shared by [getSystems()] and [getGroups()]. *)
Definition get_list (self : PapertrailClient.t) (endpoint : string) : M ListResult :=
  catch
    (let* result := makeRequest self {| path := endpoint; params := [] |} in
     ret {| l_success := true; l_error := None; items := or result (VArr []) |})
    (λ error,
       ret {| l_success := false; l_error := Some (message error); items := VArr [] |}).

Definition getSystems (self : PapertrailClient.t) : M ListResult :=
  get_list self "/systems.json".

Definition getGroups (self : PapertrailClient.t) : M ListResult :=
  get_list self "/groups.json".

(** The object [testConnection] returns. *)
Record TestResult := mkTestResult {
  t_success : bool;
  t_error : option string;
  t_message : string;
  authMethod : option string;
  endpoint : option string
}.

(** [testConnection()] of the CommonJS file. *)
Definition testConnection_cjs (self : PapertrailClient.t) : M TestResult :=
  catch
    (do makeRequest self {| path := "/systems.json"; params := [] |} then
     ret {| t_success := true; t_error := None;
            t_message := "Successfully connected to Papertrail API";
            authMethod := None; endpoint := None |})
    (λ error,
       ret {| t_success := false; t_error := Some (message error);
              t_message := "Failed to connect to Papertrail API";
              authMethod := None; endpoint := None |}).

(** [makeRequestWithAuth(endpoint, authHeaders)]: one request, no retry.
    The headers are not part of the log. *)
Definition makeRequestWithAuth (endpoint : string) : M value :=
  attempt_once {| path := endpoint; params := [] |}.

(** The names of [authMethods] and the [endpoints] of [testConnection]. *)
Definition authMethods : list string :=
  ["X-Papertrail-Token"; "Bearer Token"; "Basic Auth (token as username)"].

Definition endpoints : list string :=
  ["/systems.json"; "/events/search.json?q=*&limit=1"; "/groups.json"].

(** The inner loop, over the endpoints left to try with one method. *)
Fixpoint try_endpoints (authName : string) (eps : list string) : M (option TestResult) :=
  match eps with
  | [] => ret None
  | ep :: eps' =>
      catch
        (do makeRequestWithAuth ep then
         ret (Some {| t_success := true; t_error := None;
                      t_message := "Successfully connected to Papertrail API using "
                                   ++ authName ++ " on " ++ ep;
                      authMethod := Some authName; endpoint := Some ep |}))
        (λ _, try_endpoints authName eps')
  end.

(** The outer loop, over the methods left to try, and the [return] after
    it. *)
Fixpoint try_methods (auths : list string) : M TestResult :=
  match auths with
  | [] =>
      ret {| t_success := false;
             t_error := Some "All authentication methods and endpoints failed";
             t_message := "Failed to connect to Papertrail API (tried all combinations)";
             authMethod := None; endpoint := None |}
  | a :: auths' =>
      let* found := try_endpoints a endpoints in
      match found with
      | Some r => ret r
      | None => try_methods auths'
      end
  end.

(** [testConnection()] of the ES module. *)
Definition testConnection : M TestResult := try_methods authMethods.

(** [formatTime(date)], on the milliseconds of [date.getTime()]. *)
Definition formatTime (ms : Z) : Z := ms `div` 1000.

(** *** Vocabulary for the statements about runs *)

(** An attempt throws when [fetch] rejects, the status is not 2xx, or the
    body of a 2xx answer is not JSON. *)
Definition attempt_throws (o : FetchOutcome) : Prop :=
  match o with
  | Rejected _ => True
  | Responded status _ json => ok status = false ∨ json = None
  end.

(** The error it throws. *)
Definition attempt_error (o : FetchOutcome) : Error :=
  match o with
  | Rejected msg => new_Error msg
  | Responded status errorText _ =>
      if ok status then invalid_json
      else new_Error ("Papertrail API error (" ++ show_Z status ++ "): " ++ errorText)
  end.

(** An attempt that returns the JSON value [v]. *)
Definition attempt_returns (o : FetchOutcome) (v : value) : Prop :=
  ∃ status text, o = Responded status text (Some v) ∧ ok status = true.

(** [w'] is [w] with [n] more fetches behind it: same script, same limiter. *)
Definition advanced (w : World) (n : nat) (w' : World) : Prop :=
  network w' = network w ∧ fetched w' = (fetched w + n)%nat ∧ limiter w' = limiter w.

End PapertrailClientOps.

(* ===================================================================== *)
(** ** errorHandler.js: the arguments object; config.js *)
(* ===================================================================== *)

Module ErrorHandlerOps.
Import JS PapertrailClient ErrorHandler.

(** [args[k]] for an arguments object with the entries [fields]. *)
Definition field_of (fields : list (string * value)) (k : string) : value :=
  default VUndef (lookup_field k fields).

End ErrorHandlerOps.

Module Config.
Import JS.

(** [getEnv(key, defaultValue = undefined)] over [process.env]. *)
Definition getEnv (env : gmap string string) (key : string) (defaultValue : option string)
    : completion (option string) :=
  let value := env !! key in
  match value, defaultValue with
  | None, None =>
      Throw (new_Error ("Required environment variable " ++ key ++ " is not set"))
  | _, _ =>
      Normal (match value with
              | Some v => if String.eqb v EmptyString then defaultValue else Some v
              | None => defaultValue
              end)
  end.

(** The fields of [config] that [validateConfig] reads, the numbers as
    [parseInt] left them. *)
Record t := mk {
  port : num;
  apiToken : option string;
  requestsPerMinute : num;
  burst : num
}.

(** [n < k] and [n > k] on numbers: false on [NaN]. *)
Definition lt (n : num) (k : Z) : bool :=
  match n with NaN => false | Int z => z <? k end.
Definition gt (n : num) (k : Z) : bool :=
  match n with NaN => false | Int z => k <? z end.

(** [validateConfig()] *)
Definition validateConfig (config : t) : completion unit :=
  match apiToken config with
  | None | Some EmptyString => Throw (new_Error "PAPERTRAIL_API_TOKEN is required")
  | Some _ =>
      if lt (port config) 1 || gt (port config) 65535
      then Throw (new_Error "PORT must be between 1 and 65535")
      else if lt (requestsPerMinute config) 1
      then Throw (new_Error "RATE_LIMIT_REQUESTS_PER_MINUTE must be at least 1")
      else Normal tt
  end.

End Config.

(* ===================================================================== *)
(** ** Properties of the rate limiter *)
(* ===================================================================== *)

#[local] Open Scope list_scope.

Section RateLimiterFacts.
Import RateLimiter.

Implicit Types (rl : RateLimiter.t) (c : string) (cl : Client) (now : Z).

Lemma Math_max_le (bound x : Z) (xs : list Z) :
  x ≤ bound → Forall (λ y, y ≤ bound) xs → Math_max x xs ≤ bound.
Proof.
  intros Hx Hxs. unfold Math_max.
  induction Hxs as [|y ys Hy _ IH]; cbn [foldr]; [done | lia].
Qed.

Lemma trim_spec windowStart (rs : list Z) ts :
  ts ∈ trim windowStart rs ↔ windowStart < ts ∧ ts ∈ rs.
Proof. unfold trim. apply list_elem_of_filter. Qed.

Lemma trim_Forall (P : Z → Prop) windowStart (rs : list Z) :
  Forall P rs → Forall P (trim windowStart rs).
Proof.
  rewrite !Forall_forall. intros H ts Hin.
  apply trim_spec in Hin. apply H, Hin.
Qed.

Lemma trim_window windowStart (rs : list Z) :
  Forall (λ ts, windowStart < ts) (trim windowStart rs).
Proof.
  rewrite Forall_forall. intros ts Hin. by apply trim_spec in Hin as [? _].
Qed.

Lemma set_clients_fields rl m :
  requestsPerMinute (set_clients rl m) = requestsPerMinute rl
  ∧ burst (set_clients rl m) = burst rl
  ∧ clients (set_clients rl m) = m.
Proof. done. Qed.

(** [checkLimit] stores exactly one record, under the caller's key. *)
Lemma checkLimit_shape now c rl :
  ∃ cl', (checkLimit now c rl).2 = set_clients rl (<[c := cl']> (clients rl))
         ∧ (cl' = refill now c rl
            ∨ cl' = {| requests := requests (refill now c rl) ++ [now];
                       burstTokens := burstTokens (refill now c rl) - 1 |}
              ∧ 0 < burstTokens (refill now c rl)).
Proof.
  unfold checkLimit. cbv zeta.
  destruct (decide (burstTokens (refill now c rl) ≤ 0)) as [Hb|Hb];
    [|destruct (decide (requestsPerMinute rl
                        ≤ Z.of_nat (length (requests (refill now c rl))))) as [Hw|Hw]];
    cbn [snd]; eexists; (split; [reflexivity|]); [by left | by left |].
  right. split; [done | lia].
Qed.

Lemma step_config o rl :
  requestsPerMinute (step o rl) = requestsPerMinute rl ∧ burst (step o rl) = burst rl.
Proof.
  destruct o as [now c | now | c]; simpl.
  - destruct (checkLimit_shape now c rl) as (cl' & -> & _). done.
  - done.
  - unfold resetClient. by destruct (clients rl !! c).
Qed.

Lemma run_snoc ops o rl : run (ops ++ [o]) rl = step o (run ops rl).
Proof. unfold run. by rewrite foldl_app. Qed.

Lemma run_config ops rl :
  requestsPerMinute (run ops rl) = requestsPerMinute rl ∧ burst (run ops rl) = burst rl.
Proof.
  induction ops as [|o ops IH] using rev_ind; [done|].
  rewrite run_snoc. destruct (step_config o (run ops rl)) as [-> ->]. exact IH.
Qed.

(** A record that survives [cleanup] or [resetClient] is unchanged. *)
Lemma cleanup_lookup now rl c cl :
  clients (cleanup now rl) !! c = Some cl → clients rl !! c = Some cl.
Proof. unfold cleanup; simpl. rewrite map_lookup_filter_Some. by intros [? _]. Qed.

Lemma resetClient_lookup c' rl c cl :
  clients (resetClient c' rl).2 !! c = Some cl → clients rl !! c = Some cl.
Proof.
  unfold resetClient. destruct (clients rl !! c') eqn:E; simpl; [|done].
  rewrite lookup_delete_Some. by intros [_ ?].
Qed.

(** *** Bounds on the tokens and the window *)

Lemma well_formed_mono t t' rl : t ≤ t' → well_formed t rl → well_formed t' rl.
Proof.
  intros Hle Hwf c cl Hc. destruct (Hwf c cl Hc) as [Htok Hreq]. split; [done|].
  eapply Forall_impl; [exact Hreq|]. simpl. lia.
Qed.

Lemma refill_bounds t now c rl :
  0 ≤ burst rl → t ≤ now → well_formed t rl →
  0 ≤ burstTokens (refill now c rl) ≤ burst rl
  ∧ Forall (λ ts, now - 60000 < ts ≤ now) (requests (refill now c rl)).
Proof.
  intros Hb Hle Hwf. unfold refill, get_or_create.
  assert (∃ cl0, match clients rl !! c with
                 | Some c0 => c0
                 | None => {| requests := []; burstTokens := burst rl |}
                 end = cl0
                 ∧ 0 ≤ burstTokens cl0 ≤ burst rl
                 ∧ Forall (λ ts, ts ≤ now) (requests cl0)) as (cl0 & -> & Htok & Hreq).
  { destruct (clients rl !! c) as [cl0|] eqn:E.
    - destruct (Hwf c cl0 E) as [? Hr]. eexists; split; [done|]. split; [done|].
      eapply Forall_impl; [exact Hr|]. simpl. lia.
    - eexists; split; [done|]. simpl. split; [lia | constructor]. }
  simpl. split.
  - assert (0 ≤ tokensSinceLastRequest now rl (trim (now - 60000) (requests cl0))) as Hs.
    { unfold tokensSinceLastRequest.
      pose proof (trim_Forall _ (now - 60000) _ Hreq) as Ht.
      destruct (trim (now - 60000) (requests cl0)) as [|r rs]; [done|].
      apply Forall_cons in Ht as [Hr Hrs].
      apply Z.div_pos; [|done].
      pose proof (Math_max_le now r rs Hr Hrs). lia. }
    lia.
  - pose proof (trim_Forall _ (now - 60000) _ Hreq) as H1.
    pose proof (trim_window (now - 60000) (requests cl0)) as H2.
    rewrite Forall_forall in H1. rewrite Forall_forall in H2.
    rewrite Forall_forall. intros ts Hin. split; [apply H2 | apply H1]; done.
Qed.

Lemma checkLimit_well_formed t now c rl :
  0 ≤ burst rl → t ≤ now → well_formed t rl →
  well_formed now (checkLimit now c rl).2
  ∧ ∃ cl, clients (checkLimit now c rl).2 !! c = Some cl
          ∧ Forall (λ ts, now - 60000 < ts ≤ now) (requests cl).
Proof.
  intros Hb Hle Hwf.
  destruct (refill_bounds t now c rl Hb Hle Hwf) as [Htok Hreq].
  destruct (checkLimit_shape now c rl) as (cl' & -> & Hcl').
  assert (0 ≤ burstTokens cl' ≤ burst rl
          ∧ Forall (λ ts, now - 60000 < ts ≤ now) (requests cl')) as [Htok' Hreq'].
  { destruct Hcl' as [-> | [-> Hpos]]; [done|]. cbn [burstTokens requests]. split; [lia|].
    apply Forall_app. split; [done|]. constructor; [lia | constructor]. }
  split.
  - intros c0 cl0. simpl. rewrite lookup_insert. case_decide.
    + intros [= <-]. split; [done|]. eapply Forall_impl; [exact Hreq'|]. simpl. lia.
    + intros Hc0. by apply (well_formed_mono t now rl Hle Hwf c0 cl0).
  - exists cl'. simpl. by rewrite lookup_insert_eq.
Qed.

Lemma step_well_formed t o rl :
  0 ≤ burst rl → monotone_from t [o] → well_formed t rl →
  ∃ t', t ≤ t' ∧ well_formed t' (step o rl)
        ∧ ∀ ops, monotone_from t (o :: ops) → monotone_from t' ops.
Proof.
  intros Hb Hmono Hwf. destruct o as [now c | now | c]; simpl in *.
  - exists now. destruct Hmono as [Hle _]. split; [done|]. split.
    + by apply (checkLimit_well_formed t now c rl).
    + by intros ops [_ ?].
  - exists now. destruct Hmono as [Hle _]. split; [done|]. split.
    + intros c cl Hc. apply cleanup_lookup in Hc.
      by apply (well_formed_mono t now rl Hle Hwf c cl).
    + by intros ops [_ ?].
  - exists t. split; [lia|]. split; [|done].
    intros c0 cl Hc. apply resetClient_lookup in Hc.
    destruct (step_config (OpReset c) rl) as [_ Hbeq]. simpl in Hbeq. rewrite Hbeq.
    exact (Hwf c0 cl Hc).
Qed.

Lemma monotone_from_cons t o ops :
  monotone_from t (o :: ops) → monotone_from t [o].
Proof. destruct o; simpl; tauto. Qed.

Lemma run_well_formed ops : ∀ t rl rest,
  0 ≤ burst rl → monotone_from t (ops ++ rest) → well_formed t rl →
  ∃ t', well_formed t' (run ops rl) ∧ monotone_from t' rest.
Proof.
  induction ops as [|o ops IH]; intros t rl rest Hb Hmono Hwf.
  - exists t. done.
  - simpl in Hmono.
    destruct (step_well_formed t o rl Hb (monotone_from_cons _ _ _ Hmono) Hwf)
      as (t' & _ & Hwf' & Hnext).
    change (run (o :: ops) rl) with (run ops (step o rl)).
    apply (IH t' (step o rl) rest); [|by apply Hnext|done].
    by destruct (step_config o rl) as [_ ->].
Qed.

(** *** Bounds that hold whatever the clock does *)

Lemma step_tokens_le o rl :
  (∀ c cl, clients rl !! c = Some cl → burstTokens cl ≤ burst rl) →
  ∀ c cl, clients (step o rl) !! c = Some cl → burstTokens cl ≤ burst rl.
Proof.
  intros Hinv c cl. destruct o as [now c' | now | c']; simpl.
  - destruct (checkLimit_shape now c' rl) as (cl' & -> & Hcl'). simpl.
    rewrite lookup_insert. case_decide; [|by apply Hinv].
    intros [= <-].
    assert (burstTokens (refill now c' rl) ≤ burst rl) as Hle.
    { unfold refill. cbn [burstTokens]. lia. }
    destruct Hcl' as [-> | [-> _]]; cbn [burstTokens]; lia.
  - intros Hc. apply cleanup_lookup in Hc. by apply (Hinv c).
  - intros Hc. apply resetClient_lookup in Hc. by apply (Hinv c).
Qed.

Lemma run_tokens_le rl0 (ops : list op) c cl :
  clients rl0 = ∅ →
  clients (run ops rl0) !! c = Some cl → burstTokens cl ≤ burst rl0.
Proof.
  intros Hempty. revert c cl.
  induction ops as [|o ops IH] using rev_ind; intros c cl.
  - simpl. rewrite Hempty, lookup_empty. discriminate.
  - rewrite run_snoc. destruct (run_config ops rl0) as [_ Hb].
    rewrite <- Hb. apply step_tokens_le. rewrite Hb. exact IH.
Qed.

Lemma checkLimit_window_start now c rl :
  ∃ cl, clients (checkLimit now c rl).2 !! c = Some cl
        ∧ Forall (λ ts, now - 60000 < ts) (requests cl).
Proof.
  destruct (checkLimit_shape now c rl) as (cl' & -> & Hcl').
  exists cl'. simpl. rewrite lookup_insert_eq. split; [done|].
  pose proof (trim_window (now - 60000) (requests (get_or_create c rl))) as Hwin.
  change (trim (now - 60000) (requests (get_or_create c rl)))
    with (requests (refill now c rl)) in Hwin.
  destruct Hcl' as [-> | [-> _]]; [done|]. cbn [requests].
  apply Forall_app. split; [done|]. constructor; [lia | constructor].
Qed.

End RateLimiterFacts.

Section SpacedRequests.
Import RateLimiter.

Implicit Types (rl : RateLimiter.t) (c : string) (cl : Client) (now : Z).

Lemma check_times_app c (ops1 ops2 : list op) :
  check_times c (ops1 ++ ops2) = check_times c ops1 ++ check_times c ops2.
Proof.
  induction ops1 as [|[t c'| |] ops1 IH]; simpl; [done| |done|done].
  case_decide; simpl; by rewrite IH.
Qed.

Lemma spaced_snoc gap (ts : list Z) (x : Z) :
  spaced gap (ts ++ [x]) ↔ spaced gap ts ∧ ∀ y, last ts = Some y → y + gap ≤ x.
Proof.
  induction ts as [|a [|b ts] IH].
  - simpl. split; [|done]. intros _. split; [done|]. intros y Hy. discriminate.
  - simpl. split.
    + intros [Hle _]. split; [done|]. by intros y [= <-].
    + intros [_ H]. split; [|done]. by apply H.
  - change (spaced gap ((a :: b :: ts) ++ [x]))
      with (a + gap ≤ b ∧ spaced gap ((b :: ts) ++ [x])).
    change (spaced gap (a :: b :: ts)) with (a + gap ≤ b ∧ spaced gap (b :: ts)).
    change (last (a :: b :: ts)) with (last (b :: ts)).
    rewrite IH. tauto.
Qed.

(** After a refill at least ten seconds past every recorded timestamp the
    tokens are back at capacity. *)
Lemma refill_full now c rl :
  1 ≤ burst rl →
  (∀ cl, clients rl !! c = Some cl →
     burst rl - 1 ≤ burstTokens cl ≤ burst rl
     ∧ Forall (λ ts, ts + 10000 ≤ now) (requests cl)) →
  burstTokens (refill now c rl) = burst rl
  ∧ Forall (λ ts, ts ≤ now) (requests (refill now c rl)).
Proof.
  intros Hb Hcl. unfold refill, get_or_create.
  destruct (clients rl !! c) as [cl|] eqn:E; cbn [burstTokens requests].
  - destruct (Hcl cl eq_refl) as [Htok Hreq].
    pose proof (trim_Forall _ (now - 60000) _ Hreq) as Ht.
    split; [|eapply Forall_impl; [exact Ht|]; simpl; lia].
    unfold tokensSinceLastRequest.
    destruct (trim (now - 60000) (requests cl)) as [|r rs]; [lia|].
    apply Forall_cons in Ht as [Hr Hrs].
    assert (Math_max r rs ≤ now - 10000) as Hmax.
    { apply Math_max_le; [lia|]. eapply Forall_impl; [exact Hrs|]. simpl. lia. }
    assert (1 ≤ (now - Math_max r rs) `div` tokenRestoreInterval).
    { unfold tokenRestoreInterval. apply Z.div_le_lower_bound; lia. }
    lia.
  - split; [|constructor]. unfold trim. simpl. lia.
Qed.

Lemma rested_refill c ops rl now :
  1 ≤ burst rl → rested c ops rl → spaced 10000 (check_times c ops ++ [now]) →
  burstTokens (refill now c rl) = burst rl
  ∧ Forall (λ ts, ts ≤ now) (requests (refill now c rl)).
Proof.
  intros Hb Hr Hsp. apply refill_full; [done|].
  intros cl Hcl. destruct (Hr cl Hcl) as (Htok & lst & Hlast & Hreq).
  split; [done|]. apply spaced_snoc in Hsp as [_ Hgap].
  specialize (Hgap lst Hlast).
  eapply Forall_impl; [exact Hreq|]. simpl. lia.
Qed.

Lemma run_rested c rl0 (ops : list op) :
  1 ≤ burst rl0 → clients rl0 = ∅ →
  spaced 10000 (check_times c ops) →
  rested c ops (run ops rl0).
Proof.
  intros Hb Hempty. induction ops as [|o ops IH] using rev_ind; intros Hsp.
  - intros cl. simpl. rewrite Hempty, lookup_empty. discriminate.
  - rewrite check_times_app in Hsp. rewrite run_snoc.
    destruct (run_config ops rl0) as [_ Hbr].
    destruct o as [now c' | now | c'].
    + (* checkLimit *)
      simpl in Hsp. simpl. destruct (decide (c' = c)) as [->|Hne].
      * pose proof Hsp as Hsp'. apply spaced_snoc in Hsp' as [Hsp' _].
        specialize (IH Hsp').
        destruct (rested_refill c ops (run ops rl0) now) as [Hfull Hreq];
          [lia | done | done |].
        destruct (checkLimit_shape now c (run ops rl0)) as (cl' & Heq & Hcl').
        intros cl. rewrite Heq. simpl. rewrite lookup_insert_eq. intros [= <-].
        rewrite check_times_app. simpl. rewrite decide_True by done.
        rewrite last_snoc.
        destruct Hcl' as [-> | [-> _]]; cbn [burstTokens requests].
        -- split; [lia|]. by exists now.
        -- split; [lia|]. exists now. split; [done|].
           apply Forall_app. split; [done|]. constructor; [lia|constructor].
      * rewrite app_nil_r in Hsp. specialize (IH Hsp).
        destruct (checkLimit_shape now c' (run ops rl0)) as (cl' & Heq & _).
        intros cl. rewrite Heq. simpl. rewrite lookup_insert_ne by done.
        rewrite check_times_app. simpl. rewrite decide_False by done.
        rewrite app_nil_r. apply IH.
    + (* cleanup *)
      simpl in Hsp. rewrite app_nil_r in Hsp. specialize (IH Hsp).
      intros cl Hcl. simpl in Hcl. apply cleanup_lookup in Hcl.
      rewrite check_times_app. simpl. rewrite app_nil_r. by apply IH.
    + (* resetClient *)
      simpl in Hsp. rewrite app_nil_r in Hsp. specialize (IH Hsp).
      intros cl Hcl. simpl in Hcl. apply resetClient_lookup in Hcl.
      destruct (step_config (OpReset c') (run ops rl0)) as [_ Hbeq].
      simpl in Hbeq. simpl. rewrite Hbeq.
      rewrite check_times_app. simpl. rewrite app_nil_r. by apply IH.
Qed.

End SpacedRequests.

Section RateLimiterClaims.
Import RateLimiter.

Implicit Types (rl : RateLimiter.t) (c : string) (cl : Client) (now : Z).

(** C3, as amended.  A denied [checkLimit] carries one of two reasons:
    ['burst_limit_exceeded'] when no burst token is left after the refill,
    and ['rate_limit_exceeded'] when a token is left and the trimmed window
    already holds [requestsPerMinute] timestamps. *)
Theorem checkLimit_denied_reason now c rl :
  allowed (checkLimit now c rl).1 = false →
  let client := refill now c rl in
  (burstTokens client ≤ 0
   ∧ reason (checkLimit now c rl).1 = Some "burst_limit_exceeded")
  ∨ (0 < burstTokens client
     ∧ requestsPerMinute rl ≤ Z.of_nat (length (requests client))
     ∧ reason (checkLimit now c rl).1 = Some "rate_limit_exceeded").
Proof.
  unfold checkLimit. cbv zeta.
  destruct (decide (burstTokens (refill now c rl) ≤ 0)) as [Hb|Hb];
    [|destruct (decide (requestsPerMinute rl
                        ≤ Z.of_nat (length (requests (refill now c rl))))) as [Hw|Hw]];
    cbn [fst allowed reason]; intros Hden.
  - by left.
  - right. split; [lia|done].
  - discriminate.
Qed.

Lemma checkLimit_denied_reason_witness :
  let rl := (checkLimit 0 "default" (new (Some 1) (Some 5) 60 10)).2 in
  let client := refill 1000 "default" rl in
  (burstTokens client ≤ 0
   ∧ reason (checkLimit 1000 "default" rl).1 = Some "burst_limit_exceeded")
  ∨ (0 < burstTokens client
     ∧ requestsPerMinute rl ≤ Z.of_nat (length (requests client))
     ∧ reason (checkLimit 1000 "default" rl).1 = Some "rate_limit_exceeded").
Proof.
  apply (checkLimit_denied_reason 1000 "default"
           (checkLimit 0 "default" (new (Some 1) (Some 5) 60 10)).2).
  vm_compute. reflexivity.
Defined.

(** C3, as stated, fails: with one burst token the second of two checks a
    second apart is denied for the burst, and with a one-request window it
    is denied for the window; the reasons are ['burst_limit_exceeded'] and
    ['rate_limit_exceeded'], not [burst_exhausted] and
    [window_exhausted]. *)
Lemma denied_reason_names :
  let burst_case := (checkLimit 0 "default" (new (Some 60) (Some 1) 60 10)).2 in
  let window_case := (checkLimit 0 "default" (new (Some 1) (Some 5) 60 10)).2 in
  (allowed (checkLimit 1000 "default" burst_case).1 = false
   ∧ burstTokens (refill 1000 "default" burst_case) = 0
   ∧ reason (checkLimit 1000 "default" burst_case).1 ≠ Some "burst_exhausted")
  ∧ (allowed (checkLimit 1000 "default" window_case).1 = false
     ∧ length (requests (refill 1000 "default" window_case)) = 1%nat
     ∧ requestsPerMinute window_case = 1
     ∧ reason (checkLimit 1000 "default" window_case).1 ≠ Some "window_exhausted").
Proof. vm_compute. repeat split; discriminate. Qed.

(** C8, as amended.  From an empty limiter with a non-negative capacity,
    after every [checkLimit] each tracked caller has at most [burst]
    tokens and the caller just checked has no timestamp older than 60
    seconds, whatever the clock does.  Along a script whose clock does not
    run backwards the tokens are also never negative and no timestamp of
    the caller just checked is later than [now]: [burstTokens] is in
    [[0, burst]] and the timestamps are those of the last 60 seconds. *)
Theorem checkLimit_state_bounds rl0 (ops : list op) (t0 now : Z) c :
  clients rl0 = ∅ → 0 ≤ burst rl0 →
  let rl' := run (ops ++ [OpCheck now c]) rl0 in
  ((∀ c' cl', clients rl' !! c' = Some cl' → burstTokens cl' ≤ burst rl0)
   ∧ ∃ cl, clients rl' !! c = Some cl
           ∧ Forall (λ ts, now - 60000 < ts) (requests cl))
  ∧ (monotone_from t0 (ops ++ [OpCheck now c]) →
     (∀ c' cl', clients rl' !! c' = Some cl' → 0 ≤ burstTokens cl' ≤ burst rl0)
     ∧ ∃ cl, clients rl' !! c = Some cl
             ∧ Forall (λ ts, now - 60000 < ts ≤ now) (requests cl)).
Proof.
  intros Hempty Hb rl'. subst rl'. split.
  - split.
    + intros c' cl'. by apply run_tokens_le.
    + rewrite run_snoc. simpl. apply checkLimit_window_start.
  - intros Hmono. rewrite run_snoc. simpl.
    destruct (run_well_formed ops t0 rl0 [OpCheck now c] Hb Hmono) as (t' & Hwf & Hlast).
    { intros c' cl'. rewrite Hempty, lookup_empty. discriminate. }
    destruct Hlast as [Hle _].
    destruct (run_config ops rl0) as [_ Hbr].
    destruct (checkLimit_well_formed t' now c (run ops rl0)) as [Hwf' Hwin];
      [lia | done | done |].
    split; [|done].
    intros c' cl' Hc'. destruct (Hwf' c' cl' Hc') as [Htok _].
    destruct (step_config (OpCheck now c) (run ops rl0)) as [_ Hbs]. simpl in Hbs.
    rewrite Hbs, Hbr in Htok. done.
Qed.

Lemma checkLimit_state_bounds_witness :
  let rl' := run ([OpCheck 0 "a"; OpCheck 5 "b"; OpCheck 7 "a"; OpCleanup 100]
                  ++ [OpCheck 200 "a"]) (new None None 60 10) in
  ((∀ c' cl', clients rl' !! c' = Some cl' → burstTokens cl' ≤ 10)
   ∧ ∃ cl, clients rl' !! "a" = Some cl
           ∧ Forall (λ ts, 200 - 60000 < ts) (requests cl))
  ∧ (∀ c' cl', clients rl' !! c' = Some cl' → 0 ≤ burstTokens cl' ≤ 10)
  ∧ ∃ cl, clients rl' !! "a" = Some cl
          ∧ Forall (λ ts, 200 - 60000 < ts ≤ 200) (requests cl).
Proof.
  intros rl'.
  destruct (checkLimit_state_bounds (new None None 60 10)
              [OpCheck 0 "a"; OpCheck 5 "b"; OpCheck 7 "a"; OpCleanup 100] 0 200 "a")
    as [Hany Hsteady].
  - reflexivity.
  - simpl. lia.
  - split; [exact Hany|]. apply Hsteady. simpl. lia.
Defined.

(** C8, as stated, fails when the clock steps back between two checks.
    With one burst token, a check at 1000 ms is allowed and leaves no
    token; a check of the same caller at 999 ms restores
    [floor((999 - 1000) / 10000) = -1] tokens, so the record it stores has
    [burstTokens = -1] and the timestamp 1000, which is later than the
    instant of the check. *)
Lemma state_bounds_need_steady_clock :
  let rl' := run ([OpCheck 1000 "default"] ++ [OpCheck 999 "default"])
               (new None (Some 1) 60 10) in
  clients rl' !! "default" = Some {| requests := [1000]; burstTokens := -1 |}
  ∧ ¬ (∀ c' cl', clients rl' !! c' = Some cl' → 0 ≤ burstTokens cl' ≤ 1)
  ∧ ¬ (∃ cl, clients rl' !! "default" = Some cl
             ∧ Forall (λ ts, 999 - 60000 < ts ≤ 999) (requests cl)).
Proof.
  intros rl'.
  assert (clients rl' !! "default" = Some {| requests := [1000]; burstTokens := -1 |})
    as Hrec by (vm_compute; reflexivity).
  split; [exact Hrec|]. split.
  - intros H. specialize (H _ _ Hrec). simpl in H. lia.
  - intros (cl & Hcl & Hwin). rewrite Hrec in Hcl. injection Hcl as <-.
    simpl in Hwin. apply Forall_cons in Hwin as [Hts _]. lia.
Qed.

(** C7.  When the checks of a caller are at least 10 seconds apart, at
    every one of them the refill brings [burstTokens] back to [burst], the
    check is never denied for the burst, and it is allowed unless the
    window already holds [requestsPerMinute] timestamps. *)
Theorem spaced_checks_keep_capacity rl0 (ops : list op) now c :
  clients rl0 = ∅ → 1 ≤ burst rl0 →
  spaced 10000 (check_times c (ops ++ [OpCheck now c])) →
  let rl := run ops rl0 in
  burstTokens (refill now c rl) = burst rl0
  ∧ reason (checkLimit now c rl).1 ≠ Some "burst_limit_exceeded"
  ∧ (Z.of_nat (length (requests (refill now c rl))) < requestsPerMinute rl0 →
     allowed (checkLimit now c rl).1 = true).
Proof.
  intros Hempty Hb Hsp rl. subst rl.
  rewrite check_times_app in Hsp. simpl in Hsp. rewrite decide_True in Hsp by done.
  destruct (run_config ops rl0) as [Hrpm Hbr].
  assert (burstTokens (refill now c (run ops rl0)) = burst rl0) as Hfull.
  { rewrite <- Hbr.
    apply (rested_refill c ops (run ops rl0) now); [lia| |done].
    apply run_rested; [done|done|]. by apply spaced_snoc in Hsp as [? _]. }
  split; [done|].
  unfold checkLimit. cbv zeta. rewrite Hfull, Hrpm.
  rewrite decide_False by lia.
  case_decide; cbn [fst allowed reason]; (split; [discriminate|]); [lia|done].
Qed.

Lemma spaced_checks_keep_capacity_witness :
  let rl := run [OpCheck 0 "a"; OpCheck 3 "b"; OpCheck 10000 "a"; OpCheck 75000 "a"]
              (new None None 60 10) in
  burstTokens (refill 85000 "a" rl) = 10
  ∧ reason (checkLimit 85000 "a" rl).1 ≠ Some "burst_limit_exceeded"
  ∧ allowed (checkLimit 85000 "a" rl).1 = true.
Proof.
  intros rl.
  destruct (spaced_checks_keep_capacity (new None None 60 10)
              [OpCheck 0 "a"; OpCheck 3 "b"; OpCheck 10000 "a"; OpCheck 75000 "a"]
              85000 "a") as (Hfull & Hreason & Hallowed).
  - reflexivity.
  - simpl. lia.
  - simpl. lia.
  - split; [exact Hfull|]. split; [exact Hreason|].
    apply Hallowed. vm_compute. reflexivity.
Defined.

End RateLimiterClaims.

Section Sweep.
Import RateLimiter.

Implicit Types (rl : RateLimiter.t) (c : string) (cl : Client) (now : Z).

(** [checkLimit] for [c] reads the limits and the record of [c] only. *)
Lemma refill_ext now c rl1 rl2 :
  burst rl1 = burst rl2 → clients rl1 !! c = clients rl2 !! c →
  refill now c rl1 = refill now c rl2.
Proof.
  intros Hb Hc. unfold refill, get_or_create, tokensSinceLastRequest.
  by rewrite Hb, Hc.
Qed.

Lemma checkLimit_ext now c rl1 rl2 :
  requestsPerMinute rl1 = requestsPerMinute rl2 →
  burst rl1 = burst rl2 → clients rl1 !! c = clients rl2 !! c →
  (checkLimit now c rl1).1 = (checkLimit now c rl2).1
  ∧ clients (checkLimit now c rl1).2 !! c = clients (checkLimit now c rl2).2 !! c.
Proof.
  intros Hr Hb Hc. unfold checkLimit. cbv zeta.
  rewrite (refill_ext now c rl1 rl2 Hb Hc), Hr.
  repeat case_decide; cbn [fst snd clients set_clients];
    by rewrite !lookup_insert_eq.
Qed.

Lemma cleanup_removes sweep rl c cl :
  clients rl !! c = Some cl →
  Forall (λ ts, ts < sweep - 300000) (requests cl) →
  clients (cleanup sweep rl) !! c = None.
Proof.
  intros Hc Hold. unfold cleanup. cbn [clients set_clients].
  apply map_lookup_filter_None. right. intros cl' Hc'.
  rewrite Hc in Hc'. injection Hc' as <-.
  unfold hasRecentRequests. simpl. rewrite Exists_exists.
  intros (ts & Hin & Hrecent).
  rewrite Forall_forall in Hold. specialize (Hold ts Hin). lia.
Qed.

(** C9.  A caller whose recorded timestamps all lie before
    [now - 300000] at the sweep is deleted by [cleanup]; the next
    [checkLimit] for that caller starts from an empty window and [burst]
    tokens, and decides and records exactly what it does on a limiter
    that never saw any caller. *)
Theorem sweep_then_first_check sweep now rl c cl :
  clients rl !! c = Some cl →
  Forall (λ ts, ts < sweep - 300000) (requests cl) →
  0 ≤ burst rl →
  let swept := cleanup sweep rl in
  let fresh := set_clients rl ∅ in
  clients swept !! c = None
  ∧ refill now c swept = {| requests := []; burstTokens := burst rl |}
  ∧ (checkLimit now c swept).1 = (checkLimit now c fresh).1
  ∧ clients (checkLimit now c swept).2 !! c = clients (checkLimit now c fresh).2 !! c.
Proof.
  intros Hc Hold Hb swept fresh.
  assert (clients swept !! c = None) as Hgone by by eapply cleanup_removes.
  split; [done|]. split.
  - unfold refill, get_or_create. rewrite Hgone.
    unfold trim. simpl. f_equal. lia.
  - apply checkLimit_ext; [done|done|].
    rewrite Hgone. subst fresh. simpl. by rewrite lookup_empty.
Qed.

Lemma sweep_then_first_check_witness :
  let rl := run [OpCheck 1000 "a"; OpCheck 2000 "a"; OpCheck 250000 "b"]
              (new None None 60 10) in
  let swept := cleanup 310000 rl in
  let fresh := set_clients rl ∅ in
  clients swept !! "a" = None
  ∧ refill 320000 "a" swept = {| requests := []; burstTokens := 10 |}
  ∧ (checkLimit 320000 "a" swept).1 = (checkLimit 320000 "a" fresh).1
  ∧ clients (checkLimit 320000 "a" swept).2 !! "a"
    = clients (checkLimit 320000 "a" fresh).2 !! "a".
Proof.
  apply (sweep_then_first_check 310000 320000
           (run [OpCheck 1000 "a"; OpCheck 2000 "a"; OpCheck 250000 "b"]
              (new None None 60 10))
           "a" {| requests := [1000; 2000]; burstTokens := 8 |}).
  - vm_compute. reflexivity.
  - repeat constructor.
  - vm_compute. discriminate.
Defined.

End Sweep.

(* ===================================================================== *)
(** ** Properties of the API client *)
(* ===================================================================== *)

Section ClientFacts.
Import JS PapertrailClient.

Implicit Types (w : World) (e : Endpoint) (self : PapertrailClient.t).

(** Inversion of a [bind] that ends normally. *)
Lemma bind_Normal {A B} (m : M A) (k : A → M B) w b w' :
  bind m k w = (Normal b, w') →
  ∃ a w1, m w = (Normal a, w1) ∧ k a w1 = (Normal b, w').
Proof.
  unfold bind. destruct (m w) as [[a|err] w1]; [|discriminate]. eauto.
Qed.

Lemma bind_eq {A B} (m : M A) (k : A → M B) w a w1 :
  m w = (Normal a, w1) → bind m k w = k a w1.
Proof. unfold bind. by intros ->. Qed.

Lemma bind_Throw {A B} (m : M A) (k : A → M B) w err w1 :
  m w = (Throw err, w1) → bind m k w = (Throw err, w1).
Proof. unfold bind. by intros ->. Qed.

Lemma upcoming_0 w : upcoming w 0 = (network w (fetched w)).2.
Proof. unfold upcoming. by rewrite Nat.add_0_r. Qed.

Lemma upcoming_fetched_once e w k : upcoming (fetched_once e w) k = upcoming w (S k).
Proof. unfold upcoming, fetched_once. simpl. f_equal. f_equal. lia. Qed.

Lemma attempt_once_fails e w :
  attempt_fails (upcoming w 0) →
  attempt_once e w = (Throw (failure_of (upcoming w 0)), fetched_once e w).
Proof.
  rewrite upcoming_0. unfold attempt_once, bind, fetch, fetched_once.
  destruct (network w (fetched w)) as [latency [msg|status text json]]; simpl; [done|].
  by intros ->.
Qed.

Lemma attempt_once_succeeds e w latency status text v :
  network w (fetched w) = (latency, Responded status text (Some v)) →
  ok status = true →
  attempt_once e w = (Normal v, fetched_once e w).
Proof.
  intros Hnet Hok. unfold attempt_once, bind, fetch, fetched_once.
  rewrite Hnet. simpl. by rewrite Hok.
Qed.

(** A loop all of whose attempts fail: it throws the aggregated failure
    of the last error, after the requests and back-offs of
    [retry_events]. *)
Lemma loop_all_fail self e (n : nat) : ∀ attempt lastError w,
  (∀ k, (k < n)%nat → attempt_fails (upcoming w k)) →
  ∃ w', makeRequest_loop self e n attempt lastError w
        = (Throw (exhausted self (final_error w n lastError)), w')
        ∧ network w' = network w
        ∧ fetched w' = (fetched w + n)%nat
        ∧ limiter w' = limiter w
        ∧ trace w' = trace w ++ retry_events (maxRetries self) e n attempt.
Proof.
  induction n as [|n IH]; intros attempt lastError w Hfail.
  - exists w. simpl. rewrite app_nil_r, Nat.add_0_r. done.
  - cbn [makeRequest_loop]. unfold catch.
    rewrite (attempt_once_fails e w) by (apply Hfail; lia).
    set (err0 := failure_of (upcoming w 0)).
    set (w1 := fetched_once e w).
    set (pause := if decide (attempt < maxRetries self)
                  then sleep (2 ^ (attempt - 1) * 1000) else ret tt).
    assert (∃ w2, pause w1 = (Normal tt, w2)
                  ∧ network w2 = network w1 ∧ fetched w2 = fetched w1
                  ∧ limiter w2 = limiter w1
                  ∧ trace w2 = trace w1 ++ (if decide (attempt < maxRetries self)
                                            then [EvSleep (2 ^ (attempt - 1) * 1000)]
                                            else []))
      as (w2 & Hpause & Hnet2 & Hf2 & Hl2 & Htr2).
    { subst pause. case_decide.
      - eexists. split; [reflexivity|]. done.
      - exists w1. split; [reflexivity|]. by rewrite app_nil_r. }
    rewrite (bind_eq _ _ _ _ _ Hpause).
    assert (∀ k, upcoming w2 k = upcoming w (S k)) as Hup.
    { intros k. rewrite <- (upcoming_fetched_once e w k). fold w1.
      unfold upcoming. by rewrite Hnet2, Hf2. }
    destruct (IH (attempt + 1) (Some err0) w2) as (w' & Hrun & Hnet & Hf & Hl & Htr).
    { intros k Hk. rewrite Hup. apply Hfail. lia. }
    exists w'. rewrite Hrun. split; [|split; [|split; [|split]]].
    + f_equal. f_equal. destruct n as [|m]; simpl; [done|]. by rewrite Hup.
    + by rewrite Hnet, Hnet2.
    + rewrite Hf, Hf2. subst w1. simpl. lia.
    + by rewrite Hl, Hl2.
    + rewrite Htr, Htr2. subst w1. cbn [trace fetched_once retry_events].
      by rewrite <- !app_assoc.
Qed.

(** The requests and the delays in the log of [n] failed attempts. *)
Lemma fetches_app tr1 tr2 : fetches (tr1 ++ tr2) = fetches tr1 ++ fetches tr2.
Proof. unfold fetches. apply omap_app. Qed.

Lemma sleeps_app tr1 tr2 : sleeps (tr1 ++ tr2) = sleeps tr1 ++ sleeps tr2.
Proof. unfold sleeps. apply omap_app. Qed.

Lemma retry_events_fetches maxR e (n : nat) : ∀ attempt,
  fetches (retry_events maxR e n attempt) = replicate n e.
Proof.
  induction n as [|n IH]; intros attempt; [done|].
  cbn [retry_events]. rewrite fetches_app, IH.
  case_decide; reflexivity.
Qed.

Lemma retry_events_sleeps maxR e (n : nat) : ∀ attempt,
  attempt + Z.of_nat n = maxR + 1 →
  sleeps (retry_events maxR e n attempt)
  = (λ k, 2 ^ (k - 1) * 1000) <$> seqZ attempt (Z.of_nat n - 1).
Proof.
  induction n as [|n IH]; intros attempt Hsum.
  - cbn [retry_events]. by rewrite seqZ_nil by lia.
  - cbn [retry_events]. rewrite sleeps_app, IH by lia.
    case_decide as Hlt.
    + rewrite (seqZ_cons attempt) by lia.
      replace (Z.succ attempt) with (attempt + 1) by lia.
      replace (Z.pred (Z.of_nat (S n) - 1)) with (Z.of_nat n - 1) by lia.
      reflexivity.
    + assert (n = 0%nat) as -> by lia.
      by rewrite !seqZ_nil by lia.
Qed.

End ClientFacts.

Section SearchFacts.
Import JS PapertrailClient.

Implicit Types (w : World) (e : Endpoint) (self : PapertrailClient.t).

Lemma quiet_ret {A} (a : A) : quiet (ret a).
Proof. intros w. by exists a. Qed.

Lemma quiet_bind {A B} (m : M A) (k : A → M B) :
  quiet m → (∀ a, quiet (k a)) → quiet (bind m k).
Proof.
  intros Hm Hk w. destruct (Hm w) as [a Ha]. destruct (Hk a w) as [b Hb].
  exists b. by rewrite (bind_eq _ _ _ _ _ Ha).
Qed.

Lemma quiet_Date_now : quiet Date_now.
Proof. intros w. by eexists. Qed.

Lemma quiet_or_else v (m : M value) : quiet m → quiet (or_else v m).
Proof. intros Hm. unfold or_else. destruct (truthy v); [apply quiet_ret | done]. Qed.

Lemma quiet_get_prop v k : v ≠ VUndef → v ≠ VNull → quiet (lift (get_prop v k)).
Proof. intros H1 H2 w. unfold lift. destruct v; try done; by eexists. Qed.

Lemma quiet_opt_prop v k : quiet (lift (opt_prop v k)).
Proof. intros w. unfold lift. destruct v; by eexists. Qed.

Lemma quiet_defaults : quiet getDefaultMinTime ∧ quiet getDefaultMaxTime.
Proof.
  split; (apply quiet_bind; [apply quiet_Date_now | intros; apply quiet_ret]).
Qed.

Lemma default_options_object options :
  options ≠ VNull → default_options options ≠ VUndef ∧ default_options options ≠ VNull.
Proof. by destruct options. Qed.

Ltac quiet_steps :=
  repeat first
    [ apply quiet_ret
    | apply quiet_Date_now
    | apply quiet_opt_prop
    | apply quiet_get_prop; [assumption | assumption]
    | apply quiet_or_else
    | apply quiet_defaults
    | apply quiet_bind; [|intros ?] ].

Lemma quiet_search_params query options :
  options ≠ VUndef → options ≠ VNull → quiet (search_params query options).
Proof. intros H1 H2. unfold search_params. quiet_steps. Qed.

Lemma quiet_result_tail options :
  options ≠ VUndef → options ≠ VNull → quiet (result_tail options).
Proof. intros H1 H2. unfold result_tail. quiet_steps. Qed.

(** Whatever its argument, the parameter list is built without touching
    the world. *)
Lemma search_params_world query options w : (search_params query options w).2 = w.
Proof.
  assert (options = VUndef ∨ options = VNull ∨ (options ≠ VUndef ∧ options ≠ VNull))
    as [->|[->|[H1 H2]]] by (destruct options; auto).
  - done.
  - done.
  - destruct (quiet_search_params query options H1 H2 w) as [ps ->]. done.
Qed.

(** The [catch] of [searchLogs] turns every throw of its body into the
    failure object. *)
Lemma searchLogs_with_cases total_of self query options w :
  (∃ r w', searchLogs_with total_of self query options w = (Normal r, w')
           ∧ success r = true)
  ∨ (∃ err w', searchLogs_with total_of self query options w
               = (Normal (failure query err), w')).
Proof.
  unfold searchLogs_with, catch.
  match goal with |- context [bind ?m ?k w] => destruct (bind m k w) as [[r|err] w'] eqn:E end.
  - left. exists r, w'. split; [done|].
    repeat (apply bind_Normal in E as (? & ? & _ & E)).
    unfold ret in E. by injection E as <- _.
  - right. by exists err, w'.
Qed.

Lemma searchLogs_with_clean total_of : reports_failure_cleanly (searchLogs_with total_of).
Proof.
  intros self query options w.
  destruct (searchLogs_with_cases total_of self query options w)
    as [(r & w' & -> & Hs) | (err & w' & ->)].
  - exists r, w'. split; [done|]. rewrite Hs. discriminate.
  - eexists _, w'. split; [done|]. intros _. simpl. repeat split; eauto.
Qed.

Lemma searchLogs_with_exhausted total_of : fails_when_exhausted (searchLogs_with total_of).
Proof.
  intros self query options w Hfail.
  unfold searchLogs_with, catch.
  set (o := default_options options).
  destruct (search_params query o w) as [[ps|err] w1] eqn:Eps.
  - pose proof (search_params_world query o w) as Hw. rewrite Eps in Hw. simpl in Hw. subst w1.
    rewrite (bind_eq _ _ _ _ _ Eps).
    unfold makeRequest.
    destruct (loop_all_fail self {| path := "/events/search.json"; params := ps |}
                (Z.to_nat (maxRetries self)) 1 None w Hfail) as (w' & Hrun & _).
    rewrite (bind_Throw _ _ _ _ _ Hrun). by eexists _, _.
  - rewrite (bind_Throw _ _ _ _ _ Eps). by eexists _, _.
Qed.

End SearchFacts.

Section ClientClaims.
Import JS PapertrailClient.

Implicit Types (w : World) (e : Endpoint) (self : PapertrailClient.t).

Lemma makeRequest_first_success self e w latency status text v :
  1 ≤ maxRetries self →
  network w (fetched w) = (latency, Responded status text (Some v)) →
  ok status = true →
  makeRequest self e w = (Normal v, fetched_once e w).
Proof.
  intros Hmax Hnet Hok. unfold makeRequest.
  destruct (Z.to_nat (maxRetries self)) as [|n] eqn:En; [lia|].
  cbn [makeRequest_loop]. unfold catch.
  by rewrite (attempt_once_succeeds e w latency status text v Hnet Hok).
Qed.

(** A 2xx answer that carries an empty event list. *)
Lemma searchLogs_zero_events self query options w latency status text :
  1 ≤ maxRetries self →
  options ≠ VNull →
  network w (fetched w) = (latency, Responded status text (Some (VObj [("events", VArr [])]))) →
  ok status = true →
  ∃ r e, (searchLogs self query options w).1 = Normal r
         ∧ success r = true ∧ events r = VArr [] ∧ total r = VNum (Int 0)
         ∧ trace (searchLogs self query options w).2 = trace w ++ [EvFetch e].
Proof.
  intros Hmax Hopt Hnet Hok.
  destruct (default_options_object options Hopt) as [H1 H2].
  unfold searchLogs, searchLogs_with, catch.
  destruct (quiet_search_params query _ H1 H2 w) as [ps Hps].
  rewrite (bind_eq _ _ _ _ _ Hps).
  rewrite (bind_eq _ _ _ _ _
             (makeRequest_first_success self _ w latency status text _ Hmax Hnet Hok)).
  set (w1 := fetched_once _ w).
  set (v := VObj [("events", VArr [])]).
  destruct (quiet_result_tail _ H1 H2 w1) as [tail Htail].
  assert (lift (get_prop v "events") w1 = (Normal (VArr []), w1)) as Hev by reflexivity.
  assert (total_esm v w1 = (Normal (VNum (Int 0)), w1)) as Htot by reflexivity.
  rewrite (bind_eq _ _ _ _ _ Hev), (bind_eq _ _ _ _ _ Htot), (bind_eq _ _ _ _ _ Htail).
  unfold ret. cbn [fst snd].
  eexists _, _. repeat split; reflexivity.
Qed.

(** C1.  [searchLogs], in the ES module and in the CommonJS file, returns
    normally for every query, options and world; whenever the result has
    [success: false] it carries an error message, [events: []] and
    [total: 0] and nothing else; and that is the result whenever every
    attempt of the request fails. *)
Theorem searchLogs_never_throws :
  (reports_failure_cleanly searchLogs ∧ fails_when_exhausted searchLogs)
  ∧ (reports_failure_cleanly searchLogs_cjs ∧ fails_when_exhausted searchLogs_cjs).
Proof.
  unfold searchLogs, searchLogs_cjs.
  repeat split; auto using searchLogs_with_clean, searchLogs_with_exhausted.
Qed.

(** C2.  With [maxRetries >= 1]: when every attempt fails (rejected
    [fetch] or non-2xx status), [makeRequest] sends exactly [maxRetries]
    requests, sleeps [2^(attempt-1)] seconds after each failed attempt but
    the last, and throws one error, ["Failed after <maxRetries> attempts: "]
    followed by the message of the last attempt's error; when the first
    answer is 2xx with a JSON body it returns that body after one request
    and no sleep, and [searchLogs] turns an empty event list into a
    success with no events. *)
Theorem makeRequest_retry_policy self e w :
  1 ≤ maxRetries self →
  let n := Z.to_nat (maxRetries self) in
  ((∀ k, (k < n)%nat → attempt_fails (upcoming w k)) →
   ∃ w', makeRequest self e w
         = (Throw (new_Error ("Failed after " ++ show_Z (maxRetries self) ++ " attempts: "
                              ++ message (failure_of (upcoming w (n - 1))))), w')
         ∧ trace w' = trace w ++ retry_events (maxRetries self) e n 1
         ∧ fetches (retry_events (maxRetries self) e n 1) = replicate n e
         ∧ sleeps (retry_events (maxRetries self) e n 1)
           = (λ attempt, 2 ^ (attempt - 1) * 1000) <$> seqZ 1 (maxRetries self - 1))
  ∧ (∀ latency status text v,
       network w (fetched w) = (latency, Responded status text (Some v)) →
       ok status = true →
       makeRequest self e w = (Normal v, fetched_once e w)
       ∧ trace (fetched_once e w) = trace w ++ [EvFetch e])
  ∧ (∀ latency status text query options,
       network w (fetched w)
       = (latency, Responded status text (Some (VObj [("events", VArr [])]))) →
       ok status = true →
       options ≠ VNull →
       ∃ r e', (searchLogs self query options w).1 = Normal r
               ∧ success r = true ∧ events r = VArr [] ∧ total r = VNum (Int 0)
               ∧ trace (searchLogs self query options w).2 = trace w ++ [EvFetch e']).
Proof.
  intros Hmax n. split; [|split].
  - intros Hfail.
    destruct (loop_all_fail self e n 1 None w Hfail) as (w' & Hrun & _ & _ & _ & Htr).
    exists w'. unfold makeRequest. fold n. rewrite Hrun.
    split; [|split; [done|split]].
    + f_equal. destruct n as [|m] eqn:En; [lia|]. simpl.
      by rewrite Nat.sub_0_r.
    + apply retry_events_fetches.
    + rewrite (retry_events_sleeps (maxRetries self) e n 1) by lia.
      f_equal. f_equal. lia.
  - intros latency status text v Hnet Hok. split; [|done].
    by apply (makeRequest_first_success self e w latency status text v).
  - intros latency status text query options Hnet Hok Hopt.
    by apply (searchLogs_zero_events self query options w latency status text).
Qed.

Lemma makeRequest_retry_policy_witness :
  let self := Tool.new_client "token" "https://papertrailapp.com/api/v1" in
  let e := {| path := "/events/search.json"; params := [("q", VStr "error")] |} in
  let rl := RateLimiter.new None None 60 10 in
  let down := initial_world 0 rl (always 50 (Responded 500 "boom" None)) in
  let up := initial_world 0 rl
              (always 50 (Responded 200 EmptyString (Some (VObj [("events", VArr [])])))) in
  (∃ w', makeRequest self e down
         = (Throw (new_Error "Failed after 3 attempts: Papertrail API error (500): boom"), w')
         ∧ trace w' = [EvFetch e; EvSleep 1000; EvFetch e; EvSleep 2000; EvFetch e]
         ∧ clock w' = 50 + 1000 + 50 + 2000 + 50)
  ∧ makeRequest self e up
    = (Normal (VObj [("events", VArr [])]), fetched_once e up)
  ∧ ∃ r e', (searchLogs self (VStr "error") VUndef up).1 = Normal r
            ∧ success r = true ∧ events r = VArr [] ∧ total r = VNum (Int 0)
            ∧ trace (searchLogs self (VStr "error") VUndef up).2 = [EvFetch e'].
Proof.
  intros self e rl down up. split; [|split].
  - destruct (makeRequest_retry_policy self e down) as [Hfail _]; [vm_compute; discriminate|].
    destruct Hfail as (w' & Hrun & Htr & _).
    { intros k _. vm_compute. reflexivity. }
    exists w'. split; [exact Hrun|]. split; [exact Htr|].
    apply (f_equal snd) in Hrun. simpl in Hrun. rewrite <- Hrun. vm_compute. reflexivity.
  - destruct (makeRequest_retry_policy self e up) as (_ & Hok & _); [vm_compute; discriminate|].
    apply (Hok 50 200 EmptyString (VObj [("events", VArr [])])); reflexivity.
  - destruct (makeRequest_retry_policy self e up) as (_ & _ & Hsearch);
      [vm_compute; discriminate|].
    apply (Hsearch 50 200 EmptyString (VStr "error") VUndef); [reflexivity|reflexivity|discriminate].
Defined.

(** C4, at a failing input.  No [minTime]/[maxTime]; the clock reads
    1700000000000 ms when the request is built and the answer (200, no
    events) arrives 2500 ms later.  The request carries the defaults of
    the first reading, in whole seconds; the [timeRange] of the result is
    computed afresh from the clock after the answer and is two seconds
    later. *)
Theorem searchLogs_timeRange_recomputed :
  let self := Tool.new_client "token" "https://papertrailapp.com/api/v1" in
  let w := initial_world 1700000000000 (RateLimiter.new None None 60 10)
             (always 2500 (Responded 200 EmptyString (Some (VObj [("events", VArr [])])))) in
  ∃ r w', searchLogs self (VStr "error") VUndef w = (Normal r, w')
          ∧ trace w'
            = [EvFetch {| path := "/events/search.json";
                          params := [("q", VStr "error");
                                     ("min_time", VNum (Int 1699996400));
                                     ("max_time", VNum (Int 1700000000));
                                     ("limit", VNum (Int 100))] |}]
          ∧ success r = true
          ∧ timeRange r = Some (VNum (Int 1699996402), VNum (Int 1700000002))
          ∧ metadata r = Some (1700000002500, VNum (Int 100)).
Proof. vm_compute. eexists _, _. repeat split; reflexivity. Qed.

(** C5, at a failing input.  The payload holds one event and an explicit
    total of 50.  The ES module reports [total = 1], the length of the
    event list; the CommonJS file reports the explicit 50. *)
Theorem searchLogs_total_ignores_payload_total :
  let self := Tool.new_client "token" "https://papertrailapp.com/api/v1" in
  let payload := VObj [("events", VArr [VObj [("id", VStr "e1")]]);
                       ("total_events", VNum (Int 50));
                       ("total_hits", VNum (Int 50))] in
  let w := initial_world 1700000000000 (RateLimiter.new None None 60 10)
             (always 20 (Responded 200 EmptyString (Some payload))) in
  (∃ r w', searchLogs self (VStr "error") VUndef w = (Normal r, w')
           ∧ success r = true ∧ total r = VNum (Int 1))
  ∧ (∃ r w', searchLogs_cjs self (VStr "error") VUndef w = (Normal r, w')
             ∧ success r = true ∧ total r = VNum (Int 50)).
Proof. vm_compute. split; eexists _, _; repeat split; reflexivity. Qed.

End ClientClaims.

(* ===================================================================== *)
(** ** Properties of the tool *)
(* ===================================================================== *)

Section LogFacts.
Import JS PapertrailClient.

Implicit Types (w : World) (e : Endpoint) (self : PapertrailClient.t).

Lemma silent_ret {A} (a : A) : silent (ret a).
Proof. by intros w. Qed.

Lemma silent_throw {A} (err : Error) : silent (@throw A err).
Proof. by intros w. Qed.

Lemma silent_lift {A} (c : completion A) : silent (lift c).
Proof. by intros w. Qed.

Lemma silent_Date_now : silent Date_now.
Proof. by intros w. Qed.

Lemma silent_bind {A B} (m : M A) (k : A → M B) :
  silent m → (∀ a, silent (k a)) → silent (bind m k).
Proof.
  intros Hm Hk w. unfold bind. specialize (Hm w).
  destruct (m w) as [[a|err] w1]; simpl in Hm; subst w1; [apply Hk | done].
Qed.

Lemma silent_or_else v (m : M value) : silent m → silent (or_else v m).
Proof. intros Hm. unfold or_else. destruct (truthy v); [apply silent_ret | done]. Qed.

Lemma silent_defaults : silent getDefaultMinTime ∧ silent getDefaultMaxTime.
Proof.
  split; (apply silent_bind; [apply silent_Date_now | intros; apply silent_ret]).
Qed.

Ltac silent_steps :=
  repeat first
    [ apply silent_ret
    | apply silent_throw
    | apply silent_lift
    | apply silent_Date_now
    | apply silent_or_else
    | apply silent_defaults
    | apply silent_bind; [|intros ?] ].

Lemma silent_search_params query options : silent (search_params query options).
Proof. unfold search_params. silent_steps. Qed.

Lemma silent_result_tail options : silent (result_tail options).
Proof. unfold result_tail. silent_steps. Qed.

Lemma silent_total_esm result : silent (total_esm result).
Proof. unfold total_esm. silent_steps. Qed.

(** *** What a computation adds to the log *)

Lemma sends_silent {A} P (m : M A) : silent m → sends P m.
Proof.
  intros Hm w. exists []. rewrite Hm, app_nil_r. split; [done | constructor].
Qed.

Lemma sends_bind {A B} P (m : M A) (k : A → M B) :
  sends P m → (∀ a, sends P (k a)) → sends P (bind m k).
Proof.
  intros Hm Hk w. unfold bind. destruct (Hm w) as (tr1 & Htr1 & HP1).
  destruct (m w) as [[a|err] w1]; simpl in Htr1.
  - destruct (Hk a w1) as (tr2 & Htr2 & HP2).
    exists (tr1 ++ tr2). rewrite Htr2, Htr1, app_assoc. split; [done|].
    rewrite fetches_app. by apply Forall_app.
  - by exists tr1.
Qed.

(** A pure step whose continuation is only run on its normal result. *)
Lemma sends_bind_lift {A B} P (c : completion A) (k : A → M B) :
  (∀ a, c = Normal a → sends P (k a)) → sends P (bind (lift c) k).
Proof.
  intros Hk w. unfold bind, lift. destruct c as [a|err].
  - by apply Hk.
  - exists []. simpl. rewrite app_nil_r. split; [done | constructor].
Qed.

Lemma sends_catch {A} P (m : M A) (h : Error → M A) :
  sends P m → (∀ err, sends P (h err)) → sends P (catch m h).
Proof.
  intros Hm Hh w. unfold catch. destruct (Hm w) as (tr1 & Htr1 & HP1).
  destruct (m w) as [[a|err] w1]; simpl in Htr1.
  - by exists tr1.
  - destruct (Hh err w1) as (tr2 & Htr2 & HP2).
    exists (tr1 ++ tr2). rewrite Htr2, Htr1, app_assoc. split; [done|].
    rewrite fetches_app. by apply Forall_app.
Qed.

Lemma attempt_once_world e w : (attempt_once e w).2 = fetched_once e w.
Proof.
  unfold attempt_once, bind, fetch, fetched_once.
  destruct (network w (fetched w)) as [latency [msg|status text json]]; simpl; [done|].
  destruct (ok status); [destruct json|]; done.
Qed.

(** Every request of [makeRequest] is for its endpoint. *)
Lemma sends_makeRequest_loop self e (n : nat) : ∀ attempt lastError,
  sends (λ e', e' = e) (makeRequest_loop self e n attempt lastError).
Proof.
  induction n as [|n IH]; intros attempt lastError.
  - apply sends_silent, silent_throw.
  - cbn [makeRequest_loop]. apply sends_catch.
    + intros w. exists [EvFetch e]. rewrite attempt_once_world.
      split; [done|]. by repeat constructor.
    + intros err. apply sends_bind; [|intros; apply IH].
      case_decide; [|apply sends_silent, silent_ret].
      intros w. eexists [EvSleep _]. split; [done | constructor].
Qed.

(** The parameter list [searchLogs] builds, when it builds one. *)
Lemma search_params_shape query options w ps w' :
  search_params query options w = (Normal ps, w') →
  ∃ min_time max_time lim system_id group_id,
    get_prop options "limit" = Normal lim
    ∧ ps = [("q", query); ("min_time", min_time); ("max_time", max_time);
            ("limit", JS.or lim (VNum (Int 100)))]
           ++ spread_if "system_id" system_id ++ spread_if "group_id" group_id.
Proof.
  unfold search_params. intros E.
  apply bind_Normal in E as (minTime & w1 & _ & E).
  apply bind_Normal in E as (min_time & w2 & _ & E).
  apply bind_Normal in E as (maxTime & w3 & _ & E).
  apply bind_Normal in E as (max_time & w4 & _ & E).
  apply bind_Normal in E as (lim & w5 & Hlim & E).
  apply bind_Normal in E as (system_id & w6 & _ & E).
  apply bind_Normal in E as (group_id & w7 & _ & E).
  unfold ret in E. injection E as <- _.
  exists min_time, max_time, lim, system_id, group_id. split; [|done].
  unfold lift in Hlim. by injection Hlim as ->.
Qed.

Lemma lookup_limit_params query min_time max_time v system_id group_id :
  lookup_field "limit"
    ([("q", query); ("min_time", min_time); ("max_time", max_time); ("limit", v)]
     ++ spread_if "system_id" system_id ++ spread_if "group_id" group_id)
  = Some v.
Proof. unfold spread_if. by destruct (truthy system_id), (truthy group_id). Qed.

(** Every request of [searchLogs] carries the [limit] of its options. *)
Lemma sends_searchLogs self query fields lim :
  lookup_field "limit" fields = Some lim →
  truthy lim = true →
  sends (λ e, lookup_field "limit" (params e) = Some lim)
    (searchLogs self query (VObj fields)).
Proof.
  intros Hlim Htruthy.
  unfold searchLogs, searchLogs_with, catch. intros w. cbn [default_options].
  pose proof (silent_search_params query (VObj fields) w) as Hw.
  destruct (search_params query (VObj fields) w) as [[ps|err] w1] eqn:Eps;
    simpl in Hw; subst w1.
  2: { rewrite (bind_Throw _ _ _ _ _ Eps). exists []. simpl.
       rewrite app_nil_r. split; [done|constructor]. }
  rewrite (bind_eq _ _ _ _ _ Eps).
  assert (lookup_field "limit" ps = Some lim) as Hps.
  { apply search_params_shape in Eps
      as (min_time & max_time & lim' & system_id & group_id & Hget & ->).
    cbn [get_prop] in Hget. rewrite Hlim in Hget. cbn [default] in Hget.
    injection Hget as <-. rewrite lookup_limit_params.
    unfold JS.or. by rewrite Htruthy. }
  set (e := {| path := "/events/search.json"; params := ps |}).
  set (rest := λ result : value, bind (lift (get_prop result "events")) _).
  destruct (sends_makeRequest_loop self e (Z.to_nat (maxRetries self)) 1 None w)
    as (tr & Htr & HP).
  fold (makeRequest self e) in Htr.
  assert (∀ result, silent (rest result)) as Hrest.
  { intros result. subst rest. cbv beta.
    apply silent_bind; [apply silent_lift|intros ?].
    apply silent_bind; [apply silent_total_esm|intros ?].
    apply silent_bind; [apply silent_result_tail|intros ?].
    apply silent_ret. }
  exists tr. split.
  - unfold bind at 1. destruct (makeRequest self e w) as [[result|err] w2]; simpl in Htr.
    + specialize (Hrest result w2). destruct (rest result w2) as [[r|err] w3];
        simpl in Hrest; subst w3; exact Htr.
    + exact Htr.
  - eapply Forall_impl; [exact HP|]. intros e' ->. exact Hps.
Qed.

End LogFacts.

Section ToolFacts.
Import JS PapertrailClient ErrorHandler Tool.

Context (B : Builtins SearchResult).

Implicit Types (w : World) (args : value).

Lemma collect_nil {A} (f : A → completion (list string)) (xs : list A) :
  collect f xs = Normal [] → ∀ x, x ∈ xs → f x = Normal [].
Proof.
  induction xs as [|y xs IH]; intros Hc x Hin; [by apply elem_of_nil in Hin|].
  simpl in Hc. destruct (f y) as [e1|] eqn:Ey; [|discriminate].
  destruct (collect f xs) as [e2|]; [|discriminate].
  injection Hc as Hc. apply app_eq_nil in Hc as [-> ->].
  apply elem_of_cons in Hin as [->|Hin]; [done | by apply IH].
Qed.

Lemma collect_Normal {A} (f : A → completion (list string)) (xs : list A) :
  (∀ x, x ∈ xs → ∃ es, f x = Normal es) →
  ∃ es, collect f xs = Normal es
        ∧ ∀ x ex, x ∈ xs → f x = Normal ex → ex ≠ [] → es ≠ [].
Proof.
  induction xs as [|y xs IH]; intros Hall.
  - exists []. split; [done|]. intros x ex Hin. by apply elem_of_nil in Hin.
  - destruct (Hall y) as [e1 He1]; [by left|].
    destruct IH as (e2 & He2 & Hne); [intros x Hx; apply Hall; by right|].
    exists (e1 ++ e2). simpl. rewrite He1, He2. split; [done|].
    intros x ex Hin Hx Hex Happ. apply app_eq_nil in Happ as [-> ->].
    apply elem_of_cons in Hin as [->|Hin].
    + rewrite He1 in Hx. by injection Hx as <-.
    + by apply (Hne x ex).
Qed.

(** No value has the [typeof] the schema asks of an [integer] field, so a
    field of that type passes only when it is absent. *)
Lemma property_errors_integer args field lo hi :
  property_errors B args (field, integer_field lo hi) = Normal [] →
  get_prop args field = Normal VUndef.
Proof.
  unfold property_errors. destruct (get_prop args field) as [v|err]; [|discriminate].
  destruct v; try done; unfold length_errors, type_errors; simpl; discriminate.
Qed.

Lemma validateArgs_limit_absent args :
  validateArgs B args inputSchema = Normal tt →
  get_prop args "limit" = Normal VUndef.
Proof.
  unfold validateArgs. intros Hv.
  destruct (collect (required_errors args) (required inputSchema)) as [e1|]; [|discriminate].
  destruct (collect (property_errors B args) (properties inputSchema)) as [e2|] eqn:E2;
    [|discriminate].
  destruct (e1 ++ e2) eqn:Eapp; [|discriminate].
  apply app_eq_nil in Eapp as [_ ->].
  apply property_errors_integer with (lo := Some 1) (hi := Some 1000).
  apply (collect_nil _ _ E2). unfold inputSchema. simpl.
  do 3 right. by left.
Qed.

(** A numeric [limit] outside [[1, 1000]] fails the validation. *)
Lemma validateArgs_limit_out_of_range fields z :
  get_prop (VObj fields) "limit" = Normal (VNum (Int z)) →
  z < 1 ∨ 1000 < z →
  ∃ msg errors,
    validateArgs B (VObj fields) inputSchema
    = Throw (createError ERROR_CODES.INVALID_ARGUMENTS msg (Some errors))
    ∧ ("Field 'limit' must be at least 1" ∈ errors
       ∨ "Field 'limit' must be at most 1000" ∈ errors).
Proof.
  intros Hlim Hrange. unfold validateArgs.
  destruct (collect_Normal (required_errors (VObj fields)) (required inputSchema))
    as (e1 & -> & _).
  { intros x _. unfold required_errors. simpl. by eexists. }
  assert (∀ fc, fc ∈ properties inputSchema →
                ∃ es, property_errors B (VObj fields) fc = Normal es) as Hprops.
  { intros [field c] Hin. unfold property_errors. cbn [get_prop].
    assert (minLength c = None ∧ maxLength c = None) as [Hmin Hmax].
    { unfold inputSchema in Hin. simpl in Hin.
      repeat (apply elem_of_cons in Hin as [[= _ ->]|Hin]; [done|]).
      by apply elem_of_nil in Hin. }
    assert (length_errors B field c (default VUndef (lookup_field field fields)) = Normal []) as ->.
    { unfold length_errors, length_error. rewrite Hmin, Hmax. by destruct (String.eqb _ _). }
    destruct (default VUndef (lookup_field field fields)); by eexists. }
  unfold inputSchema in *. cbn [properties collect] in *.
  destruct (Hprops ("query", string_field)) as [eq ->]; [by repeat constructor|].
  destruct (Hprops ("minTime", string_field)) as [emin ->]; [by repeat constructor|].
  destruct (Hprops ("maxTime", string_field)) as [emax ->]; [by repeat constructor|].
  destruct (Hprops ("systemId", integer_field None None)) as [esys Hsys]; [by repeat constructor|].
  destruct (Hprops ("groupId", integer_field None None)) as [egrp Hgrp]; [by repeat constructor|].
  assert (∃ elim, property_errors B (VObj fields) ("limit", integer_field (Some 1) (Some 1000))
                  = Normal ("Field 'limit' must be of type integer, got number" :: elim)
                  ∧ ("Field 'limit' must be at least 1" ∈ elim
                     ∨ "Field 'limit' must be at most 1000" ∈ elim)) as (elim & -> & Hin).
  { unfold property_errors. rewrite Hlim. unfold length_errors, type_errors, range_errors.
    cbn. unfold js_lt, js_gt, ToNumber.
    destruct Hrange as [Hlo|Hhi].
    - rewrite (proj2 (Z.ltb_lt z 1) Hlo). eexists. split; [reflexivity|]. left. by left.
    - rewrite (proj2 (Z.ltb_lt 1000 z) Hhi).
      destruct (z <? 1); eexists; (split; [reflexivity|]); right; by repeat constructor. }
  rewrite Hsys, Hgrp.
  destruct (e1 ++ eq ++ emin ++ emax
            ++ ("Field 'limit' must be of type integer, got number" :: elim)
            ++ esys ++ egrp ++ []) as [|err errs] eqn:Eerrs.
  { exfalso. apply app_eq_nil in Eerrs as [_ Eerrs].
    apply app_eq_nil in Eerrs as [_ Eerrs]. apply app_eq_nil in Eerrs as [_ Eerrs].
    apply app_eq_nil in Eerrs as [_ Eerrs]. discriminate. }
  eexists _, _. split; [reflexivity|]. rewrite <- Eerrs.
  destruct Hin as [Hin|Hin]; [left|right];
    rewrite !elem_of_app, elem_of_cons; tauto.
Qed.

End ToolFacts.

Section ToolRuns.
Import JS PapertrailClient ErrorHandler Tool.

Context (B : Builtins SearchResult).

Implicit Types (w : World) (args : value) (clientId : string).

(** The admission check changes the limiter and nothing else. *)
Lemma rateLimitMiddleware_run clientId w :
  let d := (RateLimiter.checkLimit (clock w) clientId (limiter w)).1 in
  let w1 := set_limiter w (RateLimiter.checkLimit (clock w) clientId (limiter w)).2 in
  (RateLimiter.allowed d = true ∧ rateLimitMiddleware clientId w = (Normal d, w1))
  ∨ (RateLimiter.allowed d = false
     ∧ ∃ err, rateLimitMiddleware clientId w = (Throw err, w1)
              ∧ JS.code err = Some ERROR_CODES.RATE_LIMIT_EXCEEDED).
Proof.
  unfold rateLimitMiddleware.
  destruct (RateLimiter.checkLimit (clock w) clientId (limiter w)) as [d rl]. simpl.
  destruct (RateLimiter.allowed d); [left | right]; eauto.
Qed.

Lemma sends_rateLimitMiddleware P clientId : sends P (rateLimitMiddleware clientId).
Proof.
  intros w. exists []. rewrite app_nil_r. split; [|constructor].
  destruct (rateLimitMiddleware_run clientId w) as [[_ ->] | (_ & err & -> & _)]; done.
Qed.

Lemma time_option_entries k example x o :
  time_option B k example x = Normal o → o = [] ∨ ∃ v, o = [(k, v)].
Proof.
  unfold time_option. destruct (truthy x); [|intros [= <-]; by left].
  destruct (Date_getTime B x); [discriminate|]. intros [= <-]. right. by eexists.
Qed.

Lemma spread_parsed_entries k x :
  spread_parsed B k x = [] ∨ ∃ v, spread_parsed B k x = [(k, v)].
Proof. unfold spread_parsed. destruct (truthy x); [right; by eexists | by left]. Qed.

(** The options the tool hands to the client keep the [limit] it
    computed. *)
Lemma options_limit lim systemId groupId o1 o2 :
  (o1 = [] ∨ ∃ v, o1 = [("minTime", v)]) →
  (o2 = [] ∨ ∃ v, o2 = [("maxTime", v)]) →
  lookup_field "limit"
    (([("limit", lim)] ++ spread_parsed B "system_id" systemId
        ++ spread_parsed B "group_id" groupId) ++ o1 ++ o2)
  = Some lim.
Proof.
  intros [->|[v1 ->]] [->|[v2 ->]];
    destruct (spread_parsed_entries "system_id" systemId) as [->|[v3 ->]];
    destruct (spread_parsed_entries "group_id" groupId) as [->|[v4 ->]];
    reflexivity.
Qed.

(** Every request a call of the tool sends carries [limit = 100]. *)
Lemma sends_executeSearchLogs apiToken baseUrl args clientId :
  sends (λ e, lookup_field "limit" (params e) = Some (VNum (Int 100)))
    (executeSearchLogs B apiToken baseUrl args clientId).
Proof.
  unfold executeSearchLogs. apply sends_catch.
  2: { intros err. apply sends_silent.
       apply silent_bind; [apply silent_lift | intros; apply silent_ret]. }
  unfold executeSearchLogs_body.
  apply sends_bind; [apply sends_rateLimitMiddleware | intros _].
  apply sends_bind_lift. intros q _.
  apply sends_bind_lift. intros empty _.
  destruct empty; [apply sends_silent, silent_throw|].
  apply sends_bind_lift. intros [] Hvalid.
  apply validateArgs_limit_absent in Hvalid.
  apply sends_bind_lift. intros limit Hlimit.
  rewrite Hvalid in Hlimit. injection Hlimit as <-.
  apply sends_bind_lift. intros systemId _.
  apply sends_bind_lift. intros groupId _.
  apply sends_bind_lift. intros minTime _.
  apply sends_bind_lift. intros o1 Ho1. apply time_option_entries in Ho1.
  apply sends_bind_lift. intros maxTime _.
  apply sends_bind_lift. intros o2 Ho2. apply time_option_entries in Ho2.
  apply sends_bind_lift. intros query _.
  apply sends_bind.
  - apply sends_searchLogs; [|done].
    by rewrite (options_limit _ systemId groupId o1 o2 Ho1 Ho2).
  - intros result. apply sends_silent.
    destruct (negb (PapertrailClient.success result)); [apply silent_throw|].
    apply silent_bind; [apply silent_lift | intros; apply silent_ret].
Qed.

(** A call whose [limit] is a number outside [[1, 1000]] ends in the
    [catch] branch without a request; when the caller is admitted and the
    query is not empty the error is the validation error. *)
Lemma executeSearchLogs_rejects apiToken baseUrl args clientId w z :
  get_prop args "limit" = Normal (VNum (Int z)) →
  z < 1 ∨ 1000 < z →
  ∃ err w', executeSearchLogs B apiToken baseUrl args clientId w
            = (Normal (formatMcpError err), w')
            ∧ trace w' = trace w
            ∧ (RateLimiter.allowed
                 (RateLimiter.checkLimit (clock w) clientId (limiter w)).1 = true →
               (∃ q, get_prop args "query" = Normal q ∧ query_is_empty B q = Normal false) →
               JS.code err = Some ERROR_CODES.INVALID_ARGUMENTS
               ∧ ∃ errors, JS.validationErrors err = Some errors
                           ∧ ("Field 'limit' must be at least 1" ∈ errors
                              ∨ "Field 'limit' must be at most 1000" ∈ errors)).
Proof.
  intros Hlim Hrange.
  assert (∃ fields, args = VObj fields) as [fields ->].
  { destruct args; try discriminate; eauto. }
  destruct (validateArgs_limit_out_of_range B fields z Hlim Hrange)
    as (msg & errors & Hvalid & Hin).
  unfold executeSearchLogs, catch, executeSearchLogs_body.
  set (w1 := set_limiter w (RateLimiter.checkLimit (clock w) clientId (limiter w)).2).
  assert (trace w1 = trace w) as Htr by done.
  destruct (rateLimitMiddleware_run clientId w) as [[Hallow Hrun] | (Hdeny & err & Hrun & _)];
    fold w1 in Hrun.
  - rewrite (bind_eq _ _ _ _ _ Hrun).
    unfold lift at 1, bind at 1. cbn [get_prop].
    set (q := default VUndef (lookup_field "query" fields)).
    unfold lift at 1, bind at 1.
    destruct (query_is_empty B q) as [[|]|err] eqn:Eempty.
    + eexists _, w1. split; [reflexivity|]. split; [done|].
      intros _ (q' & [= <-] & Hq). fold q in Hq. congruence.
    + rewrite Hvalid. eexists _, w1. split; [reflexivity|]. split; [done|].
      intros _ _. split; [done|]. by exists errors.
    + eexists _, w1. split; [reflexivity|]. split; [done|].
      intros _ (q' & [= <-] & Hq). fold q in Hq. congruence.
  - rewrite (bind_Throw _ _ _ _ _ Hrun).
    eexists _, w1. split; [reflexivity|]. split; [done|].
    intros Hallow. congruence.
Qed.

(** An empty or missing query, for an admitted caller. *)
Lemma executeSearchLogs_empty_query apiToken baseUrl args clientId w :
  query_missing_or_empty args →
  RateLimiter.allowed (RateLimiter.checkLimit (clock w) clientId (limiter w)).1 = true →
  ∃ err,
    executeSearchLogs B apiToken baseUrl args clientId w
    = (Normal (formatMcpError err),
       set_limiter w (RateLimiter.checkLimit (clock w) clientId (limiter w)).2)
    ∧ JS.code err = Some ERROR_CODES.INVALID_ARGUMENTS.
Proof.
  intros Hq Hallow.
  unfold executeSearchLogs, catch, executeSearchLogs_body.
  destruct (rateLimitMiddleware_run clientId w) as [[_ Hrun] | (Hdeny & _)];
    [|congruence].
  rewrite (bind_eq _ _ _ _ _ Hrun).
  unfold lift at 1, bind at 1.
  destruct Hq as [Hq|Hq]; rewrite Hq; unfold lift, bind; cbn;
    eexists; (split; [reflexivity|done]).
Qed.

End ToolRuns.

Section ToolClaims.
Import JS PapertrailClient ErrorHandler Tool.

Implicit Types (w : World) (args : value) (clientId : string).

Lemma checkLimit_allowed_record now clientId rl :
  RateLimiter.allowed (RateLimiter.checkLimit now clientId rl).1 = true →
  let before := RateLimiter.refill now clientId rl in
  RateLimiter.clients (RateLimiter.checkLimit now clientId rl).2 !! clientId
  = Some {| RateLimiter.requests := RateLimiter.requests before ++ [now];
            RateLimiter.burstTokens := RateLimiter.burstTokens before - 1 |}.
Proof.
  unfold RateLimiter.checkLimit. cbv zeta.
  repeat case_decide; cbn [fst snd RateLimiter.allowed]; [discriminate..|].
  intros _. cbn [RateLimiter.clients RateLimiter.set_clients].
  by rewrite lookup_insert_eq.
Qed.



(** C6, as amended.  Every request [executeSearchLogs] sends carries a
    [limit] in [[1, 1000]], and 100 when the caller gave none.  The option
    computation [Math.min(parseInt(limit) || 100, 1000)] maps an absent
    limit to 100 and 5000 to 1000; a numeric limit below 1 or above 1000
    does not reach it: the call ends as a failure with no request sent,
    an [INVALID_ARGUMENTS] validation error naming the bound when the
    caller is admitted and the query is not empty. *)
Theorem sent_limit_within_bounds (B : Builtins SearchResult)
    apiToken baseUrl args clientId w :
  (limit_option B VUndef = VNum (Int 100)
   ∧ limit_option B (VNum (Int 5000)) = VNum (Int 1000))
  ∧ (∃ tr, trace (executeSearchLogs B apiToken baseUrl args clientId w).2 = trace w ++ tr
           ∧ Forall (λ v, ∃ z, v = VNum (Int z) ∧ 1 ≤ z ≤ 1000) (sent_limits tr)
           ∧ (get_prop args "limit" = Normal VUndef →
              Forall (λ v, v = VNum (Int 100)) (sent_limits tr)))
  ∧ (∀ z, get_prop args "limit" = Normal (VNum (Int z)) →
          z < 1 ∨ 1000 < z →
          ∃ r w', executeSearchLogs B apiToken baseUrl args clientId w = (Normal r, w')
                  ∧ ErrorHandler.success r = false
                  ∧ trace w' = trace w
                  ∧ (RateLimiter.allowed
                       (RateLimiter.checkLimit (clock w) clientId (limiter w)).1 = true →
                     (∃ q, get_prop args "query" = Normal q
                           ∧ query_is_empty B q = Normal false) →
                     ErrorHandler.code r = Some "INVALID_ARGUMENTS"
                     ∧ ∃ errors, r_validationErrors r = Some errors
                                 ∧ ("Field 'limit' must be at least 1" ∈ errors
                                    ∨ "Field 'limit' must be at most 1000" ∈ errors))).
Proof.
  split; [split; reflexivity|]. split.
  - destruct (sends_executeSearchLogs B apiToken baseUrl args clientId w) as (tr & Htr & HP).
    exists tr. split; [done|].
    assert (Forall (λ v, v = VNum (Int 100)) (sent_limits tr)) as H100.
    { unfold sent_limits. apply Forall_fmap. eapply Forall_impl; [exact HP|].
      intros e He. simpl. by rewrite He. }
    split; [|done].
    eapply Forall_impl; [exact H100|]. intros v ->. exists 100. split; [done|lia].
  - intros z Hlim Hrange.
    destruct (executeSearchLogs_rejects B apiToken baseUrl args clientId w z Hlim Hrange)
      as (err & w' & -> & Htr & Hcode).
    eexists _, w'. split; [reflexivity|]. split; [done|]. split; [done|].
    intros Hallow Hq. destruct (Hcode Hallow Hq) as (Hc & errors & Hv & Hin).
    unfold formatMcpError. cbn [ErrorHandler.code r_validationErrors].
    rewrite Hc. split; [done|]. exists errors. split; [|done].
    by rewrite <- Hv.
Qed.

Lemma sent_limit_within_bounds_witness :
  let w := initial_world 1700000000000 (RateLimiter.new None None 60 10)
             (always 20 (Responded 200 EmptyString (Some (VObj [("events", VArr [])])))) in
  let run := executeSearchLogs sample_builtins "token" "https://papertrailapp.com/api/v1"
               (VObj [("query", VStr "error")]) "default" w in
  sent_limits (trace run.2) = [VNum (Int 100)]
  ∧ ∃ tr, trace run.2 = trace w ++ tr
          ∧ Forall (λ v, ∃ z, v = VNum (Int z) ∧ 1 ≤ z ≤ 1000) (sent_limits tr).
Proof.
  intros w run. split; [vm_compute; reflexivity|].
  destruct (sent_limit_within_bounds sample_builtins "token"
              "https://papertrailapp.com/api/v1" (VObj [("query", VStr "error")])
              "default" w) as (_ & (tr & Htr & Hall & _) & _).
  exists tr. split; [exact Htr | exact Hall].
Defined.

(** C6, as stated, fails.  A call with [limit = 5000] by an admitted
    caller with a proper query is answered [INVALID_ARGUMENTS] and nothing
    is sent upstream, so no request with a limit clamped to 1000 is
    sent; the client itself forwards [options.limit] as it is, 5000 or
    -5; and the option computation leaves -5 at -5. *)
Lemma limit_not_clamped :
  let w := initial_world 1700000000000 (RateLimiter.new None None 60 10)
             (always 20 (Responded 200 EmptyString (Some (VObj [("events", VArr [])])))) in
  let self := new_client "token" "https://papertrailapp.com/api/v1" in
  (∃ r w', executeSearchLogs sample_builtins "token" "https://papertrailapp.com/api/v1"
             (VObj [("query", VStr "error"); ("limit", VNum (Int 5000))]) "default" w
           = (Normal r, w')
           ∧ ErrorHandler.success r = false
           ∧ ErrorHandler.code r = Some "INVALID_ARGUMENTS"
           ∧ sent_limits (trace w') = [])
  ∧ sent_limits (trace (searchLogs self (VStr "error")
                          (VObj [("limit", VNum (Int 5000))]) w).2)
    = [VNum (Int 5000)]
  ∧ sent_limits (trace (searchLogs self (VStr "error")
                          (VObj [("limit", VNum (Int (-5)))]) w).2)
    = [VNum (Int (-5))]
  ∧ limit_option sample_builtins (VNum (Int (-5))) = VNum (Int (-5)).
Proof.
  vm_compute. split; [|by repeat split].
  eexists _, _. repeat split; reflexivity.
Qed.

End ToolClaims.

(* ===================================================================== *)
(** ** Further properties of the rate limiter *)
(* ===================================================================== *)

Section BurstFacts.
Import RateLimiter.
Import RateLimiterStats (check_all, in_burst, in_burst_state).

Implicit Types (rl : RateLimiter.t) (c : string) (cl : Client) (now : Z).

Lemma trim_all windowStart (rs : list Z) :
  Forall (λ ts, windowStart < ts) rs → trim windowStart rs = rs.
Proof.
  unfold trim. induction 1 as [|r rs Hr _ IH]; [done|].
  by rewrite filter_cons_True, IH.
Qed.

Lemma Math_max_elem (x : Z) (xs : list Z) : Math_max x xs ∈ x :: xs.
Proof.
  unfold Math_max. induction xs as [|y ys IH]; cbn [foldr]; [by left|].
  destruct (Z.max_spec y (foldr Z.max x ys)) as [[_ ->]|[_ ->]].
  - apply elem_of_cons in IH as [->|IH]; [by left | by do 2 right].
  - right. by left.
Qed.

Lemma Math_min_elem (x : Z) (xs : list Z) : Math_min x xs ∈ x :: xs.
Proof.
  unfold Math_min. induction xs as [|y ys IH]; cbn [foldr]; [by left|].
  destruct (Z.min_spec y (foldr Z.min x ys)) as [[_ ->]|[_ ->]].
  - right. by left.
  - apply elem_of_cons in IH as [->|IH]; [by left | by do 2 right].
Qed.

Lemma Math_min_le (x : Z) (xs : list Z) (y : Z) : y ∈ x :: xs → Math_min x xs ≤ y.
Proof.
  unfold Math_min. induction xs as [|z zs IH]; cbn [foldr]; intros Hy.
  - apply list_elem_of_singleton in Hy. lia.
  - apply elem_of_cons in Hy as [Hy|Hy].
    + assert (foldr Z.min x zs ≤ y) by (apply IH; rewrite Hy; by left). lia.
    + apply elem_of_cons in Hy as [Hy|Hy]; [lia|].
      assert (foldr Z.min x zs ≤ y) by (apply IH; by right). lia.
Qed.

Lemma refill_in_burst c prev rl now :
  0 ≤ burst rl →
  in_burst_state c prev rl →
  Forall (λ r, in_burst r now) prev →
  refill now c rl
  = {| requests := prev; burstTokens := burst rl - Z.of_nat (length prev) |}.
Proof.
  intros Hb Hst Hprev. unfold refill, get_or_create.
  assert (trim (now - 60000) prev = prev) as Htrim.
  { apply trim_all. eapply Forall_impl; [exact Hprev|]. unfold in_burst. simpl. lia. }
  destruct Hst as [[-> Hc] | Hc]; rewrite Hc; cbn [requests RateLimiter.burstTokens].
  - unfold trim. simpl. f_equal. lia.
  - rewrite Htrim. f_equal. unfold tokensSinceLastRequest.
    destruct prev as [|r rs]; [simpl; lia|].
    pose proof (Math_max_elem r rs) as Hin.
    rewrite Forall_forall in Hprev. specialize (Hprev _ Hin). unfold in_burst in Hprev.
    assert ((now - Math_max r rs) `div` tokenRestoreInterval = 0) as ->.
    { unfold tokenRestoreInterval. apply Z.div_small. lia. }
    lia.
Qed.

Lemma check_all_in_burst c (ts : list Z) : ∀ prev rl,
  0 ≤ burst rl ≤ requestsPerMinute rl →
  in_burst_state c prev rl →
  Z.of_nat (length prev) ≤ burst rl →
  Forall (λ r, Forall (in_burst r) ts) prev →
  StronglySorted in_burst ts →
  ∀ (i : nat) d, (check_all c ts rl).1 !! i = Some d →
    (Z.of_nat (length prev + i) < burst rl →
     allowed d = true
     ∧ remaining d = Z.min (requestsPerMinute rl - Z.of_nat (length prev + i + 1))
                           (burst rl - Z.of_nat (length prev + i + 1)))
    ∧ (burst rl ≤ Z.of_nat (length prev + i) →
       allowed d = false ∧ reason d = Some "burst_limit_exceeded"
       ∧ remaining d = 0 ∧ retryAfter d = Some (Fin 10)).
Proof.
  induction ts as [|now ts IH]; intros prev rl Hb Hst Hlen Hprev Hsorted i d Hd.
  - by destruct i.
  - apply StronglySorted_inv in Hsorted as [Hsorted Hnow].
    assert (Forall (λ r, in_burst r now) prev) as Hprev_now.
    { eapply Forall_impl; [exact Hprev|]. intros r Hr. by apply Forall_cons in Hr as [? _]. }
    assert (Forall (λ r, Forall (in_burst r) ts) prev) as Hprev_ts.
    { eapply Forall_impl; [exact Hprev|]. intros r Hr. by apply Forall_cons in Hr as [_ ?]. }
    pose proof (refill_in_burst c prev rl now (proj1 Hb) Hst Hprev_now) as Hrefill.
    cbn [check_all] in Hd.
    destruct (checkLimit now c rl) as [d0 rl1] eqn:Echeck.
    destruct (check_all c ts rl1) as [ds rl2] eqn:Erest.
    unfold checkLimit in Echeck. cbv zeta in Echeck. rewrite Hrefill in Echeck.
    cbn [requests RateLimiter.burstTokens] in Echeck.
    destruct (decide (burst rl - Z.of_nat (length prev) ≤ 0)) as [Hout|Hleft].
    + (* no token left: denied, the record stays *)
      injection Echeck as <- <-.
      destruct i as [|i]; cbn in Hd.
      * injection Hd as <-. rewrite Nat.add_0_r. split; [lia|]. intros _. done.
      * assert (in_burst_state c prev
                  (set_clients rl (<[c:={| requests := prev;
                                           burstTokens := burst rl - Z.of_nat (length prev) |}]>
                                     (clients rl)))) as Hst'.
        { right. simpl. by rewrite lookup_insert_eq. }
        match type of Hst' with
        | in_burst_state _ _ ?r => specialize (IH prev r Hb Hst' Hlen Hprev_ts Hsorted i d)
        end.
        rewrite Erest in IH. specialize (IH Hd). cbn [burst requestsPerMinute set_clients] in IH.
        replace (length prev + S i)%nat with (S (length prev + i)) by lia.
        split; [lia|]. intros _. apply IH. lia.
    + rewrite decide_False in Echeck by lia.
      injection Echeck as <- <-.
      destruct i as [|i]; cbn in Hd.
      * injection Hd as <-. rewrite Nat.add_0_r. split; [|lia]. intros _.
        split; [done|]. cbn [remaining]. rewrite length_app. simpl. f_equal; lia.
      * assert (in_burst_state c (prev ++ [now])
                  (set_clients rl (<[c:={| requests := prev ++ [now];
                                           burstTokens := burst rl - Z.of_nat (length prev) - 1 |}]>
                                     (clients rl)))) as Hst'.
        { right. simpl. rewrite lookup_insert_eq, length_app. simpl. do 2 f_equal. lia. }
        match type of Hst' with
        | in_burst_state _ _ ?r => specialize (IH (prev ++ [now]) r Hb Hst')
        end.
        rewrite length_app in IH. simpl in IH.
        rewrite Erest in IH.
        replace (length prev + S i)%nat with (length prev + 1 + i)%nat by lia.
        apply IH; [lia| |done|done].
        apply Forall_app. split; [done|]. by repeat constructor.
Qed.

End BurstFacts.

Section LimiterExtras.
Import RateLimiter.
Import RateLimiterStats (check_all, in_burst, in_burst_state, getStatus, getGlobalStats,
                         count_entry, requestsInWindow, activeClients,
                         totalRequestsInWindow, totalTrackedClients).

Implicit Types (rl : RateLimiter.t) (c : string) (cl : Client) (now : Z).

(** X1.  A burst.  For a caller the limiter does not track yet, with
    [0 <= burst <= requestsPerMinute], calls made in order and all less
    than ten seconds apart are allowed up to the [burst]-th, with
    [remaining] counting down, and every later one is denied for the
    burst with [retryAfter = 10]. *)
Theorem burst_then_denied c (ts : list Z) rl (i : nat) d :
  clients rl !! c = None →
  0 ≤ burst rl ≤ requestsPerMinute rl →
  StronglySorted in_burst ts →
  (check_all c ts rl).1 !! i = Some d →
  (Z.of_nat i < burst rl →
   allowed d = true
   ∧ remaining d = Z.min (requestsPerMinute rl - Z.of_nat (i + 1))
                         (burst rl - Z.of_nat (i + 1)))
  ∧ (burst rl ≤ Z.of_nat i →
     allowed d = false ∧ reason d = Some "burst_limit_exceeded"
     ∧ remaining d = 0 ∧ retryAfter d = Some (Fin 10)).
Proof.
  intros Habsent Hb Hsorted Hd.
  apply (check_all_in_burst c ts [] rl Hb); simpl; try done; [by left | lia].
Qed.

Lemma burst_then_denied_witness :
  let rl := new (Some 60) (Some 2) 60 10 in
  let ds := (check_all "a" [1000; 1500; 9000; 10999] rl).1 in
  (∃ d, ds !! 1%nat = Some d ∧ allowed d = true ∧ remaining d = 0)
  ∧ (∃ d, ds !! 2%nat = Some d ∧ allowed d = false
          ∧ reason d = Some "burst_limit_exceeded" ∧ retryAfter d = Some (Fin 10)).
Proof.
  intros rl ds.
  assert (StronglySorted in_burst [1000; 1500; 9000; 10999]) as Hsorted.
  { unfold in_burst. repeat constructor; lia. }
  split.
  - exists (mkDecision true None 0 (Fin 1500) None). split; [vm_compute; reflexivity|].
    destruct (burst_then_denied "a" [1000; 1500; 9000; 10999] rl 1
                (mkDecision true None 0 (Fin 1500) None)) as [Hin _];
      [reflexivity | vm_compute; split; discriminate | exact Hsorted
      | vm_compute; reflexivity |].
    split; [apply Hin; vm_compute; reflexivity|]. reflexivity.
  - exists (mkDecision false (Some "burst_limit_exceeded") 0 (Fin 19000) (Some (Fin 10))).
    split; [vm_compute; reflexivity|].
    destruct (burst_then_denied "a" [1000; 1500; 9000; 10999] rl 2
                (mkDecision false (Some "burst_limit_exceeded") 0 (Fin 19000) (Some (Fin 10))))
      as [_ Hout];
      [reflexivity | vm_compute; split; discriminate | exact Hsorted
      | vm_compute; reflexivity |].
    destruct Hout as (H1 & H2 & _ & H4); [vm_compute; discriminate|].
    repeat split; assumption.
Defined.

(** A denied check stores the trimmed and refilled record and reports
    nothing remaining. *)
Lemma checkLimit_denied_record now c rl :
  allowed (checkLimit now c rl).1 = false →
  remaining (checkLimit now c rl).1 = 0
  ∧ clients (checkLimit now c rl).2 !! c = Some (refill now c rl).
Proof.
  unfold checkLimit. cbv zeta.
  destruct (decide (burstTokens (refill now c rl) ≤ 0)) as [Hb|Hb];
    [|destruct (decide (requestsPerMinute rl
                        ≤ Z.of_nat (length (requests (refill now c rl))))) as [Hw|Hw]];
    cbn [fst snd remaining allowed clients set_clients]; intros Hden;
    try discriminate; (split; [done|]); by rewrite lookup_insert_eq.
Qed.

(** X2.  [remaining] is never negative, and a denied check consumes
    nothing: it records no timestamp and takes no token, the caller's
    record is the trimmed and refilled one. *)
Theorem denied_check_consumes_nothing now c rl :
  let d := (checkLimit now c rl).1 in
  0 ≤ remaining d
  ∧ (allowed d = false →
     remaining d = 0
     ∧ clients (checkLimit now c rl).2 !! c = Some (refill now c rl)).
Proof.
  unfold checkLimit. cbv zeta.
  destruct (decide (burstTokens (refill now c rl) ≤ 0)) as [Hb|Hb];
    [|destruct (decide (requestsPerMinute rl
                        ≤ Z.of_nat (length (requests (refill now c rl))))) as [Hw|Hw]];
    cbn [fst snd remaining allowed clients set_clients].
  - split; [done|]. intros _. by rewrite lookup_insert_eq.
  - split; [done|]. intros _. by rewrite lookup_insert_eq.
  - split; [|discriminate]. cbn [requests burstTokens]. rewrite length_app. cbn [length]. lia.
Qed.

(** X3.  A denial for the window names the instant at which the oldest
    timestamp of the window leaves it: [resetTime] is that timestamp plus
    60 s, it lies in the future, and [retryAfter] is the time until then
    rounded up to whole seconds, at least one. *)
Theorem window_denial_retryAfter now c rl :
  reason (checkLimit now c rl).1 = Some "rate_limit_exceeded" →
  1 ≤ requestsPerMinute rl →
  ∃ oldest s,
    oldest ∈ requests (refill now c rl)
    ∧ Forall (λ r, oldest ≤ r) (requests (refill now c rl))
    ∧ resetTime (checkLimit now c rl).1 = Fin (oldest + 60000)
    ∧ retryAfter (checkLimit now c rl).1 = Some (Fin s)
    ∧ now < oldest + 60000
    ∧ 1 ≤ s ∧ (s - 1) * 1000 < oldest + 60000 - now ≤ s * 1000.
Proof.
  unfold checkLimit. cbv zeta.
  destruct (decide (burstTokens (refill now c rl) ≤ 0)) as [Hb|Hb];
    [|destruct (decide (requestsPerMinute rl
                        ≤ Z.of_nat (length (requests (refill now c rl))))) as [Hw|Hw]];
    cbn [fst reason resetTime retryAfter]; try discriminate.
  intros _ Hrpm.
  pose proof (trim_window (now - 60000) (requests (get_or_create c rl))) as Hwin.
  change (trim (now - 60000) (requests (get_or_create c rl)))
    with (requests (refill now c rl)) in Hwin.
  destruct (requests (refill now c rl)) as [|r rs] eqn:Ereq; [simpl in Hw; lia|].
  exists (Math_min r rs), (ceil_div (Math_min r rs + 60000 - now) 1000).
  pose proof (Math_min_elem r rs) as Hin.
  rewrite Forall_forall in Hwin. pose proof (Hwin _ Hin) as Hold.
  split; [done|]. split.
  { rewrite Forall_forall. intros x Hx. by apply Math_min_le. }
  split; [done|]. split; [done|]. split; [lia|].
  unfold ceil_div.
  pose proof (Z.div_mod (- (Math_min r rs + 60000 - now)) 1000 ltac:(lia)) as Hdm.
  pose proof (Z.mod_pos_bound (- (Math_min r rs + 60000 - now)) 1000 ltac:(lia)) as Hm.
  lia.
Qed.

Lemma window_denial_retryAfter_witness :
  let rl := (checkLimit 1500 "a" (checkLimit 1000 "a" (new (Some 2) (Some 5) 60 10)).2).2 in
  ∃ oldest s,
    oldest ∈ requests (refill 2000 "a" rl)
    ∧ Forall (λ r, oldest ≤ r) (requests (refill 2000 "a" rl))
    ∧ resetTime (checkLimit 2000 "a" rl).1 = Fin (oldest + 60000)
    ∧ retryAfter (checkLimit 2000 "a" rl).1 = Some (Fin s)
    ∧ 2000 < oldest + 60000
    ∧ 1 ≤ s ∧ (s - 1) * 1000 < oldest + 60000 - 2000 ≤ s * 1000.
Proof.
  apply (window_denial_retryAfter 2000 "a"
           (checkLimit 1500 "a" (checkLimit 1000 "a" (new (Some 2) (Some 5) 60 10)).2).2).
  - vm_compute. reflexivity.
  - vm_compute. discriminate.
Defined.

End LimiterExtras.

Section LimiterInvariants.
Import RateLimiter RateLimiterLog.
Import RateLimiterStats (getStatus, getGlobalStats, count_entry, requestsInWindow,
                         activeClients, totalRequestsInWindow, totalTrackedClients).

Implicit Types (rl : RateLimiter.t) (c : string) (cl : Client) (now : Z).

Lemma trim_length windowStart (rs : list Z) : (length (trim windowStart rs) ≤ length rs)%nat.
Proof. unfold trim. apply length_filter. Qed.

Lemma trim_none windowStart (rs : list Z) :
  Forall (λ ts, ts ≤ windowStart) rs → trim windowStart rs = [].
Proof.
  unfold trim. induction 1 as [|r rs Hr _ IH]; [done|].
  rewrite filter_cons_False by lia. exact IH.
Qed.

Lemma refill_length now c rl (bound : Z) :
  0 ≤ bound →
  (∀ cl, clients rl !! c = Some cl → Z.of_nat (length (requests cl)) ≤ bound) →
  Z.of_nat (length (requests (refill now c rl))) ≤ bound.
Proof.
  intros Hb Hcl. unfold refill, get_or_create. cbn [requests].
  destruct (clients rl !! c) as [cl|] eqn:E; cbn [requests].
  - pose proof (trim_length (now - 60000) (requests cl)). specialize (Hcl cl eq_refl). lia.
  - unfold trim. simpl. lia.
Qed.

Lemma step_window_bound o rl :
  0 ≤ requestsPerMinute rl →
  (∀ c cl, clients rl !! c = Some cl →
     Z.of_nat (length (requests cl)) ≤ requestsPerMinute rl) →
  ∀ c cl, clients (step o rl) !! c = Some cl →
    Z.of_nat (length (requests cl)) ≤ requestsPerMinute rl.
Proof.
  intros Hrpm Hinv c cl. destruct o as [now c' | now | c']; simpl.
  - pose proof (refill_length now c' rl _ Hrpm (Hinv c')) as Hlen.
    unfold checkLimit. cbv zeta.
    destruct (decide (burstTokens (refill now c' rl) ≤ 0)) as [Hb|Hb];
      [|destruct (decide (requestsPerMinute rl
                          ≤ Z.of_nat (length (requests (refill now c' rl))))) as [Hw|Hw]];
      cbn [snd clients set_clients]; rewrite lookup_insert; case_decide;
      try (by apply Hinv); intros [= <-]; try done.
    cbn [requests]. rewrite length_app. cbn [length].
    change (trim (now - 60000) (requests (get_or_create c' rl)))
      with (requests (refill now c' rl)).
    lia.
  - intros Hc. apply cleanup_lookup in Hc. by apply (Hinv c).
  - intros Hc. apply resetClient_lookup in Hc. by apply (Hinv c).
Qed.

Lemma run_window_bound rl0 (ops : list op) c cl :
  clients rl0 = ∅ →
  0 ≤ requestsPerMinute rl0 →
  clients (run ops rl0) !! c = Some cl →
  Z.of_nat (length (requests cl)) ≤ requestsPerMinute rl0.
Proof.
  intros Hempty Hrpm. revert c cl.
  induction ops as [|o ops IH] using rev_ind; intros c cl.
  - simpl. rewrite Hempty, lookup_empty. discriminate.
  - rewrite run_snoc. destruct (run_config ops rl0) as [Hr _].
    rewrite <- Hr. apply step_window_bound; rewrite Hr; done.
Qed.

Lemma trim_trim y z (rs : list Z) : z ≤ y → trim y (trim z rs) = trim y rs.
Proof.
  intros Hle. unfold trim. induction rs as [|r rs IH]; [done|].
  destruct (decide (z < r)) as [Hz|Hz].
  - rewrite (filter_cons_True (λ ts, z < ts)) by done.
    destruct (decide (y < r)) as [Hy|Hy].
    + rewrite !(filter_cons_True (λ ts, y < ts)) by done. by rewrite IH.
    + rewrite !(filter_cons_False (λ ts, y < ts)) by done. exact IH.
  - rewrite (filter_cons_False (λ ts, z < ts)) by done.
    rewrite (filter_cons_False (λ ts, y < ts)) by lia. exact IH.
Qed.

Lemma window_after_trim x z (h : list Z) :
  z ≤ x → (length (window_after x h) ≤ length (trim z h))%nat.
Proof.
  intros Hle. unfold window_after, trim. induction h as [|r h IH]; [done|].
  destruct (decide (x < r ≤ x + 60000)) as [Hx|Hx].
  - rewrite (filter_cons_True (λ ts, x < ts ≤ x + 60000)) by done.
    rewrite (filter_cons_True (λ ts, z < ts)) by lia. simpl. lia.
  - rewrite (filter_cons_False (λ ts, x < ts ≤ x + 60000)) by done.
    destruct (decide (z < r)) as [Hz|Hz].
    + rewrite (filter_cons_True (λ ts, z < ts)) by done. simpl. lia.
    + by rewrite (filter_cons_False (λ ts, z < ts)) by done.
Qed.

Lemma stored_ext c rl1 rl2 :
  clients rl1 !! c = clients rl2 !! c →
  requests (get_or_create c rl1) = requests (get_or_create c rl2).
Proof. unfold get_or_create. intros ->. by destruct (clients rl2 !! c). Qed.

(** What a check of [c] leaves in the record of [c], by its answer. *)
Lemma checkLimit_record now c rl :
  let client := refill now c rl in
  (allowed (checkLimit now c rl).1 = false
   ∧ clients (checkLimit now c rl).2 !! c = Some client)
  ∨ (allowed (checkLimit now c rl).1 = true
     ∧ Z.of_nat (length (requests client)) < requestsPerMinute rl
     ∧ clients (checkLimit now c rl).2 !! c
       = Some {| requests := requests client ++ [now];
                 burstTokens := burstTokens client - 1 |}).
Proof.
  unfold checkLimit. cbv zeta.
  destruct (decide (burstTokens (refill now c rl) ≤ 0)) as [Hb|Hb];
    [|destruct (decide (requestsPerMinute rl
                        ≤ Z.of_nat (length (requests (refill now c rl))))) as [Hw|Hw]];
    cbn [fst snd allowed clients set_clients]; rewrite lookup_insert_eq;
    [by left | by left | right].
  split; [done|]. split; [lia|done].
Qed.

Lemma tracks_later c t t' rl rl' h :
  t ≤ t' →
  requestsPerMinute rl' = requestsPerMinute rl →
  clients rl' !! c = clients rl !! c →
  tracks c t rl h → tracks c t' rl' h.
Proof.
  intros Hle Hrpm Hsame (Hpast & Hagree & Hwin). split; [|split].
  - eapply Forall_impl; [exact Hpast|]. simpl. lia.
  - intros y Hy. rewrite (stored_ext c rl' rl Hsame). apply Hagree. lia.
  - intros x. rewrite Hrpm. apply Hwin.
Qed.

Lemma step_tracks c t o rl h :
  tracks c t rl h → monotone_from t [o] → o ≠ OpReset c →
  ∃ t', tracks c t' (step o rl) (h ++ admitted_by c o rl)
        ∧ ∀ ops, monotone_from t (o :: ops) → monotone_from t' ops.
Proof.
  intros Htr Hmono Hreset.
  destruct (step_config o rl) as [Hrpm _].
  destruct o as [now c' | now | c']; simpl in Hmono; cbn [admitted_by].
  - destruct Hmono as [Hle _]. exists now. split; [|by intros ops [_ ?]].
    destruct (decide (c' = c)) as [->|Hne].
    2: { rewrite app_nil_r. apply (tracks_later c t now rl); [done|done| |done].
         simpl. destruct (checkLimit_shape now c' rl) as (cl' & -> & _). simpl.
         by rewrite lookup_insert_ne. }
    destruct Htr as (Hpast & Hagree & Hwin).
    assert (requests (refill now c rl) = trim (now - 60000) h) as Hrs.
    { unfold refill. cbn [requests]. apply Hagree. lia. }
    assert (∀ y, now - 60000 ≤ y → trim y (requests (refill now c rl)) = trim y h) as Hnew.
    { intros y Hy. rewrite Hrs. by apply trim_trim. }
    simpl in Hrpm. simpl.
    destruct (checkLimit_record now c rl) as [[Hden Hrec] | (Hok & Hroom & Hrec)].
    + rewrite Hden, app_nil_r. split; [|split].
      * eapply Forall_impl; [exact Hpast|]. simpl. lia.
      * intros y Hy. unfold get_or_create. rewrite Hrec. by apply Hnew.
      * intros x. rewrite Hrpm. apply Hwin.
    + rewrite Hok. split; [|split].
      * apply Forall_app. split; [|by repeat constructor].
        eapply Forall_impl; [exact Hpast|]. simpl. lia.
      * intros y Hy. unfold get_or_create. rewrite Hrec. cbn [requests].
        unfold trim. rewrite !filter_app. f_equal. exact (Hnew y Hy).
      * intros x. rewrite Hrpm. unfold window_after. rewrite filter_app, length_app.
        destruct (decide (x < now ≤ x + 60000)) as [Hin|Hout].
        -- rewrite (filter_cons_True (λ ts, x < ts ≤ x + 60000)) by done.
           rewrite filter_nil. cbn [length].
           pose proof (window_after_trim x (now - 60000) h ltac:(lia)) as Hcount.
           rewrite <- Hrs in Hcount. unfold window_after in Hcount. lia.
        -- rewrite (filter_cons_False (λ ts, x < ts ≤ x + 60000)) by done.
           rewrite filter_nil. cbn [length]. specialize (Hwin x).
           unfold window_after in Hwin. lia.
  - destruct Hmono as [Hle _]. exists now. split; [|by intros ops [_ ?]].
    rewrite app_nil_r. simpl.
    destruct (clients rl !! c) as [cl|] eqn:Ec.
    2: { apply (tracks_later c t now rl); [done|done| |done].
         unfold cleanup. cbn [clients set_clients].
         rewrite Ec. apply map_lookup_filter_None. by left. }
    destruct (decide (hasRecentRequests (now - 300000) cl)) as [Hrecent|Hidle].
    { apply (tracks_later c t now rl); [done|done| |done].
      unfold cleanup. cbn [clients set_clients]. rewrite Ec.
      by apply map_lookup_filter_Some. }
    destruct Htr as (Hpast & Hagree & Hwin).
    assert (clients (cleanup now rl) !! c = None) as Hgone.
    { unfold cleanup. cbn [clients set_clients]. apply map_lookup_filter_None. right.
      intros cl' Hcl'. rewrite Ec in Hcl'. by injection Hcl' as <-. }
    unfold hasRecentRequests in Hidle. rewrite <- Forall_Exists_neg in Hidle.
    split; [|split].
    + eapply Forall_impl; [exact Hpast|]. simpl. lia.
    + intros y Hy. unfold get_or_create at 1. rewrite Hgone. cbn [requests].
      rewrite <- Hagree by lia. unfold get_or_create. rewrite Ec. symmetry.
      apply trim_none. eapply Forall_impl; [exact Hidle|]. simpl. lia.
    + intros x. apply Hwin.
  - exists t. split; [|done]. rewrite app_nil_r.
    apply (tracks_later c t t rl); [lia|done| |done].
    simpl. unfold resetClient. destruct (clients rl !! c') eqn:E; [|done]. simpl.
    apply lookup_delete_ne. congruence.
Qed.

Lemma run_tracks c (ops : list op) : ∀ t rl h,
  tracks c t rl h → monotone_from t ops → never_reset c ops →
  ∃ t', tracks c t' (run ops rl) (h ++ admitted c ops rl).
Proof.
  induction ops as [|o ops IH]; intros t rl h Htr Hmono Hnever.
  - exists t. simpl. by rewrite app_nil_r.
  - apply Forall_cons in Hnever as [Ho Hnever].
    destruct (step_tracks c t o rl h Htr (monotone_from_cons _ _ _ Hmono) Ho)
      as (t' & Htr' & Hnext).
    change (run (o :: ops) rl) with (run ops (step o rl)).
    cbn [admitted]. rewrite app_assoc.
    apply (IH t' (step o rl)); [done | by apply Hnext | done].
Qed.

(** X4.  No more than [requestsPerMinute] requests a minute.  From an
    empty limiter, along a script whose clock does not run backwards and
    that never resets the caller, the checks of a caller that are admitted
    in any 60 seconds are at most [requestsPerMinute], whatever the other
    callers do and whenever the sweep runs.  ([resetClient] is left out
    because it forgets the caller's window.) *)
Theorem window_never_exceeds_limit rl0 (ops : list op) (t0 : Z) c :
  clients rl0 = ∅ →
  0 ≤ requestsPerMinute rl0 →
  monotone_from t0 ops →
  never_reset c ops →
  ∀ x, Z.of_nat (length (window_after x (admitted c ops rl0))) ≤ requestsPerMinute rl0.
Proof.
  intros Hempty Hrpm Hmono Hnever x.
  destruct (run_tracks c ops t0 rl0 [] ) as (t' & _ & _ & Hwin); [|done|done|].
  - split; [constructor|]. split; [|intros x'; simpl; lia].
    intros y _. unfold get_or_create. by rewrite Hempty, lookup_empty.
  - specialize (Hwin x). destruct (run_config ops rl0) as [Hr _].
    rewrite Hr in Hwin. exact Hwin.
Qed.

Lemma window_never_exceeds_limit_witness :
  let ops := [OpCheck 0 "a"; OpCheck 10 "a"; OpCheck 20 "a"; OpCheck 25 "b";
              OpCleanup 30; OpCheck 60001 "a"] in
  admitted "a" ops (new (Some 2) (Some 5) 60 10) = [0; 10; 60001]
  ∧ Z.of_nat (length (window_after 5 (admitted "a" ops (new (Some 2) (Some 5) 60 10)))) ≤ 2.
Proof.
  intros ops. split; [vm_compute; reflexivity|].
  apply (window_never_exceeds_limit (new (Some 2) (Some 5) 60 10) ops 0 "a").
  - reflexivity.
  - vm_compute. discriminate.
  - simpl. lia.
  - repeat constructor; discriminate.
Defined.

(** X5.  Callers are isolated: a check for one caller leaves every other
    caller's record as it was, and does not change what a check for
    another caller decides or records. *)
Theorem callers_are_isolated now now' c c' rl :
  c ≠ c' →
  clients (checkLimit now' c' rl).2 !! c = clients rl !! c
  ∧ (checkLimit now c (checkLimit now' c' rl).2).1 = (checkLimit now c rl).1
  ∧ clients (checkLimit now c (checkLimit now' c' rl).2).2 !! c
    = clients (checkLimit now c rl).2 !! c.
Proof.
  intros Hne.
  assert (clients (checkLimit now' c' rl).2 !! c = clients rl !! c) as Hsame.
  { destruct (checkLimit_shape now' c' rl) as (cl' & -> & _). simpl.
    by rewrite lookup_insert_ne. }
  split; [done|].
  destruct (step_config (OpCheck now' c') rl) as [Hr Hb]. simpl in Hr, Hb.
  by apply checkLimit_ext.
Qed.

Lemma callers_are_isolated_witness :
  let rl := (checkLimit 0 "a" (new None (Some 1) 60 10)).2 in
  clients (checkLimit 5 "b" rl).2 !! "a" = clients rl !! "a"
  ∧ (checkLimit 7 "a" (checkLimit 5 "b" rl).2).1 = (checkLimit 7 "a" rl).1
  ∧ clients (checkLimit 7 "a" (checkLimit 5 "b" rl).2).2 !! "a"
    = clients (checkLimit 7 "a" rl).2 !! "a".
Proof.
  apply (callers_are_isolated 7 5 "a" "b" (checkLimit 0 "a" (new None (Some 1) 60 10)).2).
  discriminate.
Defined.

(** What [checkLimit] decides and records for a caller is a function of
    the limits and of the refilled record. *)
Lemma checkLimit_refill_ext now c rl1 rl2 :
  requestsPerMinute rl1 = requestsPerMinute rl2 →
  refill now c rl1 = refill now c rl2 →
  (checkLimit now c rl1).1 = (checkLimit now c rl2).1
  ∧ clients (checkLimit now c rl1).2 !! c = clients (checkLimit now c rl2).2 !! c.
Proof.
  intros Hr Hrefill. unfold checkLimit. cbv zeta. rewrite Hrefill, Hr.
  repeat case_decide; cbn [fst snd clients set_clients]; by rewrite !lookup_insert_eq.
Qed.

(** X6.  The sweep is invisible to admission.  Along a clock that does not
    run backwards, a [cleanup] before a check changes neither the decision
    of the check nor the record it leaves for the caller. *)
Theorem sweep_is_transparent rl0 (ops : list op) (t0 sweep now : Z) c :
  clients rl0 = ∅ → 0 ≤ burst rl0 →
  monotone_from t0 (ops ++ [OpCleanup sweep; OpCheck now c]) →
  let rl := run ops rl0 in
  (checkLimit now c (cleanup sweep rl)).1 = (checkLimit now c rl).1
  ∧ clients (checkLimit now c (cleanup sweep rl)).2 !! c
    = clients (checkLimit now c rl).2 !! c.
Proof.
  intros Hempty Hb Hmono rl. subst rl.
  destruct (run_well_formed ops t0 rl0 [OpCleanup sweep; OpCheck now c] Hb Hmono)
    as (t' & Hwf & Hle1 & Hle2 & _).
  { intros c' cl'. rewrite Hempty, lookup_empty. discriminate. }
  destruct (run_config ops rl0) as [_ Hbr].
  set (rl := run ops rl0) in *.
  apply checkLimit_refill_ext; [done|].
  destruct (clients (cleanup sweep rl) !! c) as [cl|] eqn:Eswept.
  - apply refill_ext; [done|]. rewrite Eswept. symmetry. by apply cleanup_lookup in Eswept.
  - destruct (clients rl !! c) as [cl|] eqn:Ec.
    2: { apply refill_ext; [done|]. by rewrite Eswept, Ec. }
    unfold cleanup in Eswept. cbn [clients set_clients] in Eswept.
    apply map_lookup_filter_None in Eswept as [Eswept|Hno]; [congruence|].
    specialize (Hno cl Ec). unfold hasRecentRequests in Hno. simpl in Hno.
    rewrite <- Forall_Exists_neg in Hno.
    destruct (Hwf c cl Ec) as [Htok _].
    assert (trim (now - 60000) (requests cl) = []) as Htrim.
    { apply trim_none. eapply Forall_impl; [exact Hno|]. simpl. lia. }
    unfold refill, get_or_create. rewrite Ec.
    change (clients (cleanup sweep rl) !! c)
      with (filter (λ kv, hasRecentRequests (sweep - 300000) kv.2) (clients rl) !! c).
    assert (filter (λ kv, hasRecentRequests (sweep - 300000) kv.2) (clients rl) !! c = None)
      as ->.
    { apply map_lookup_filter_None. right. intros cl' Hcl'.
      rewrite Ec in Hcl'. injection Hcl' as <-. unfold hasRecentRequests. simpl.
      by rewrite <- Forall_Exists_neg. }
    cbn [requests burstTokens]. rewrite Htrim. unfold trim. simpl.
    change (burst (cleanup sweep rl)) with (burst rl). f_equal. lia.
Qed.

Lemma sweep_is_transparent_witness :
  let rl := run [OpCheck 1000 "a"; OpCheck 2000 "a"] (new None None 60 10) in
  (checkLimit 400000 "a" (cleanup 350000 rl)).1 = (checkLimit 400000 "a" rl).1
  ∧ clients (checkLimit 400000 "a" (cleanup 350000 rl)).2 !! "a"
    = clients (checkLimit 400000 "a" rl).2 !! "a".
Proof.
  apply (sweep_is_transparent (new None None 60 10)
           [OpCheck 1000 "a"; OpCheck 2000 "a"] 0 350000 400000 "a").
  - reflexivity.
  - vm_compute. discriminate.
  - simpl. lia.
Defined.

End LimiterInvariants.

Section LimiterViews.
Import RateLimiter.
Import RateLimiterStats (getStatus, getGlobalStats, count_entry, requestsInWindow,
                         activeClients, totalRequestsInWindow, totalTrackedClients).

Implicit Types (rl : RateLimiter.t) (c : string) (cl : Client) (now : Z).

(** X7.  [resetClient] answers whether the caller was tracked, forgets
    that caller and no other, answers [false] when asked again, and
    answers [true] right after any check of the caller; the caller's next
    check starts from an empty window. *)
Theorem resetClient_forgets c rl :
  ((resetClient c rl).1 = true ↔ is_Some (clients rl !! c))
  ∧ clients (resetClient c rl).2 !! c = None
  ∧ (∀ c', c' ≠ c → clients (resetClient c rl).2 !! c' = clients rl !! c')
  ∧ (resetClient c (resetClient c rl).2).1 = false
  ∧ (∀ now, (resetClient c (checkLimit now c rl).2).1 = true)
  ∧ (∀ now, requests (refill now c (resetClient c rl).2) = []).
Proof.
  assert (clients (resetClient c rl).2 !! c = None) as Hgone.
  { unfold resetClient. destruct (clients rl !! c) eqn:E; simpl; [|done].
    apply lookup_delete_eq. }
  split; [|split; [done|split; [|split; [|split]]]].
  - unfold resetClient. destruct (clients rl !! c) eqn:E; simpl.
    + split; [eauto | done].
    + split; [discriminate | by intros [? ?]].
  - intros c' Hne. unfold resetClient. destruct (clients rl !! c) eqn:E; simpl; [|done].
    by apply lookup_delete_ne.
  - unfold resetClient at 1. by rewrite Hgone.
  - intros now. destruct (checkLimit_shape now c rl) as (cl' & -> & _).
    unfold resetClient. simpl. by rewrite lookup_insert_eq.
  - intros now. unfold refill, get_or_create. by rewrite Hgone.
Qed.



Lemma count_entries windowStart (l : list (string * Client)) : ∀ acc,
  ∃ a t, foldl (count_entry windowStart) acc l = (acc.1 + a, acc.2 + t)%nat
         ∧ (a ≤ length l)%nat ∧ (a ≤ t)%nat ∧ (a = 0%nat → t = 0%nat)
         ∧ (Forall (λ kv, trim windowStart (requests kv.2) = []) l → a = 0%nat).
Proof.
  induction l as [|kv l IH]; intros acc.
  - exists 0%nat, 0%nat. simpl. rewrite !Nat.add_0_r. by destruct acc.
  - cbn [foldl]. destruct (IH (count_entry windowStart acc kv)) as (a & t & -> & Ha & Hat & H0 & Hnone).
    unfold count_entry. case_decide as Hpos; cbn [fst snd].
    + exists (S a), (length (trim windowStart (requests kv.2)) + t)%nat.
      split; [f_equal; lia|]. simpl. split; [lia|]. split; [lia|]. split; [lia|].
      intros Hall. apply Forall_cons in Hall as [Hkv _]. rewrite Hkv in Hpos. simpl in Hpos. lia.
    + exists a, t. split; [done|]. simpl. split; [lia|]. split; [done|]. split; [done|].
      intros Hall. apply Forall_cons in Hall as [_ Hall]. by apply Hnone.
Qed.

(** X9.  [getGlobalStats] counts consistently: the tracked callers are the
    entries of the map, the active callers are among them, every active
    caller contributes at least one request to the total, and the total is
    zero exactly when no caller is active. *)
Theorem getGlobalStats_consistent now rl :
  let stats := getGlobalStats now rl in
  totalTrackedClients stats = size (clients rl)
  ∧ (activeClients stats ≤ totalTrackedClients stats)%nat
  ∧ (activeClients stats ≤ totalRequestsInWindow stats)%nat
  ∧ (activeClients stats = 0%nat ↔ totalRequestsInWindow stats = 0%nat)
  ∧ (clients rl = ∅ → activeClients stats = 0%nat).
Proof.
  unfold getGlobalStats. cbv zeta.
  cbn [totalTrackedClients activeClients totalRequestsInWindow].
  destruct (count_entries (now - 60000) (map_to_list (clients rl)) (0, 0)%nat)
    as (a & t & -> & Ha & Hat & H0 & Hnone).
  cbn [fst snd]. rewrite length_map_to_list in Ha.
  split; [done|]. split; [lia|]. split; [lia|]. split; [split; [auto|lia]|].
  intros Hempty. simpl. apply Hnone. rewrite Hempty, map_to_list_empty. constructor.
Qed.

End LimiterViews.

(* ===================================================================== *)
(** ** Further properties of the API client *)
(* ===================================================================== *)

Section RetryFacts.
Import JS PapertrailClient PapertrailClientOps.

Implicit Types (w : World) (e : Endpoint) (self : PapertrailClient.t).

Lemma attempt_dichotomy (o : FetchOutcome) :
  attempt_throws o ∨ ∃ v, attempt_returns o v.
Proof.
  destruct o as [msg|status text [v|]]; simpl; [by left| |left; by right].
  destruct (ok status) eqn:Hok; [|left; by left].
  right. exists v, status, text. done.
Qed.

Lemma attempt_once_throws e w :
  attempt_throws (upcoming w 0) →
  attempt_once e w = (Throw (attempt_error (upcoming w 0)), fetched_once e w).
Proof.
  rewrite upcoming_0. unfold attempt_once, bind, fetch, fetched_once.
  destruct (network w (fetched w)) as [latency [msg|status text json]]; simpl; [done|].
  intros [Hok | ->]; [by rewrite Hok|]. by destruct (ok status).
Qed.

Lemma attempt_once_returns e w v :
  attempt_returns (upcoming w 0) v →
  attempt_once e w = (Normal v, fetched_once e w).
Proof.
  rewrite upcoming_0. intros (status & text & Ho & Hok).
  destruct (network w (fetched w)) as [latency o] eqn:Hnet. simpl in Ho. subst o.
  by apply (attempt_once_succeeds e w latency status text v).
Qed.

Lemma advanced_fetched_once e w : advanced w 1 (fetched_once e w).
Proof. unfold advanced, fetched_once. simpl. repeat split; lia. Qed.

Lemma upcoming_advanced w n w' i : advanced w n w' → upcoming w' i = upcoming w (n + i).
Proof.
  intros (Hnet & Hf & _). unfold upcoming. rewrite Hnet, Hf. do 2 f_equal. lia.
Qed.

Lemma advanced_trans w1 w2 w3 n m :
  advanced w1 n w2 → advanced w2 m w3 → advanced w1 (n + m) w3.
Proof.
  intros (Hn1 & Hf1 & Hl1) (Hn2 & Hf2 & Hl2). unfold advanced.
  rewrite Hn2, Hn1, Hf2, Hf1, Hl2, Hl1. repeat split; lia.
Qed.

(** Every way the loop of [makeRequest] can go: the attempts throw up to
    some attempt that returns, or they all throw. *)
Lemma loop_outcomes self e (n : nat) : ∀ attempt lastError w,
  (∃ (k : nat) v w',
      (k < n)%nat
      ∧ (∀ i, (i < k)%nat → attempt_throws (upcoming w i))
      ∧ attempt_returns (upcoming w k) v
      ∧ makeRequest_loop self e n attempt lastError w = (Normal v, w')
      ∧ trace w' = trace w ++ retry_events (maxRetries self) e k attempt ++ [EvFetch e]
      ∧ advanced w (S k) w')
  ∨ (∃ w',
      (∀ i, (i < n)%nat → attempt_throws (upcoming w i))
      ∧ makeRequest_loop self e n attempt lastError w
        = (Throw (exhausted self
                    match n with
                    | O => lastError
                    | S m => Some (attempt_error (upcoming w m))
                    end), w')
      ∧ trace w' = trace w ++ retry_events (maxRetries self) e n attempt
      ∧ advanced w n w').
Proof.
  induction n as [|n IH]; intros attempt lastError w.
  - right. exists w. split; [intros i Hi; lia|]. split; [done|].
    simpl. rewrite app_nil_r. unfold advanced. repeat split; lia.
  - cbn [makeRequest_loop]. unfold catch.
    destruct (attempt_dichotomy (upcoming w 0)) as [Hthrow | [v Hret]].
    2: { left. exists 0%nat, v, (fetched_once e w).
         rewrite (attempt_once_returns e w v Hret).
         split; [lia|]. split; [intros i Hi; lia|]. split; [done|]. split; [done|].
         split; [done|]. apply advanced_fetched_once. }
    rewrite (attempt_once_throws e w Hthrow).
    set (err0 := attempt_error (upcoming w 0)).
    set (w1 := fetched_once e w).
    set (pause := if decide (attempt < maxRetries self)
                  then sleep (2 ^ (attempt - 1) * 1000) else ret tt).
    assert (∃ w2, pause w1 = (Normal tt, w2) ∧ advanced w1 0 w2
                  ∧ trace w2 = trace w1 ++ (if decide (attempt < maxRetries self)
                                            then [EvSleep (2 ^ (attempt - 1) * 1000)]
                                            else []))
      as (w2 & Hpause & Hadv2 & Htr2).
    { subst pause. unfold advanced. case_decide.
      - eexists. split; [reflexivity|]. simpl. repeat split; lia.
      - exists w1. split; [reflexivity|]. rewrite app_nil_r. repeat split; lia. }
    rewrite (bind_eq _ _ _ _ _ Hpause).
    pose proof (advanced_trans _ _ _ _ _ (advanced_fetched_once e w) Hadv2) as Hadv.
    fold w1 in Hadv. simpl in Hadv.
    assert (∀ i, upcoming w2 i = upcoming w (S i)) as Hup.
    { intros i. by rewrite (upcoming_advanced w 1 w2 i Hadv). }
    assert (trace w2 = trace w ++ (EvFetch e :: if decide (attempt < maxRetries self)
                                               then [EvSleep (2 ^ (attempt - 1) * 1000)]
                                               else [])) as Htr.
    { rewrite Htr2. subst w1. cbn [trace fetched_once]. by rewrite <- app_assoc. }
    destruct (IH (attempt + 1) (Some err0) w2)
      as [(k & v & w' & Hk & Hfail & Hret & Hrun & Htr' & Hadv')
         | (w' & Hfail & Hrun & Htr' & Hadv')].
    + left. exists (S k), v, w'. split; [lia|]. split.
      { intros [|i] Hi; [done|]. rewrite <- Hup. apply Hfail. lia. }
      split; [by rewrite <- Hup|]. split; [done|]. split.
      * rewrite Htr', Htr. cbn [retry_events]. by rewrite <- !app_assoc.
      * pose proof (advanced_trans _ _ _ _ _ Hadv Hadv') as H. exact H.
    + right. exists w'. split.
      { intros [|i] Hi; [done|]. rewrite <- Hup. apply Hfail. lia. }
      split.
      * rewrite Hrun. do 3 f_equal. destruct n as [|m]; [done|]. by rewrite Hup.
      * split.
        -- rewrite Htr', Htr. cbn [retry_events]. by rewrite <- !app_assoc.
        -- pose proof (advanced_trans _ _ _ _ _ Hadv Hadv') as H. exact H.
Qed.

(** The log of [k] failed attempts that are all followed by a back-off. *)
Lemma retry_events_sleeps_prefix maxR e (k : nat) : ∀ attempt,
  attempt + Z.of_nat k ≤ maxR →
  sleeps (retry_events maxR e k attempt)
  = (λ a, 2 ^ (a - 1) * 1000) <$> seqZ attempt (Z.of_nat k).
Proof.
  induction k as [|k IH]; intros attempt Hle.
  - cbn [retry_events]. by rewrite seqZ_nil by lia.
  - cbn [retry_events]. rewrite sleeps_app, IH by lia.
    rewrite decide_True by lia.
    rewrite (seqZ_cons attempt) by lia.
    replace (Z.succ attempt) with (attempt + 1) by lia.
    replace (Z.pred (Z.of_nat (S k))) with (Z.of_nat k) by lia.
    reflexivity.
Qed.

Lemma retry_events_sleeps_length maxR e (n : nat) : ∀ attempt,
  (length (sleeps (retry_events maxR e n attempt)) ≤ n)%nat
  ∧ (attempt + Z.of_nat n = maxR + 1 →
     length (sleeps (retry_events maxR e n attempt)) = pred n).
Proof.
  induction n as [|n IH]; intros attempt; [done|].
  cbn [retry_events]. rewrite sleeps_app, length_app.
  destruct (IH (attempt + 1)) as [Hle Heq].
  case_decide; cbn [sleeps omap length]; (split; [simpl; lia|]); intros Hsum.
  - rewrite Heq by lia. simpl. destruct n; [lia|]. simpl. lia.
  - assert (n = 0%nat) as -> by lia. done.
Qed.

End RetryFacts.

Section RetryExtras.
Import JS PapertrailClient PapertrailClientOps.

Implicit Types (w : World) (e : Endpoint) (self : PapertrailClient.t).

Lemma attempt_exclusive (o : FetchOutcome) v :
  attempt_throws o → attempt_returns o v → False.
Proof.
  intros Hthrow (status & text & -> & Hok). simpl in Hthrow.
  destruct Hthrow as [H|H]; congruence.
Qed.

(** X10.  Retries are transparent.  When the first [k] attempts throw
    (rejected [fetch], non-2xx status, or a 2xx body that is not JSON) and
    attempt [k + 1], still within [maxRetries], returns a JSON value,
    [makeRequest] returns that value after [k + 1] requests to the same
    endpoint, having slept 1 s, 2 s, ..., [2^(k-1)] s in between. *)
Theorem makeRequest_recovers self e w (k : nat) v :
  (k < Z.to_nat (maxRetries self))%nat →
  (∀ i, (i < k)%nat → attempt_throws (upcoming w i)) →
  attempt_returns (upcoming w k) v →
  ∃ w', makeRequest self e w = (Normal v, w')
        ∧ trace w' = trace w ++ retry_events (maxRetries self) e k 1 ++ [EvFetch e]
        ∧ fetches (retry_events (maxRetries self) e k 1 ++ [EvFetch e]) = replicate (S k) e
        ∧ sleeps (retry_events (maxRetries self) e k 1 ++ [EvFetch e])
          = (λ attempt, 2 ^ (attempt - 1) * 1000) <$> seqZ 1 (Z.of_nat k).
Proof.
  intros Hk Hthrow Hret. unfold makeRequest.
  destruct (loop_outcomes self e (Z.to_nat (maxRetries self)) 1 None w)
    as [(k' & v' & w' & Hk' & Hthrow' & Hret' & Hrun & Htr & _) | (w' & Hall & _)].
  2: { exfalso. by apply (attempt_exclusive (upcoming w k) v); [apply Hall|]. }
  assert (k' = k) as ->.
  { destruct (Nat.lt_trichotomy k' k) as [Hlt|[->|Hgt]]; [|done|].
    - exfalso. by apply (attempt_exclusive (upcoming w k') v'); [apply Hthrow|].
    - exfalso. by apply (attempt_exclusive (upcoming w k) v); [apply Hthrow'|]. }
  assert (v' = v) as ->.
  { destruct Hret as (s1 & t1 & H1 & _), Hret' as (s2 & t2 & H2 & _). congruence. }
  exists w'. split; [done|]. split; [done|]. split.
  - rewrite fetches_app, retry_events_fetches. simpl.
    clear. induction k as [|k IH]; [done|]. simpl. by rewrite IH.
  - rewrite sleeps_app, retry_events_sleeps_prefix by lia. simpl. by rewrite app_nil_r.
Qed.

Lemma makeRequest_recovers_witness :
  let self := Tool.new_client "token" "https://papertrailapp.com/api/v1" in
  let e := {| path := "/systems.json"; params := [] |} in
  let net := λ n : nat,
    match n with
    | O => (30, Rejected "socket hang up")
    | 1%nat => (40, Responded 200 "<html>" None)
    | _ => (50, Responded 200 "[]" (Some (VArr [])))
    end in
  let w := initial_world 0 (RateLimiter.new None None 60 10) net in
  ∃ w', makeRequest self e w = (Normal (VArr []), w')
        ∧ trace w' = [EvFetch e; EvSleep 1000; EvFetch e; EvSleep 2000; EvFetch e].
Proof.
  intros self e net w.
  destruct (makeRequest_recovers self e w 2 (VArr [])) as (w' & Hrun & Htr & _).
  - vm_compute. lia.
  - intros [|[|i]] Hi; [exact I | right; reflexivity | lia].
  - exists 200, "[]". split; reflexivity.
  - exists w'. split; [exact Hrun | exact Htr].
Defined.

(** X11.  [makeRequest] never sends more than [maxRetries] requests, all of
    them to its endpoint, and sleeps once between two requests and never
    after the last; it throws only after [maxRetries] requests.  With
    [maxRetries <= 0] it sends nothing and throws the [TypeError] of
    reading [message] of [undefined]. *)
Theorem makeRequest_bounded self e w :
  (∃ tr, trace (makeRequest self e w).2 = trace w ++ tr
         ∧ Forall (λ e', e' = e) (fetches tr)
         ∧ (length (fetches tr) ≤ Z.to_nat (maxRetries self))%nat
         ∧ length (sleeps tr) = pred (length (fetches tr))
         ∧ (∀ err, (makeRequest self e w).1 = Throw err →
                   length (fetches tr) = Z.to_nat (maxRetries self)))
  ∧ (maxRetries self ≤ 0 →
     makeRequest self e w = (Throw (TypeError_read "message"), w)).
Proof.
  split.
  - unfold makeRequest.
    destruct (loop_outcomes self e (Z.to_nat (maxRetries self)) 1 None w)
      as [(k & v & w' & Hk & _ & _ & Hrun & Htr & _) | (w' & _ & Hrun & Htr & _)];
      rewrite Hrun; cbn [fst snd]; eexists; (split; [exact Htr|]).
    + rewrite fetches_app, sleeps_app, retry_events_fetches, !length_app, length_replicate.
      rewrite retry_events_sleeps_prefix by lia.
      rewrite length_fmap, length_seqZ.
      change (fetches [EvFetch e]) with [e]. change (sleeps [EvFetch e]) with (@nil Z).
      cbn [length].
      split; [|split; [lia|split; [lia|discriminate]]].
      apply Forall_app. split; [apply Forall_replicate; done | by repeat constructor].
    + rewrite retry_events_fetches, length_replicate.
      split; [by apply Forall_replicate|]. split; [done|]. split; [|done].
      destruct (Z.to_nat (maxRetries self)) as [|n] eqn:En; [done|].
      apply retry_events_sleeps_length. lia.
  - intros Hle. unfold makeRequest. by replace (Z.to_nat (maxRetries self)) with 0%nat by lia.
Qed.

(** X12.  [getSystems] and [getGroups] never throw and do nothing but
    their [makeRequest] ([/systems.json], [/groups.json]).  When it throws,
    the result is a failure with the message of the error and an empty
    list; when it returns a payload, the result is a success with that
    payload, or with [[]] when the payload is falsy ([null], [0], [''],
    [false]). *)
Theorem list_requests_never_throw self w :
  let wraps (ep : string) (get : PapertrailClient.t → M ListResult) :=
    let request := makeRequest self {| path := ep; params := [] |} w in
    ∃ r, get self w = (Normal r, request.2)
         ∧ match request.1 with
           | Normal v =>
               l_success r = true ∧ l_error r = None
               ∧ items r = (if truthy v then v else VArr [])
           | Throw err =>
               l_success r = false ∧ l_error r = Some (message err)
               ∧ items r = VArr []
           end in
  wraps "/systems.json" getSystems ∧ wraps "/groups.json" getGroups.
Proof.
  cbv zeta. unfold getSystems, getGroups, get_list, catch, bind.
  split.
  - destruct (makeRequest self {| path := "/systems.json"; params := [] |} w)
      as [[v|err] w1]; eexists; (split; [reflexivity|]); done.
  - destruct (makeRequest self {| path := "/groups.json"; params := [] |} w)
      as [[v|err] w1]; eexists; (split; [reflexivity|]); done.
Qed.

End RetryExtras.

Section ConnectionTest.
Import JS PapertrailClient PapertrailClientOps.

Implicit Types (w : World) (e : Endpoint).

(** Every way the inner loop of [testConnection] can go, for one method. *)
Lemma try_endpoints_outcomes a (eps : list string) : ∀ w,
  (∃ (j : nat) ep v w',
      eps !! j = Some ep
      ∧ (∀ i, (i < j)%nat → attempt_throws (upcoming w i))
      ∧ attempt_returns (upcoming w j) v
      ∧ (∃ r, try_endpoints a eps w = (Normal (Some r), w')
              ∧ t_success r = true ∧ authMethod r = Some a ∧ endpoint r = Some ep)
      ∧ trace w' = trace w ++ ((λ p, EvFetch {| path := p; params := [] |}) <$> take (S j) eps)
      ∧ advanced w (S j) w')
  ∨ (∃ w',
      (∀ i, (i < length eps)%nat → attempt_throws (upcoming w i))
      ∧ try_endpoints a eps w = (Normal None, w')
      ∧ trace w' = trace w ++ ((λ p, EvFetch {| path := p; params := [] |}) <$> eps)
      ∧ advanced w (length eps) w').
Proof.
  induction eps as [|ep eps IH]; intros w.
  - right. exists w. split; [intros i Hi; simpl in Hi; lia|]. split; [done|].
    simpl. rewrite app_nil_r. unfold advanced. repeat split; lia.
  - cbn [try_endpoints]. unfold catch, makeRequestWithAuth.
    set (e := {| path := ep; params := [] |}).
    destruct (attempt_dichotomy (upcoming w 0)) as [Hthrow | [v Hret]].
    + rewrite (bind_Throw _ _ _ _ _ (attempt_once_throws e w Hthrow)).
      pose proof (advanced_fetched_once e w) as Hadv.
      assert (∀ i, upcoming (fetched_once e w) i = upcoming w (S i)) as Hup.
      { intros i. by rewrite (upcoming_advanced w 1 _ i Hadv). }
      destruct (IH (fetched_once e w))
        as [(j & ep' & v & w' & Hj & Hfail & Hret & Hrun & Htr & Hadv')
           | (w' & Hfail & Hrun & Htr & Hadv')].
      * left. exists (S j), ep', v, w'. split; [done|]. split.
        { intros [|i] Hi; [done|]. rewrite <- Hup. apply Hfail. lia. }
        split; [by rewrite <- Hup|]. split; [done|]. split.
        -- rewrite Htr. cbn [trace fetched_once]. rewrite <- app_assoc. done.
        -- exact (advanced_trans _ _ _ _ _ Hadv Hadv').
      * right. exists w'. split.
        { intros [|i] Hi; [done|]. rewrite <- Hup. apply Hfail. simpl in Hi. lia. }
        split; [done|]. split.
        -- rewrite Htr. cbn [trace fetched_once]. rewrite <- app_assoc. done.
        -- exact (advanced_trans _ _ _ _ _ Hadv Hadv').
    + left. exists 0%nat, ep, v, (fetched_once e w).
      split; [done|]. split; [intros i Hi; lia|]. split; [done|]. split.
      { rewrite (bind_eq _ _ _ _ _ (attempt_once_returns e w v Hret)).
        eexists. split; [reflexivity|]. done. }
      split; [done|]. apply advanced_fetched_once.
Qed.

Lemma try_methods_outcomes (auths : list string) : ∀ w,
  (∃ (m j : nat) a ep v r w' tr,
      auths !! m = Some a ∧ endpoints !! j = Some ep
      ∧ (∀ i, (i < 3 * m + j)%nat → attempt_throws (upcoming w i))
      ∧ attempt_returns (upcoming w (3 * m + j)) v
      ∧ try_methods auths w = (Normal r, w')
      ∧ t_success r = true ∧ authMethod r = Some a ∧ endpoint r = Some ep
      ∧ trace w' = trace w ++ tr
      ∧ sleeps tr = [] ∧ length (fetches tr) = S (3 * m + j))
  ∨ (∃ r w' tr,
      (∀ i, (i < 3 * length auths)%nat → attempt_throws (upcoming w i))
      ∧ try_methods auths w = (Normal r, w')
      ∧ t_success r = false
      ∧ t_error r = Some "All authentication methods and endpoints failed"
      ∧ trace w' = trace w ++ tr
      ∧ sleeps tr = [] ∧ length (fetches tr) = (3 * length auths)%nat).
Proof.
  assert (∀ ps : list string,
            sleeps ((λ p, EvFetch {| path := p; params := [] |}) <$> ps) = []
            ∧ length (fetches ((λ p, EvFetch {| path := p; params := [] |}) <$> ps))
              = length ps) as Hlog.
  { induction ps as [|p ps [IH1 IH2]]; [done|]. split; [exact IH1|].
    simpl. by rewrite <- IH2. }
  induction auths as [|a auths IH]; intros w.
  - right. eexists _, w, []. split; [intros i Hi; simpl in Hi; lia|].
    split; [reflexivity|]. rewrite app_nil_r. done.
  - cbn [try_methods].
    destruct (try_endpoints_outcomes a endpoints w)
      as [(j & ep & v & w1 & Hj & Hfail & Hret & (r & Hrun & Hs & Ha & Hep) & Htr & Hadv)
         | (w1 & Hfail & Hrun & Htr & Hadv)];
      rewrite (bind_eq _ _ _ _ _ Hrun).
    + left. exists 0%nat, j, a, ep, v, r, w1. eexists.
      split; [done|]. split; [done|]. split; [exact Hfail|]. split; [exact Hret|].
      split; [done|]. split; [done|]. split; [done|]. split; [done|]. split; [exact Htr|].
      destruct (Hlog (take (S j) endpoints)) as [-> ->]. split; [done|].
      rewrite length_take. apply lookup_lt_Some in Hj. simpl in *. lia.
    + change (length endpoints) with 3%nat in *.
      assert (∀ i, upcoming w1 i = upcoming w (3 + i)) as Hup.
      { intros i. by rewrite (upcoming_advanced w 3 _ i Hadv). }
      destruct (Hlog endpoints) as [Hsl Hfl].
      destruct (IH w1)
        as [(m & j & a' & ep & v & r & w' & tr & Hm & Hj & Hfail' & Hret & Hrun' & Hs & Ha & Hep
               & Htr' & Hsl' & Hfl')
           | (r & w' & tr & Hfail' & Hrun' & Hs & He & Htr' & Hsl' & Hfl')].
      * left. exists (S m), j, a', ep, v, r, w'. eexists.
        split; [done|]. split; [done|]. split.
        { intros i Hi. destruct (decide (i < 3)%nat) as [Hlt|Hge]; [by apply Hfail|].
          replace i with (3 + (i - 3))%nat by lia. rewrite <- Hup. apply Hfail'. lia. }
        split.
        { replace (3 * S m + j)%nat with (3 + (3 * m + j))%nat by lia. by rewrite <- Hup. }
        split; [done|]. split; [done|]. split; [done|]. split; [done|]. split.
        { rewrite Htr', Htr, <- app_assoc. reflexivity. }
        rewrite sleeps_app, fetches_app, length_app, Hsl, Hsl', Hfl, Hfl'.
        split; [done|]. change (length endpoints) with 3%nat. lia.
      * right. exists r, w'. eexists. split.
        { intros i Hi. destruct (decide (i < 3)%nat) as [Hlt|Hge]; [by apply Hfail|].
          replace i with (3 + (i - 3))%nat by lia. rewrite <- Hup. apply Hfail'.
          simpl in Hi. lia. }
        split; [done|]. split; [done|]. split; [done|]. split.
        { rewrite Htr', Htr, <- app_assoc. reflexivity. }
        rewrite sleeps_app, fetches_app, length_app, Hsl, Hsl', Hfl, Hfl'.
        split; [done|]. change (length endpoints) with 3%nat. simpl. lia.
Qed.

(** X13.  [testConnection] of the ES module never throws and never
    sleeps.  It tries the three endpoints with each of the three
    authentication methods, in that order, one request each: it answers
    with the first pair that gets a 2xx JSON answer, after as many requests
    as it took to reach it, and it answers "all failed" after exactly nine
    requests when none does. *)
Theorem testConnection_scans w :
  (∃ (m j : nat) a ep v r w' tr,
      authMethods !! m = Some a ∧ endpoints !! j = Some ep
      ∧ (∀ i, (i < 3 * m + j)%nat → attempt_throws (upcoming w i))
      ∧ attempt_returns (upcoming w (3 * m + j)) v
      ∧ testConnection w = (Normal r, w')
      ∧ t_success r = true ∧ authMethod r = Some a ∧ endpoint r = Some ep
      ∧ trace w' = trace w ++ tr
      ∧ sleeps tr = [] ∧ length (fetches tr) = S (3 * m + j))
  ∨ (∃ r w' tr,
      (∀ i, (i < 9)%nat → attempt_throws (upcoming w i))
      ∧ testConnection w = (Normal r, w')
      ∧ t_success r = false
      ∧ t_error r = Some "All authentication methods and endpoints failed"
      ∧ trace w' = trace w ++ tr
      ∧ sleeps tr = [] ∧ length (fetches tr) = 9%nat).
Proof. exact (try_methods_outcomes authMethods w). Qed.

End ConnectionTest.

Section TimeRange.
Import JS PapertrailClient.

Implicit Types (w : World) (e : Endpoint) (self : PapertrailClient.t).

Lemma hour_before (now : Z) : (now - 60 * 60 * 1000) `div` 1000 = now `div` 1000 - 3600.
Proof.
  replace (now - 60 * 60 * 1000) with (now + (-3600) * 1000) by lia.
  rewrite Z.div_add by lia. lia.
Qed.

(** X14.  The default bounds of the time range.  [getDefaultMinTime] and
    [getDefaultMaxTime] read the clock each on its own.  For two readings,
    the first no later than the second, the default range spans 3600
    seconds and the whole seconds the clock has crossed between the two
    readings: at least an hour, and an hour exactly when both readings
    fall in the same whole second.  Neither function throws or changes
    anything. *)
Theorem default_range_of_two_reads w1 w2 :
  clock w1 ≤ clock w2 →
  ∃ a b, getDefaultMinTime w1 = (Normal (VNum (Int a)), w1)
         ∧ getDefaultMaxTime w2 = (Normal (VNum (Int b)), w2)
         ∧ b - a = 3600 + (clock w2 `div` 1000 - clock w1 `div` 1000)
         ∧ 3600 ≤ b - a
         ∧ (b - a = 3600 ↔ clock w1 `div` 1000 = clock w2 `div` 1000).
Proof.
  intros Hle.
  exists (clock w1 `div` 1000 - 3600), (clock w2 `div` 1000).
  unfold getDefaultMinTime, getDefaultMaxTime, Date_now, bind, ret.
  rewrite hour_before.
  pose proof (Z.div_le_mono (clock w1) (clock w2) 1000 ltac:(lia) Hle).
  repeat split; lia.
Qed.

Lemma default_range_of_two_reads_witness :
  let limiter := RateLimiter.new None None 60 10 in
  let network := always 300 (Responded 200 EmptyString (Some (VObj [("events", VArr [])]))) in
  let w1 := initial_world 1700000000999 limiter network in
  let w2 := initial_world 1700000001000 limiter network in
  ∃ a b, getDefaultMinTime w1 = (Normal (VNum (Int a)), w1)
         ∧ getDefaultMaxTime w2 = (Normal (VNum (Int b)), w2)
         ∧ b - a = 3601.
Proof.
  intros limiter network w1 w2.
  destruct (default_range_of_two_reads w1 w2) as (a & b & Hmin & Hmax & Hspan & _).
  - simpl. lia.
  - exists a, b. split; [exact Hmin|]. split; [exact Hmax|].
    rewrite Hspan. reflexivity.
Defined.

End TimeRange.

(* ===================================================================== *)
(** ** Further properties of the error handler and of the tool *)
(* ===================================================================== *)

Section ValidationFacts.
Import JS PapertrailClient ErrorHandler Tool.
Import ErrorHandlerOps (field_of).

Context (B : Builtins SearchResult).

Implicit Types (w : World) (args : value) (fields : list (string * value)).

Lemma collect_all_nil {A} (f : A → completion (list string)) (xs : list A) :
  (∀ x, x ∈ xs → f x = Normal []) → collect f xs = Normal [].
Proof.
  induction xs as [|y xs IH]; intros Hall; [done|].
  simpl. rewrite (Hall y) by (by left). rewrite IH; [done|].
  intros x Hx. apply Hall. by right.
Qed.

Lemma collect_elem {A} (f : A → completion (list string)) (xs : list A) es x ex msg :
  collect f xs = Normal es → x ∈ xs → f x = Normal ex → msg ∈ ex → msg ∈ es.
Proof.
  revert es. induction xs as [|y xs IH]; intros es Hc Hin Hx Hmsg;
    [by apply elem_of_nil in Hin|].
  simpl in Hc. destruct (f y) as [e1|] eqn:Ey; [|discriminate].
  destruct (collect f xs) as [e2|]; [|discriminate].
  injection Hc as <-. apply elem_of_app.
  apply elem_of_cons in Hin as [->|Hin].
  - left. rewrite Ey in Hx. by injection Hx as ->.
  - right. by apply (IH e2).
Qed.

Lemma property_errors_string fields field :
  property_errors B (VObj fields) (field, string_field) = Normal []
  ↔ field_of fields field = VUndef ∨ ∃ s, field_of fields field = VStr s.
Proof.
  unfold property_errors, field_of. cbn [get_prop].
  destruct (default VUndef (lookup_field field fields)) eqn:E;
    unfold length_errors, type_errors; simpl;
    (split; [intros H | intros [H|[s' H]]]); try discriminate; try done; eauto.
Qed.

Lemma property_errors_integer_iff fields field lo hi :
  property_errors B (VObj fields) (field, integer_field lo hi) = Normal []
  ↔ field_of fields field = VUndef.
Proof.
  split.
  - intros H. apply property_errors_integer in H. cbn [get_prop] in H.
    unfold field_of. by injection H.
  - unfold property_errors, field_of. cbn [get_prop]. by intros ->.
Qed.

Lemma required_errors_iff fields field :
  required_errors (VObj fields) field = Normal []
  ↔ field_of fields field ≠ VUndef ∧ field_of fields field ≠ VNull.
Proof.
  unfold required_errors, field_of. cbn [get_prop].
  destruct (default VUndef (lookup_field field fields)); split;
    try discriminate; try done; intros [? ?]; done.
Qed.

(** On an object, [validateArgs] either passes with no message or throws
    one [INVALID_ARGUMENTS] error that holds all the messages. *)
Lemma validateArgs_object fields :
  ∃ e1 e2,
    collect (required_errors (VObj fields)) (required inputSchema) = Normal e1
    ∧ collect (property_errors B (VObj fields)) (properties inputSchema) = Normal e2
    ∧ validateArgs B (VObj fields) inputSchema
      = match e1 ++ e2 with
        | [] => Normal tt
        | errors => Throw (createError ERROR_CODES.INVALID_ARGUMENTS
                             ("Validation failed: " ++ join ", " errors) (Some errors))
        end.
Proof.
  destruct (collect_Normal (required_errors (VObj fields)) (required inputSchema))
    as (e1 & He1 & _).
  { intros x _. unfold required_errors. simpl. by eexists. }
  destruct (collect_Normal (property_errors B (VObj fields)) (properties inputSchema))
    as (e2 & He2 & _).
  { intros [field c] Hin. unfold property_errors. cbn [get_prop].
    assert (minLength c = None ∧ maxLength c = None) as [Hmin Hmax].
    { unfold inputSchema in Hin. simpl in Hin.
      repeat (apply elem_of_cons in Hin as [[= _ ->]|Hin]; [done|]).
      by apply elem_of_nil in Hin. }
    assert (length_errors B field c (default VUndef (lookup_field field fields)) = Normal [])
      as ->.
    { unfold length_errors, length_error. rewrite Hmin, Hmax. by destruct (String.eqb _ _). }
    destruct (default VUndef (lookup_field field fields)); by eexists. }
  exists e1, e2. split; [done|]. split; [done|].
  unfold validateArgs. rewrite He1, He2. cbv zeta. by destruct (e1 ++ e2).
Qed.

End ValidationFacts.

Section ToolExtras.
Import JS PapertrailClient ErrorHandler Tool.
Import ErrorHandlerOps (field_of).

Implicit Types (w : World) (args : value) (fields : list (string * value))
               (clientId : string).

(** X15.  What the schema of [search_logs] lets through.  An arguments
    object passes [validateArgs] exactly when [query] is a string,
    [minTime] and [maxTime] are each absent or a string, and [limit],
    [systemId] and [groupId] are all absent: [typeof] never answers
    ['integer'], so no value passes a field of that type. *)
Theorem validateArgs_accepts (B : Builtins SearchResult) fields :
  validateArgs B (VObj fields) inputSchema = Normal tt
  ↔ (∃ s, field_of fields "query" = VStr s)
    ∧ (field_of fields "minTime" = VUndef ∨ ∃ s, field_of fields "minTime" = VStr s)
    ∧ (field_of fields "maxTime" = VUndef ∨ ∃ s, field_of fields "maxTime" = VStr s)
    ∧ field_of fields "limit" = VUndef
    ∧ field_of fields "systemId" = VUndef
    ∧ field_of fields "groupId" = VUndef.
Proof.
  destruct (validateArgs_object B fields) as (e1 & e2 & He1 & He2 & ->).
  split.
  - destruct (e1 ++ e2) eqn:Eapp; [|discriminate]. intros _.
    apply app_eq_nil in Eapp as [-> ->].
    pose proof (collect_nil _ _ He1) as Hreq. pose proof (collect_nil _ _ He2) as Hprop.
    unfold inputSchema in Hreq, Hprop. cbn [required properties] in Hreq, Hprop.
    assert (field_of fields "query" ≠ VUndef) as Hq.
    { apply (required_errors_iff fields "query"), Hreq. by left. }
    assert (field_of fields "query" = VUndef ∨ ∃ s, field_of fields "query" = VStr s)
      as [Hq'|Hq'].
    { apply (property_errors_string B), Hprop. by left. }
    { done. }
    split; [done|].
    split; [apply (property_errors_string B), Hprop; by repeat constructor|].
    split; [apply (property_errors_string B), Hprop; by repeat constructor|].
    split; [apply (property_errors_integer_iff B fields "limit" (Some 1) (Some 1000)), Hprop;
            by repeat constructor|].
    split; [apply (property_errors_integer_iff B fields "systemId" None None), Hprop;
            by repeat constructor|].
    apply (property_errors_integer_iff B fields "groupId" None None), Hprop.
    by repeat constructor.
  - intros ([s Hq] & Hmin & Hmax & Hlim & Hsys & Hgrp).
    assert (e1 = []) as ->.
    { rewrite collect_all_nil in He1; [by injection He1|].
      intros x Hx. unfold inputSchema in Hx. cbn [required] in Hx.
      apply list_elem_of_singleton in Hx as ->.
      apply required_errors_iff. rewrite Hq. done. }
    assert (e2 = []) as ->.
    { rewrite collect_all_nil in He2; [by injection He2|].
      intros x Hx. unfold inputSchema in Hx. cbn [properties] in Hx.
      repeat (apply elem_of_cons in Hx as [->|Hx];
              [first [ apply property_errors_string; eauto
                     | by apply property_errors_integer_iff ]|]).
      by apply elem_of_nil in Hx. }
    done.
Qed.

Lemma validateArgs_accepts_witness :
  validateArgs sample_builtins
    (VObj [("query", VStr "error"); ("minTime", VStr "2023-12-01T10:00:00Z")]) inputSchema
  = Normal tt
  ∧ validateArgs sample_builtins
      (VObj [("query", VStr "error"); ("limit", VNum (Int 50))]) inputSchema
    ≠ Normal tt.
Proof.
  split.
  - apply (validateArgs_accepts sample_builtins). unfold field_of. simpl.
    repeat split; eauto.
  - intros H. apply (validateArgs_accepts sample_builtins) in H as (_ & _ & _ & H & _).
    discriminate H.
Defined.

(** A call whose arguments fail the validation. *)
Lemma executeSearchLogs_invalid (B : Builtins SearchResult) apiToken baseUrl fields clientId w err0 :
  validateArgs B (VObj fields) inputSchema = Throw err0 →
  ∃ err,
    executeSearchLogs B apiToken baseUrl (VObj fields) clientId w
    = (Normal (formatMcpError err),
       set_limiter w (RateLimiter.checkLimit (clock w) clientId (limiter w)).2)
    ∧ (RateLimiter.allowed (RateLimiter.checkLimit (clock w) clientId (limiter w)).1 = true →
       query_is_empty B (field_of fields "query") = Normal false →
       err = err0).
Proof.
  intros Hvalid.
  unfold executeSearchLogs, catch, executeSearchLogs_body.
  set (w1 := set_limiter w (RateLimiter.checkLimit (clock w) clientId (limiter w)).2).
  destruct (rateLimitMiddleware_run clientId w) as [[Hallow Hrun] | (Hdeny & err & Hrun & _)];
    fold w1 in Hrun.
  - rewrite (bind_eq _ _ _ _ _ Hrun).
    unfold lift at 1, bind at 1. cbn [get_prop]. fold (field_of fields "query").
    unfold lift at 1, bind at 1.
    destruct (query_is_empty B (field_of fields "query")) as [[|]|err] eqn:Eempty.
    + eexists. split; [reflexivity|]. intros _ H. discriminate H.
    + rewrite Hvalid. eexists. split; [reflexivity|]. done.
    + eexists. split; [reflexivity|]. intros _ H. discriminate H.
  - rewrite (bind_Throw _ _ _ _ _ Hrun).
    eexists. split; [reflexivity|]. intros Hallow. congruence.
Qed.

(** X16.  Any [limit], [systemId] or [groupId] makes the call fail.  When
    one of them is supplied, whatever its value, an admitted call with a
    non-empty query is answered [INVALID_ARGUMENTS] with the message that
    the field must be of type integer; no request is sent, and the
    admission is consumed all the same. *)
Theorem supplied_integer_field_rejected (B : Builtins SearchResult)
    apiToken baseUrl fields clientId w field v :
  field ∈ ["limit"; "systemId"; "groupId"] →
  lookup_field field fields = Some v → v ≠ VUndef →
  RateLimiter.allowed (RateLimiter.checkLimit (clock w) clientId (limiter w)).1 = true →
  query_is_empty B (field_of fields "query") = Normal false →
  ∃ r w', executeSearchLogs B apiToken baseUrl (VObj fields) clientId w = (Normal r, w')
          ∧ ErrorHandler.success r = false
          ∧ ErrorHandler.code r = Some "INVALID_ARGUMENTS"
          ∧ (∃ errors, r_validationErrors r = Some errors
                       ∧ "Field '" +:+ field +:+ "' must be of type integer, got "
                         +:+ actualType v ∈ errors)
          ∧ trace w' = trace w
          ∧ limiter w' = (RateLimiter.checkLimit (clock w) clientId (limiter w)).2.
Proof.
  intros Hfield Hv Hdef Hallow Hquery.
  destruct (validateArgs_object B fields) as (e1 & e2 & He1 & He2 & Hvalid).
  assert (∃ lo hi, (field, integer_field lo hi) ∈ properties inputSchema) as (lo & hi & Hin).
  { unfold inputSchema. cbn [properties].
    repeat (apply elem_of_cons in Hfield as [->|Hfield];
            [eexists _, _; by repeat constructor|]).
    by apply elem_of_nil in Hfield. }
  assert ("Field '" +:+ field +:+ "' must be of type integer, got " +:+ actualType v ∈ e2)
    as Hmsg.
  { destruct (property_errors B (VObj fields) (field, integer_field lo hi)) as [ex|] eqn:Ex.
    2: { exfalso. revert Ex. unfold property_errors. cbn [get_prop]. rewrite Hv.
         unfold length_errors. simpl. by destruct v. }
    apply (collect_elem _ _ _ _ ex _ He2 Hin Ex).
    revert Ex. unfold property_errors. cbn [get_prop]. rewrite Hv.
    unfold length_errors, type_errors. cbn [default].
    destruct v; try done; simpl; intros [= <-]; by left. }
  destruct (e1 ++ e2) as [|msg errors] eqn:Eapp.
  { apply app_eq_nil in Eapp as [_ ->]. by apply elem_of_nil in Hmsg. }
  destruct (executeSearchLogs_invalid B apiToken baseUrl fields clientId w _ Hvalid)
    as (err & -> & Herr).
  rewrite (Herr Hallow Hquery).
  eexists _, _. split; [reflexivity|]. split; [done|]. split; [done|]. split; [|done].
  exists (msg :: errors). split; [done|]. rewrite <- Eapp. apply elem_of_app. by right.
Qed.

Lemma supplied_integer_field_rejected_witness :
  let w := initial_world 1700000000000 (RateLimiter.new None None 60 10)
             (always 20 (Responded 200 EmptyString (Some (VObj [("events", VArr [])])))) in
  ∃ r w', executeSearchLogs sample_builtins "token" "https://papertrailapp.com/api/v1"
            (VObj [("query", VStr "error"); ("limit", VNum (Int 50))]) "default" w
          = (Normal r, w')
          ∧ ErrorHandler.code r = Some "INVALID_ARGUMENTS"
          ∧ r_validationErrors r = Some ["Field 'limit' must be of type integer, got number"]
          ∧ trace w' = [].
Proof.
  intros w.
  destruct (supplied_integer_field_rejected sample_builtins "token"
              "https://papertrailapp.com/api/v1"
              [("query", VStr "error"); ("limit", VNum (Int 50))] "default" w
              "limit" (VNum (Int 50)))
    as (r & w' & Hrun & _ & Hcode & _ & Htr & _).
  - by left.
  - reflexivity.
  - discriminate.
  - vm_compute. reflexivity.
  - vm_compute. reflexivity.
  - exists r, w'. split; [exact Hrun|]. split; [exact Hcode|]. split; [|exact Htr].
    vm_compute in Hrun. by injection Hrun as <- _.
Defined.

End ToolExtras.

Section ToolFlows.
Import JS PapertrailClient ErrorHandler Tool.
Import ErrorHandlerOps (field_of).
Import PapertrailClientOps (attempt_throws, attempt_error, attempt_returns).

Implicit Types (w : World) (args : value) (fields : list (string * value))
               (clientId : string).



(** X18.  The tool returns a response for every arguments value but
    [undefined] and [null].  For those two the read of [args.query] in the
    [catch] branch throws, so the call ends with a [TypeError] instead of a
    response, after the limiter has recorded the call. *)
Theorem call_throws_only_without_arguments (B : Builtins SearchResult)
    apiToken baseUrl args clientId w :
  (args = VUndef ∨ args = VNull →
   ∃ err, executeSearchLogs B apiToken baseUrl args clientId w
          = (Throw err,
             set_limiter w (RateLimiter.checkLimit (clock w) clientId (limiter w)).2))
  ∧ (args ≠ VUndef → args ≠ VNull →
     ∃ r w', executeSearchLogs B apiToken baseUrl args clientId w = (Normal r, w')).
Proof.
  split.
  - intros Hargs.
    unfold executeSearchLogs, catch, executeSearchLogs_body.
    destruct (rateLimitMiddleware_run clientId w) as [[_ Hrun] | (_ & err & Hrun & _)].
    + rewrite (bind_eq _ _ _ _ _ Hrun). destruct Hargs as [-> | ->]; by eexists.
    + rewrite (bind_Throw _ _ _ _ _ Hrun). destruct Hargs as [-> | ->]; by eexists.
  - intros H1 H2.
    destruct (quiet_get_prop args "query" H1 H2) with (w := w) as [q0 _].
    unfold executeSearchLogs, catch.
    destruct (executeSearchLogs_body B apiToken baseUrl args clientId w) as [[r|err] w1].
    + by exists r, w1.
    + destruct (quiet_get_prop args "query" H1 H2 w1) as [q Hq].
      rewrite (bind_eq _ _ _ _ _ Hq). by eexists _, _.
Qed.

End ToolFlows.

Section ToolSearch.
Import JS PapertrailClient ErrorHandler Tool.
Import ErrorHandlerOps (field_of).
Import PapertrailClientOps (attempt_throws, attempt_error, attempt_returns).

Implicit Types (w : World) (clientId : string).

(** An admitted call with nothing but a proper query goes on to the
    search, with [limit: 100] as its only option, and answers from what
    the search returns. *)
Lemma executeSearchLogs_query_only (B : Builtins SearchResult)
    apiToken baseUrl (s : string) clientId w :
  RateLimiter.allowed (RateLimiter.checkLimit (clock w) clientId (limiter w)).1 = true →
  query_is_empty B (VStr s) = Normal false →
  let w1 := set_limiter w (RateLimiter.checkLimit (clock w) clientId (limiter w)).2 in
  let search := searchLogs (new_client apiToken baseUrl) (VStr s)
                  (VObj [("limit", VNum (Int 100))]) w1 in
  executeSearchLogs B apiToken baseUrl (VObj [("query", VStr s)]) clientId w
  = (Normal
       match search.1 with
       | Normal sr =>
           if negb (PapertrailClient.success sr) then
             formatMcpError
               (createError ERROR_CODES.API_CONNECTION_ERROR
                  ("Papertrail API request failed: "
                   ++ default "undefined" (PapertrailClient.error sr)) None)
           else
             match formatSearchResults B sr (VStr s) with
             | Normal formattedResult =>
                 {| ErrorHandler.success := true; ErrorHandler.error := None; code := None;
                    text := formattedResult;
                    r_retryAfter := None; r_resetTime := None; r_remaining := None;
                    r_validationErrors := None |}
             | Throw err => formatMcpError err
             end
       | Throw err => formatMcpError err
       end,
     search.2).
Proof.
  intros Hallow Hquery w1 search.
  set (args := VObj [("query", VStr s)]).
  assert (validateArgs B args inputSchema = Normal tt) as Hvalid.
  { reflexivity. }
  unfold executeSearchLogs, catch, executeSearchLogs_body.
  destruct (rateLimitMiddleware_run clientId w) as [[_ Hrun] | (Hdeny & _)]; [|congruence].
  fold w1 in Hrun. rewrite (bind_eq _ _ _ _ _ Hrun).
  assert (∀ k w0, lift (get_prop args k) w0 = (Normal (field_of [("query", VStr s)] k), w0))
    as Hget by done.
  rewrite (bind_eq _ _ _ _ _ (Hget "query" _)).
  change (field_of [("query", VStr s)] "query") with (VStr s).
  unfold lift at 1. rewrite Hquery.
  rewrite (bind_eq _ _ w1 false w1 eq_refl).
  unfold lift at 1. rewrite Hvalid.
  rewrite (bind_eq _ _ w1 tt w1 eq_refl).
  rewrite (bind_eq _ _ _ _ _ (Hget "limit" _)), (bind_eq _ _ _ _ _ (Hget "systemId" _)),
    (bind_eq _ _ _ _ _ (Hget "groupId" _)), (bind_eq _ _ _ _ _ (Hget "minTime" _)).
  change (field_of [("query", VStr s)] "minTime") with VUndef.
  change (time_option B "minTime" "2023-12-01T10:00:00Z" VUndef) with (@Normal (list (string * value)) []).
  rewrite (bind_eq (lift (Normal [])) _ w1 [] w1 eq_refl).
  rewrite (bind_eq _ _ _ _ _ (Hget "maxTime" _)).
  change (field_of [("query", VStr s)] "maxTime") with VUndef.
  change (time_option B "maxTime" "2023-12-01T11:00:00Z" VUndef) with (@Normal (list (string * value)) []).
  rewrite (bind_eq (lift (Normal [])) _ w1 [] w1 eq_refl).
  rewrite (bind_eq _ _ _ _ _ (Hget "query" _)).
  change (field_of [("query", VStr s)] "query") with (VStr s).
  change (VObj (([("limit", limit_option B (field_of [("query", VStr s)] "limit"))]
                   ++ spread_parsed B "system_id" (field_of [("query", VStr s)] "systemId")
                   ++ spread_parsed B "group_id" (field_of [("query", VStr s)] "groupId"))
                  ++ [] ++ []))
    with (VObj [("limit", VNum (Int 100))]).
  subst search. unfold bind at 1.
  destruct (searchLogs (new_client apiToken baseUrl) (VStr s)
              (VObj [("limit", VNum (Int 100))]) w1) as [[sr|err] w2]; cbn [fst snd].
  - destruct (negb (PapertrailClient.success sr)).
    + unfold throw. rewrite (bind_eq _ _ _ _ _ (Hget "query" _)). reflexivity.
    + unfold lift at 1, bind at 1.
      destruct (formatSearchResults B sr (VStr s)); [reflexivity|].
      rewrite (bind_eq _ _ _ _ _ (Hget "query" _)). reflexivity.
  - rewrite (bind_eq _ _ _ _ _ (Hget "query" _)). reflexivity.
Qed.

End ToolSearch.

Section ToolFailure.
Import JS PapertrailClient ErrorHandler Tool.
Import PapertrailClientOps (attempt_throws, attempt_error, attempt_returns).

Implicit Types (w : World) (clientId : string) (self : PapertrailClient.t).

(** A search all of whose attempts throw. *)
Lemma searchLogs_exhausted self query fields w (m : nat) :
  Z.to_nat (maxRetries self) = S m →
  (∀ i, (i < S m)%nat → attempt_throws (upcoming w i)) →
  ∃ ps w',
    searchLogs self query (VObj fields) w
    = (Normal (failure query (exhausted self (Some (attempt_error (upcoming w m))))), w')
    ∧ trace w' = trace w ++ retry_events (maxRetries self)
                              {| path := "/events/search.json"; params := ps |} (S m) 1
    ∧ lookup_field "q" ps = Some query
    ∧ lookup_field "limit" ps
      = Some (JS.or (default VUndef (lookup_field "limit" fields)) (VNum (Int 100))).
Proof.
  intros Hn Hthrow.
  unfold searchLogs, searchLogs_with, catch. cbn [default_options].
  destruct (quiet_search_params query (VObj fields)) with (w := w) as [ps Hps]; [done|done|].
  rewrite (bind_eq _ _ _ _ _ Hps). unfold makeRequest. rewrite Hn.
  destruct (loop_outcomes self {| path := "/events/search.json"; params := ps |} (S m) 1 None w)
    as [(k & v & w' & Hk & _ & Hret & _) | (w' & _ & Hrun & Htr & _)].
  { exfalso. by apply (attempt_exclusive (upcoming w k) v); [apply Hthrow|]. }
  rewrite (bind_Throw _ _ _ _ _ Hrun).
  exists ps, w'. split; [reflexivity|]. split; [done|].
  apply search_params_shape in Hps as (a & b & lim & sys & grp & Hlim & ->).
  cbn [get_prop] in Hlim. injection Hlim as <-.
  rewrite lookup_limit_params. split; [|done].
  unfold spread_if. by destruct (truthy sys), (truthy grp).
Qed.

(** X20.  When the remote side fails three times.  An admitted call with a
    proper query and nothing else, all three attempts of which throw, is
    answered [API_CONNECTION_ERROR]; the error text wraps the aggregated
    failure of the last attempt, three requests with [limit = 100] were
    sent, and 1 s and 2 s were slept between them. *)
Theorem api_failure_reported (B : Builtins SearchResult) apiToken baseUrl (s : string)
    clientId w :
  RateLimiter.allowed (RateLimiter.checkLimit (clock w) clientId (limiter w)).1 = true →
  query_is_empty B (VStr s) = Normal false →
  (∀ i, (i < 3)%nat → attempt_throws (upcoming w i)) →
  ∃ r w' tr,
    executeSearchLogs B apiToken baseUrl (VObj [("query", VStr s)]) clientId w = (Normal r, w')
    ∧ ErrorHandler.success r = false
    ∧ ErrorHandler.code r = Some "API_CONNECTION_ERROR"
    ∧ ErrorHandler.error r
      = Some ("Papertrail API request failed: Failed after 3 attempts: "
              +:+ message (attempt_error (upcoming w 2)))
    ∧ trace w' = trace w ++ tr
    ∧ sent_limits tr = [VNum (Int 100); VNum (Int 100); VNum (Int 100)]
    ∧ sleeps tr = [1000; 2000].
Proof.
  intros Hallow Hquery Hthrow.
  rewrite (executeSearchLogs_query_only B apiToken baseUrl s clientId w Hallow Hquery).
  cbv zeta.
  set (w1 := set_limiter w (RateLimiter.checkLimit (clock w) clientId (limiter w)).2).
  destruct (searchLogs_exhausted (new_client apiToken baseUrl) (VStr s)
              [("limit", VNum (Int 100))] w1 2)
    as (ps & w' & Hrun & Htr & _ & Hlim); [done|exact Hthrow|].
  rewrite Hrun. cbn [fst snd].
  eexists _, w', _. split; [reflexivity|]. split; [done|]. split; [done|].
  split; [done|]. split; [exact Htr|].
  unfold sent_limits. rewrite retry_events_fetches. cbn [replicate map params].
  rewrite Hlim. split; [done|].
  rewrite (retry_events_sleeps 3 _ 3 1) by done. reflexivity.
Qed.

Lemma api_failure_reported_witness :
  let w := initial_world 1700000000000 (RateLimiter.new None None 60 10)
             (always 20 (Responded 503 "unavailable" None)) in
  ∃ r w' tr,
    executeSearchLogs sample_builtins "token" "https://papertrailapp.com/api/v1"
      (VObj [("query", VStr "error")]) "default" w = (Normal r, w')
    ∧ ErrorHandler.code r = Some "API_CONNECTION_ERROR"
    ∧ ErrorHandler.error r
      = Some "Papertrail API request failed: Failed after 3 attempts: Papertrail API error (503): unavailable"
    ∧ trace w' = trace w ++ tr
    ∧ sleeps tr = [1000; 2000].
Proof.
  intros w.
  destruct (api_failure_reported sample_builtins "token" "https://papertrailapp.com/api/v1"
              "error" "default" w) as (r & w' & tr & Hrun & _ & Hcode & Herr & Htr & _ & Hsl).
  - vm_compute. reflexivity.
  - vm_compute. reflexivity.
  - intros i _. left. reflexivity.
  - exists r, w', tr. split; [exact Hrun|]. split; [exact Hcode|].
    split; [exact Herr|]. split; [exact Htr | exact Hsl].
Defined.

End ToolFailure.

Section ConfigFacts.
Import JS Config.

(** X21.  [getEnv].  With a default it never throws, and an unset or empty
    variable yields the default.  Without a default it throws exactly when
    the variable is unset; a variable set to the empty string yields
    [undefined] without an error.  It never yields the empty string unless
    that is the default. *)
Theorem getEnv_defaults (env : gmap string string) (key : string) :
  (∀ d, ∃ r, getEnv env key (Some d) = Normal r
             ∧ (r = env !! key ∧ r ≠ Some EmptyString ∧ r ≠ None
                ∨ r = Some d ∧ (env !! key = None ∨ env !! key = Some EmptyString)))
  ∧ (env !! key = None ↔ ∃ err, getEnv env key None = Throw err)
  ∧ (env !! key = Some EmptyString → getEnv env key None = Normal None)
  ∧ (∀ d, getEnv env key d = Normal (Some EmptyString) → d = Some EmptyString).
Proof.
  unfold getEnv. destruct (env !! key) as [v|] eqn:E.
  - assert (String.eqb v EmptyString = true ↔ v = EmptyString) as Heq
      by apply String.eqb_eq.
    destruct (String.eqb v EmptyString) eqn:Ev.
    + pose proof (proj1 Heq eq_refl) as ->.
      split; [intros d; eexists; split; [reflexivity|]; right; auto|].
      split; [split; [discriminate | by intros [? ?]]|].
      split; [done|]. by intros [d|] [= ->].
    + assert (v ≠ EmptyString) as Hne by (intros ->; simpl in Ev; discriminate).
      split; [intros d; eexists; split; [reflexivity|]; left; repeat split; congruence|].
      split; [split; [discriminate | by intros [? ?]]|].
      split; [congruence|]. intros [d|] [= ->]; done.
  - split; [intros d; eexists; split; [reflexivity|]; right; auto|].
    split; [split; [eauto | done]|].
    split; [discriminate|]. by intros [d|] [= ->].
Qed.

(** X22.  [validateConfig] passes exactly when the token is a non-empty
    string, the port is in [[1, 65535]] or [NaN], and the requests per
    minute are at least 1 or [NaN]: a port or a rate that [parseInt] could
    not read goes through, and the burst is not looked at. *)
Theorem validateConfig_accepts (config : Config.t) :
  validateConfig config = Normal tt
  ↔ (∃ token, apiToken config = Some token ∧ token ≠ EmptyString)
    ∧ (port config = NaN ∨ ∃ p, port config = Int p ∧ 1 ≤ p ≤ 65535)
    ∧ (requestsPerMinute config = NaN
       ∨ ∃ n, requestsPerMinute config = Int n ∧ 1 ≤ n).
Proof.
  unfold validateConfig, lt, gt.
  destruct (apiToken config) as [[|a token]|].
  1, 3: split; [discriminate | by intros [[token [[= <-] ?]] _] || by intros [[token [? ?]] _]].
  destruct (port config) as [|p], (requestsPerMinute config) as [|n]; simpl;
    repeat match goal with
           | |- context [?a <? ?b] => destruct (Z.ltb_spec a b)
           end; simpl;
    (split;
     [ try discriminate; intros _;
       (split; [by eexists|]);
       (split; [first [by left | right; eexists; split; [reflexivity|lia]]
               | first [by left | right; eexists; split; [reflexivity|lia]]])
     | intros (_ & [Hp|(p' & Hp & ?)] & [Hn|(n' & Hn & ?)]);
       try discriminate; try injection Hp as <-; try injection Hn as <-;
       first [reflexivity | lia] ]).
Qed.

End ConfigFacts.
